(** * Mock-money Mines: the provably-fair core of [app.js]

    A shallow embedding of the commit-reveal engine of the game (hex helpers,
    the HMAC keystream, the Fisher-Yates shuffle, the probability and payout
    model, the round state machine and the commitment check), followed by the
    properties established about it.

    How JavaScript values are represented:
    - strings are byte strings ([string]); [TextEncoder.encode] is then the
      identity on the underlying bytes ([list_byte_of_string]);
    - a [Uint8Array] is a [list byte];
    - integer-valued numbers (counters, indices, the arguments [r] and
      [mines]) are [Z] or [nat]; this is exact in the safe-integer range;
    - the floats produced by the keystream are dyadic rationals [v / 2^32]
      with [v < 2^32]; the only arithmetic done on them, [r * (i + 1)] with
      [i < 25], needs at most 37 significant bits and is therefore exact in
      binary64, so these values are carried as [Q];
    - the probability and the multiplier are genuinely rounded products and
      quotients: they are carried as binary64 floats ([PrimFloat]), whose
      operations are the IEEE-754 ones JavaScript uses.  Their rounding
      errors are bounded through the value of a float as an exact rational
      ([F2Q]);
    - [crypto.subtle] is an interface the program is given ([WebCrypto]);
    - [async] functions are run to completion in program order; an exception
      is the [None] of [option]. *)

From Stdlib Require Import ZArith QArith Qround Qpower Zpower Lqa.
From Stdlib Require Import PrimFloat FloatOps FloatAxioms SpecFloat.
From Stdlib Require Import Ascii String Strings.Byte DecimalString DecimalZ DecimalPos Lia.
From stdpp Require Import base decidable option list vector gmap strings.

Close Scope Q_scope.
Set Warnings "-inexact-float,-clear-no-such-hyp".

(** ** Utilities: hexadecimal strings *)

(** [Number.prototype.toString(16)] on a byte value (one or two lowercase
    digits). *)
Definition hexDigit (n : N) : ascii :=
  if (n <? 10)%N then ascii_of_N (48 + n) else ascii_of_N (87 + n).

Definition toString16 (b : byte) : string :=
  let n := Byte.to_N b in
  if (n <? 16)%N then String (hexDigit n) EmptyString
  else String (hexDigit (n / 16)) (String (hexDigit (n mod 16)) EmptyString).

(** [String.prototype.padStart] with a one-character filler. *)
Fixpoint repeatChar (k : nat) (pad : ascii) (s : string) : string :=
  match k with
  | O => s
  | S k' => String pad (repeatChar k' pad s)
  end.

Definition padStart (targetLength : nat) (pad : ascii) (s : string) : string :=
  repeatChar (targetLength - String.length s) pad s.

Definition byteHex (b : byte) : string := padStart 2 "0" (toString16 b).

(** [bufToHex]: the loop appends the two digits of each byte in order. *)
Fixpoint bufToHex (buf : list byte) : string :=
  match buf with
  | [] => EmptyString
  | b :: rest => byteHex b +:+ bufToHex rest
  end.

(** [parseInt(s, 16)]: leading white space, an optional sign, an optional
    [0x] prefix, then the longest run of hexadecimal digits; [None] is NaN. *)
Definition hexDigitValue (c : ascii) : option Z :=
  let n := Z.of_N (N_of_ascii c) in
  if ((48 <=? n) && (n <=? 57))%Z then Some (n - 48)%Z
  else if ((97 <=? n) && (n <=? 102))%Z then Some (n - 87)%Z
  else if ((65 <=? n) && (n <=? 70))%Z then Some (n - 55)%Z
  else None.

Fixpoint parseDigits16 (s : string) (acc : option Z) : option Z :=
  match s with
  | EmptyString => acc
  | String c rest =>
      match hexDigitValue c with
      | Some d => parseDigits16 rest (Some (16 * default 0%Z acc + d)%Z)
      | None => acc
      end
  end.

Definition isWhiteSpace (c : ascii) : bool :=
  let n := N_of_ascii c in
  ((9 <=? n) && (n <=? 13) || (n =? 32))%N.

Fixpoint skipWhiteSpace (s : string) : string :=
  match s with
  | String c rest => if isWhiteSpace c then skipWhiteSpace rest else s
  | EmptyString => s
  end.

Definition stripHexPrefix (s : string) : string :=
  match s with
  | String "0" (String "x" rest) => rest
  | String "0" (String "X" rest) => rest
  | _ => s
  end.

Definition parseInt16 (s : string) : option Z :=
  match skipWhiteSpace s with
  | String "-" rest => Z.opp <$> parseDigits16 (stripHexPrefix rest) None
  | String "+" rest => parseDigits16 (stripHexPrefix rest) None
  | t => parseDigits16 (stripHexPrefix t) None
  end.

(** Storing a number into a [Uint8Array]: NaN becomes 0, anything else is
    reduced modulo 256. *)
Definition toUint8 (v : option Z) : byte :=
  match v with
  | None => x00
  | Some z => default x00 (Byte.of_N (Z.to_N (z mod 256)))
  end.

(** [hexToBytes]: [hex.length / 2] entries ([Uint8Array] truncates the
    length), entry [i] parsed from [hex.substr(i * 2, 2)]. *)
Definition hexToBytes (hex : string) : list byte :=
  map (fun i => toUint8 (parseInt16 (substring (i * 2) 2 hex)))
      (seq 0 (String.length hex / 2)).

(** ** Utilities: WebCrypto wrappers (SHA-256, HMAC-SHA-256) *)

(** The two [crypto.subtle] services the program calls.  Both algorithms
    produce 32 bytes. *)
Class WebCrypto := {
  digestSHA256 : list byte -> vec byte 32;
  signHMACSHA256 : list byte -> list byte -> vec byte 32
}.

(** [enc.encode] *)
Definition encode (s : string) : list byte := list_byte_of_string s.

Definition sha256Hex `{WebCrypto} (input : string) : string :=
  bufToHex (vec_to_list (digestSHA256 (encode input))).

Definition hmacSHA256Hex `{WebCrypto} (keyRaw msg : string) : string :=
  bufToHex (vec_to_list (signHMACSHA256 (encode keyRaw) (encode msg))).

(** ** Deterministic PRNG from HMAC(serverSeed, clientSeed:nonce:counter) *)

(** [String(n)] for an integer. *)
Definition numberToString (z : Z) : string :=
  NilZero.string_of_int (Z.to_int z).

(** The object [Keystream(serverSeed, clientSeed, nonce)] returns: the three
    captured arguments and the two mutable locals. *)
Record KeystreamObj := mkKeystream {
  ks_serverSeed : string;
  ks_clientSeed : string;
  ks_nonce : Z;
  ks_counter : nat;
  ks_buffer : list byte
}.

Definition Keystream (serverSeed clientSeed : string) (nonce : Z) : KeystreamObj :=
  mkKeystream serverSeed clientSeed nonce 0 [].

(** The message of block [counter]: [`${clientSeed}:${nonce}:${counter}`]. *)
Definition blockMessage (clientSeed : string) (nonce : Z) (counter : nat) : string :=
  clientSeed +:+ ":" +:+ numberToString nonce +:+ ":" +:+
  numberToString (Z.of_nat counter).

Definition refill `{WebCrypto} (ks : KeystreamObj) : KeystreamObj :=
  let msg := blockMessage (ks_clientSeed ks) (ks_nonce ks) (ks_counter ks) in
  let hex := hmacSHA256Hex (ks_serverSeed ks) msg in
  mkKeystream (ks_serverSeed ks) (ks_clientSeed ks) (ks_nonce ks)
              (S (ks_counter ks)) (hexToBytes hex).

(** [DataView.getUint32(0, false)]: big-endian. *)
Definition byteZ (b : byte) : Z := Z.of_N (Byte.to_N b).

Definition getUint32 (b0 b1 b2 b3 : byte) : Z :=
  (((byteZ b0 * 256 + byteZ b1) * 256 + byteZ b2) * 256 + byteZ b3)%Z.

(** [nextFloat]: [None] is the [RangeError] of [getUint32] on a view shorter
    than four bytes. *)
Definition nextFloat `{WebCrypto} (ks : KeystreamObj) : option (Q * KeystreamObj) :=
  let ks1 := if (length (ks_buffer ks) <? 4)%nat then refill ks else ks in
  match ks_buffer ks1 with
  | b0 :: b1 :: b2 :: b3 :: rest =>
      let val := getUint32 b0 b1 b2 b3 in
      Some ((inject_Z val / inject_Z 4294967296)%Q,
            mkKeystream (ks_serverSeed ks1) (ks_clientSeed ks1) (ks_nonce ks1)
                        (ks_counter ks1) rest)
  | _ => None
  end.

(** [[arr[i], arr[j]] = [arr[j], arr[i]]]: both reads happen first, then
    [arr[i]] and [arr[j]] are written.  Both indices are inside the array
    whenever the float is in [0,1) (lemma [shuffle_index_range]); outside it
    JavaScript would store [undefined], which a [list nat] cannot hold, and the
    model leaves the array as it is. *)
Definition swap (arr : list nat) (i j : nat) : list nat :=
  match arr !! j, arr !! i with
  | Some aj, Some ai => <[j:=ai]> (<[i:=aj]> arr)
  | _, _ => arr
  end.

(** [Math.floor(r * (i + 1))] *)
Definition pickIndex (r : Q) (i : nat) : nat :=
  Z.to_nat (Qfloor (r * inject_Z (Z.of_nat i + 1))%Q).

Fixpoint shuffleLoop `{WebCrypto} (i : nat) (arr : list nat) (ks : KeystreamObj)
  : option (list nat * KeystreamObj) :=
  match i with
  | O => Some (arr, ks)
  | S i' =>
      '(r, ks') ← nextFloat ks;
      shuffleLoop i' (swap arr i (pickIndex r i)) ks'
  end.

(** [shuffleDeterministic(n, ks)]: the array [0..n-1], then [i] from [n - 1]
    down to 1. *)
Definition shuffleDeterministic `{WebCrypto} (n : nat) (ks : KeystreamObj)
  : option (list nat * KeystreamObj) :=
  shuffleLoop (n - 1) (seq 0 n) ks.

(** ** Probability / Multiplier *)

(** An integer as a JavaScript number: the nearest binary64 value (the
    integer itself below 2^53). *)
Definition numberOfZ (z : Z) : float :=
  SF2Prim (binary_normalize prec emax z 0 false).

(** The [for] loop of [probabilitySafePicks]: [fuel] is the number of
    iterations left, [i] the loop variable. *)
Fixpoint safePicksLoop (fuel : nat) (mines total i : Z) (prob : float) : float :=
  match fuel with
  | O => prob
  | S fuel' =>
      let safeLeft := (total - mines - i)%Z in
      let tilesLeft := (total - i)%Z in
      if (safeLeft <=? 0)%Z then 0%float
      else safePicksLoop fuel' mines total (i + 1)%Z
             (prob * (numberOfZ safeLeft / numberOfZ tilesLeft))%float
  end.

Definition probabilitySafePicks (r mines total : Z) : float :=
  if (r <=? 0)%Z then 1%float
  else safePicksLoop (Z.to_nat r) mines total 0 1.

(** [Math.min] and [Math.max] on two numbers: NaN if either is NaN, and -0
    is below +0. *)
Definition Math_min (a b : float) : float :=
  if is_nan a || is_nan b then nan
  else if (a <? b)%float then a
  else if (b <? a)%float then b
  else if get_sign a then a else b.

Definition Math_max (a b : float) : float :=
  if is_nan a || is_nan b then nan
  else if (a <? b)%float then b
  else if (b <? a)%float then a
  else if get_sign a then b else a.

(** The literal [0.99], that is the binary64 number nearest to it. *)
Definition lit_0_99 : float := 0x1.fae147ae147aep-1%float.

Definition houseEdge (houseEdgePct : float) : float :=
  Math_max 0 (Math_min lit_0_99 (houseEdgePct / 100)).

Definition payoutMultiplier (r mines : Z) (houseEdgePct : float) : float :=
  if (r <=? 0)%Z then 1%float
  else
    let prob := probabilitySafePicks r mines 25 in
    if (prob <=? 0)%float then infinity
    else
      let edge := houseEdge houseEdgePct in
      ((1 - edge) / prob)%float.

(** ** Game state *)

(** A tile button: its class list ([revealed safe], [revealed mine] or
    neither), whether it is disabled, and the red inset shadow of the mine
    that was hit.  Labels, text and keyboard focus are display only and are
    left out, as are the status read-outs [updateStatusUI] refreshes. *)
Inductive TileClass := Hidden | SafeTile | MineTile.

Record Tile := mkTile {
  t_class : TileClass;
  t_disabled : bool;
  t_hit : bool
}.

(** The texts [setBadge] is called with. *)
Inductive Badge := Idle | Live | Busted | CashedOut.

(** The script's global variables and the parts of the page its control
    flow reads back. *)
Record Game := mkGame {
  balance : float;
  roundActive : bool;
  currentBet : float;
  minesCount : Z;
  houseEdgePct : float;
  serverSeed : option string;
  serverSeedHash : option string;
  clientSeed : option string;
  nonce : Z;
  minesSet : gset nat;
  revealed : gset nat;
  safeReveals : Z;
  keystream : option KeystreamObj;
  board : list Tile;
  serverSeedText : string;
  badge : Badge;
  statusWin : bool;
  statusLose : bool
}.

(** The em dash shown while the seed is hidden (three bytes in UTF-8). *)
Definition dash : string :=
  String (ascii_of_nat 226) (String (ascii_of_nat 128)
    (String (ascii_of_nat 148) EmptyString)).

(** Truthiness of a string-or-null. *)
Definition truthy (s : option string) : bool :=
  match s with
  | Some (String _ _) => true
  | _ => false
  end.

(** [randomHex]: the bytes [crypto.getRandomValues] wrote, in hexadecimal. *)
Definition randomHex (entropy : list byte) : string :=
  String.concat "" (map byteHex entropy).

(** What a round start reads from the page and from the random source. *)
Record RoundInputs := mkInputs {
  in_bet : float;
  in_mines : option Z;
  in_edge : float;
  in_clientSeed : string;
  rnd_client : vec byte 16;
  rnd_server : vec byte 32
}.

(** [resetBoard]: 25 fresh buttons. *)
Definition freshBoard : list Tile := replicate 25 (mkTile Hidden false false).

(** [clampInputs], mines and edge: [in_mines] is what [parseInt] returned
    ([None] for NaN) and [in_edge] what [parseFloat] returned.  The bet is
    normalised inside its text field only; [in_bet] is the number
    [startRound] parses back from that field. *)
Definition clampMines (m : option Z) : Z :=
  Z.max 1 (Z.min 24 (default 3%Z m)).

Definition clampEdge (e : float) : float :=
  Math_max 0 (Math_min 10 (if is_finite e then e else 3%float)).

Definition clampInputs (inp : RoundInputs) (st : Game) : Game :=
  mkGame (balance st) (roundActive st) (currentBet st)
         (clampMines (in_mines inp)) (clampEdge (in_edge inp))
         (serverSeed st) (serverSeedHash st) (clientSeed st) (nonce st)
         (minesSet st) (revealed st) (safeReveals st) (keystream st)
         (board st) (serverSeedText st) (badge st) (statusWin st) (statusLose st).

(** [order.slice(0, end)] *)
Definition slice0 (order : list nat) (end_ : Z) : list nat :=
  if (end_ <? 0)%Z then take (Z.to_nat (Z.of_nat (length order) + end_)) order
  else take (Z.to_nat end_) order.

(** Lines 264-267: the tile order and the mine set of a round. *)
Definition deriveMines `{WebCrypto} (serverSeed clientSeed : string) (nonce minesCount : Z)
  : option (gset nat * KeystreamObj) :=
  '(order, ks) ← shuffleDeterministic 25 (Keystream serverSeed clientSeed nonce);
  Some (list_to_set (slice0 order minesCount), ks).

Definition startRound `{WebCrypto} (inp : RoundInputs) (st : Game) : Game :=
  if roundActive st then st
  else
    let st1 := clampInputs inp st in
    let bet := in_bet inp in
    if (balance st1 <? bet)%float then st1
    else
      let clientSeed' :=
        match in_clientSeed inp with
        | EmptyString => randomHex (vec_to_list (rnd_client inp))
        | trimmed => trimmed
        end in
      let serverSeed' := randomHex (vec_to_list (rnd_server inp)) in
      let serverSeedHash' := sha256Hex serverSeed' in
      let nonce' := (nonce st1 + 1)%Z in
      match deriveMines serverSeed' clientSeed' nonce' (minesCount st1) with
      | Some (mines, ks) =>
          mkGame (balance st1 - bet)%float true bet
                 (minesCount st1) (houseEdgePct st1)
                 (Some serverSeed') (Some serverSeedHash') (Some clientSeed') nonce'
                 mines ∅ 0 (Some ks)
                 freshBoard dash Live false false
      | None =>
          (* the shuffle threw: what had been assigned before stays *)
          mkGame (balance st1) false (currentBet st1)
                 (minesCount st1) (houseEdgePct st1)
                 (Some serverSeed') (Some serverSeedHash') (Some clientSeed') nonce'
                 (minesSet st1) (revealed st1) (safeReveals st1)
                 (Some (Keystream serverSeed' clientSeed' nonce'))
                 (board st1) dash (badge st1) (statusWin st1) (statusLose st1)
      end.

(** [revealAll]: every mine is shown, every safe tile not yet revealed is
    shown, all of them are disabled; the tile that was hit is outlined. *)
Definition revealTile (mines shown : gset nat) (idx : nat) (t : Tile) : Tile :=
  if bool_decide (idx ∈ mines) then mkTile MineTile true (t_hit t)
  else if bool_decide (idx ∈ shown) then t
  else mkTile SafeTile true (t_hit t).

Definition markHit (finalHitIndex : option nat) (tiles : list Tile) : list Tile :=
  match finalHitIndex with
  | Some i =>
      match tiles !! i with
      | Some t => <[i := mkTile (t_class t) (t_disabled t) true]> tiles
      | None => tiles
      end
  | None => tiles
  end.

Definition revealAll (finalHitIndex : option nat) (mines shown : gset nat)
    (tiles : list Tile) : list Tile :=
  markHit finalHitIndex (imap (revealTile mines shown) tiles).

(** [onTileClick] for the button with [data-idx = idx]. *)
Definition onTileClick (idx : nat) (st : Game) : Game :=
  if negb (roundActive st) then st
  else
    match board st !! idx with
    | None => st
    | Some btn =>
        if bool_decide (idx ∈ revealed st) || t_disabled btn then st
        else if bool_decide (idx ∈ minesSet st) then
          let revealed' := {[idx]} ∪ revealed st in
          let board1 := <[idx := mkTile MineTile true (t_hit btn)]> (board st) in
          mkGame (balance st) false (currentBet st)
                 (minesCount st) (houseEdgePct st)
                 (serverSeed st) (serverSeedHash st) (clientSeed st) (nonce st)
                 (minesSet st) revealed' (safeReveals st) (keystream st)
                 (revealAll (Some idx) (minesSet st) revealed' board1)
                 (default EmptyString (serverSeed st)) Busted
                 (statusWin st) true
        else
          mkGame (balance st) (roundActive st) (currentBet st)
                 (minesCount st) (houseEdgePct st)
                 (serverSeed st) (serverSeedHash st) (clientSeed st) (nonce st)
                 (minesSet st) ({[idx]} ∪ revealed st) (safeReveals st + 1)%Z
                 (keystream st)
                 (<[idx := mkTile SafeTile true (t_hit btn)]> (board st))
                 (serverSeedText st) (badge st) (statusWin st) (statusLose st)
    end.

Definition doCashOut (st : Game) : Game :=
  if negb (roundActive st) then st
  else if (safeReveals st <=? 0)%Z then st
  else
    let mult := payoutMultiplier (safeReveals st) (minesCount st) (houseEdgePct st) in
    if negb (is_finite mult) then st
    else
      let payout := (currentBet st * mult)%float in
      mkGame (balance st + payout)%float false (currentBet st)
             (minesCount st) (houseEdgePct st)
             (serverSeed st) (serverSeedHash st) (clientSeed st) (nonce st)
             (minesSet st) (revealed st) (safeReveals st) (keystream st)
             (revealAll None (minesSet st) (revealed st) (board st))
             (default EmptyString (serverSeed st)) CashedOut
             true (statusLose st).

(** [verifyCommitment]: [None] when the guard returns early, otherwise the
    boolean the alert reports. *)
Definition verifyCommitment `{WebCrypto} (st : Game) : option bool :=
  if negb (truthy (serverSeed st)) || negb (truthy (serverSeedHash st))
     || roundActive st || String.eqb (serverSeedText st) dash
  then None
  else
    let h := sha256Hex (default EmptyString (serverSeed st)) in
    Some (String.eqb h (default EmptyString (serverSeedHash st))).

Definition nextRound (st : Game) : Game :=
  mkGame (balance st) (roundActive st) (currentBet st)
         (minesCount st) (houseEdgePct st)
         None None (clientSeed st) (nonce st)
         (minesSet st) ∅ 0 (keystream st)
         freshBoard dash Idle false false.

(** What the player can do to a round once it has started. *)
Inductive Event := Click (idx : nat) | CashOut.

Definition step (st : Game) (e : Event) : Game :=
  match e with
  | Click idx => onTileClick idx st
  | CashOut => doCashOut st
  end.

Definition run (st : Game) (events : list Event) : Game :=
  fold_left step events st.


(** ** The specification's reading of the core

    Definitions written after the specification, to compare the code with. *)

(** The MAC output block number [k] of a round:
    [MAC(key = secretSeed, message = publicSeed : sequenceNumber : k)]. *)
Definition macBlock `{WebCrypto} (secretSeed publicSeed : string)
    (sequenceNumber : Z) (k : nat) : list byte :=
  vec_to_list (signHMACSHA256 (encode secretSeed)
                 (encode (blockMessage publicSeed sequenceNumber k))).

(** Bytes read as a big-endian unsigned integer, normalised by 2^32. *)
Definition bigEndian (bs : list byte) : Z :=
  fold_left (fun acc b => (acc * 256 + byteZ b)%Z) bs 0%Z.

Definition unitFloat (bs : list byte) : Q :=
  (inject_Z (bigEndian bs) / inject_Z (2 ^ 32))%Q.

(** Float number [k] of the stream: eight floats per 32-byte block, taken
    four bytes at a time. *)
Definition streamFloat `{WebCrypto} (secretSeed publicSeed : string)
    (sequenceNumber : Z) (k : nat) : Q :=
  unitFloat (take 4 (drop (4 * (k mod 8))
                       (macBlock secretSeed publicSeed sequenceNumber (k / 8)))).

(** Exchanging the elements at [i] and [j]. *)
Definition exchange (arr : list nat) (i j : nat) : list nat :=
  match arr !! i, arr !! j with
  | Some ai, Some aj => <[i:=aj]> (<[j:=ai]> arr)
  | _, _ => arr
  end.

(** Fisher-Yates from the end over a given list of floats: for [i] from
    [n - 1] down to 1, [j = floor (f * (i + 1))], exchange [i] and [j]. *)
Fixpoint fisherYatesFrom (i : nat) (arr : list nat) (floats : list Q) : list nat :=
  match i, floats with
  | S i', f :: rest =>
      fisherYatesFrom i'
        (exchange arr i (Z.to_nat (Qfloor (f * inject_Z (Z.of_nat i + 1))%Q))) rest
  | _, _ => arr
  end.

Definition fisherYates (n : nat) (floats : list Q) : list nat :=
  fisherYatesFrom (n - 1) (seq 0 n) floats.

(** [k] successive calls of [nextFloat]. *)
Fixpoint drawFloats `{WebCrypto} (k : nat) (ks : KeystreamObj)
  : option (list Q * KeystreamObj) :=
  match k with
  | O => Some ([], ks)
  | S k' =>
      '(r, ks1) ← nextFloat ks;
      '(rs, ks2) ← drawFloats k' ks1;
      Some (r :: rs, ks2)
  end.

(** The state of a fresh keystream after [k] floats: [k] words of the block
    stream consumed, the rest of the current block buffered. *)
Definition afterDraws `{WebCrypto} (s c : string) (n : Z) (k : nat) : KeystreamObj :=
  match k with
  | O => Keystream s c n
  | S k' =>
      mkKeystream s c n (S (k' / 8))
        (drop (4 * (k' mod 8) + 4) (macBlock s c n (k' / 8)))
  end.



(** The statement of the multiplier contract read literally: infinite exactly
    when the probability is 0, the quotient otherwise. *)
Definition multiplier_contract (r mines : Z) (e : float) : Prop :=
  ((r <= 0)%Z -> payoutMultiplier r mines e = 1%float) /\
  ((0 < r)%Z -> (probabilitySafePicks r mines 25 =? 0)%float = true ->
     payoutMultiplier r mines e = infinity) /\
  ((0 < r)%Z -> (probabilitySafePicks r mines 25 =? 0)%float = false ->
     payoutMultiplier r mines e
     = ((1 - houseEdge e) / probabilitySafePicks r mines 25)%float).

(** Non-decreasing in [r], with +infinity above everything ([<=?] is the
    IEEE comparison). *)
Definition multiplier_monotone (mines : Z) (e : float) (r1 r2 : Z) : Prop :=
  (r1 <= r2)%Z ->
  (payoutMultiplier r1 mines e <=? payoutMultiplier r2 mines e)%float = true.

(** A multiplier that is at least 1 or +infinity. *)
Definition multiplier_at_least_one (r mines : Z) (e : float) : Prop :=
  (1 <=? payoutMultiplier r mines e)%float = true \/
  payoutMultiplier r mines e = infinity.





(** ** What a started round keeps

    The commitment of a round: a non-empty hexadecimal seed, its digest
    stored beside it, and the seed on display once the round is over. *)
Definition committed `{WebCrypto} (st : Game) : Prop :=
  exists b rest,
    serverSeed st = Some (byteHex b +:+ rest) /\
    serverSeedHash st = Some (sha256Hex (byteHex b +:+ rest)) /\
    (roundActive st = false -> serverSeedText st = byteHex b +:+ rest).

(** [safeReveals] counts the distinct safe tiles revealed. *)
Definition countsSafeTiles (st : Game) : Prop :=
  safeReveals st = Z.of_nat (size (revealed st ∖ minesSet st)).

(** While a round is live the board has its 25 buttons, the mines are tiles
    of the board, none of them is revealed, and a button is disabled exactly
    when its tile is revealed. *)
Definition liveRound (st : Game) : Prop :=
  roundActive st = true ->
  length (board st) = 25%nat /\
  (forall i, i ∈ minesSet st -> (i < 25)%nat) /\
  revealed st ## minesSet st /\
  (forall i btn, board st !! i = Some btn ->
     (t_disabled btn = true <-> i ∈ revealed st)).

(** ** Tables over the board

    With 25 tiles there are finitely many arguments on which the loop runs
    to its end; these checks go through all of them. *)
Definition zrange (a : Z) (n : nat) : list Z :=
  map (fun k => (a + Z.of_nat k)%Z) (seq 0 n).

(** Every probability reached without short-circuit, [0 <= mines] and
    [1 <= r <= 25 - mines], is in (0,1]. *)
Definition probabilityTable : bool :=
  forallb (fun mines =>
    forallb (fun r =>
      let p := probabilitySafePicks r mines 25 in
      (0 <? p)%float && (p <=? 1)%float)
      (zrange 1 (Z.to_nat (25 - mines))))
    (zrange 0 25).

(** The fair multiplier (house edge 0) along [r = 0..25], for each mine
    count of the game. *)
Definition fairMultiplierTable : bool :=
  forallb (fun mines =>
    forallb (fun r1 =>
      forallb (fun r2 =>
        (payoutMultiplier r1 mines 0 <=? payoutMultiplier r2 mines 0)%float)
        (zrange r1 (Z.to_nat (26 - r1))))
      (zrange 0 26))
    (zrange 1 24).

(** ** A stand-in provider

    A total pair of 32-byte functions, used only to instantiate statements at
    concrete inputs; it has none of the properties of SHA-256. *)
Definition paddedBlock (input : list byte) : vec byte 32 :=
  fun_to_vec (fun i : fin 32 => nth (fin_to_nat i) input x00).

Definition sampleCrypto : WebCrypto :=
  {| digestSHA256 := paddedBlock;
     signHMACSHA256 := fun key msg => paddedBlock (msg ++ key) |}.

(** The globals as the script initialises them, with nothing stored for the
    balance, and a round started from there with the stand-in provider. *)
Definition initialGame : Game :=
  mkGame 1000 false 0 3 3 None None None 0 ∅ ∅ 0 None freshBoard dash Idle false false.

Definition sampleInputs : RoundInputs :=
  mkInputs 10 (Some 3%Z) 3 "client" (vreplicate 16 x2a) (vreplicate 32 x5a).

(** Another idle state: a different balance and a board left over from a
    round that was played. *)
Definition richGame : Game :=
  mkGame 5000 false 25 7 1 (Some "00") (Some "11") (Some "old") 0
         {[1%nat; 2%nat]} {[4%nat]} 1
         None (replicate 25 (mkTile SafeTile true false)) "00" CashedOut true false.

Definition sampleRound : Game := @startRound sampleCrypto sampleInputs initialGame.


(** ** Vocabulary of the further properties *)

(** A lowercase hexadecimal digit. *)
Definition lowerHexDigit (c : ascii) : Prop :=
  exists n, (n < 16)%N /\ c = hexDigit n.

(** A string of one-byte characters: its bytes are its UTF-16 code units,
    so lengths and positions in the model are the ones JavaScript sees. *)
Definition asciiString (s : string) : Prop :=
  Forall (fun c => (N_of_ascii c < 128)%N) (list_ascii_of_string s).

(** A string without a colon. *)
Definition colonFree (s : string) : Prop :=
  ~ In ":"%char (list_ascii_of_string s).

(** Along [r = 0..26] the float probability does not grow, for every mine
    count from 0 to 25; and with no house edge the float multiplier is at
    least 1 along [r = 0..25], for every mine count of the game. *)
Definition probabilityMonotoneTable : bool :=
  forallb (fun mines =>
    forallb (fun r1 =>
      forallb (fun r2 =>
        (probabilitySafePicks r2 mines 25 <=? probabilitySafePicks r1 mines 25)%float)
        (zrange r1 (Z.to_nat (27 - r1))))
      (zrange 0 27))
    (zrange 0 26).

Definition fairFloorTable : bool :=
  forallb (fun mines =>
    forallb (fun r => (1 <=? payoutMultiplier r mines 0)%float) (zrange 0 26))
    (zrange 1 24).

(** ** The status read-outs and the controls of the page *)

(** [updateStatusUI]: the cash-out value it shows and the three buttons it
    enables or disables.  Every handler that changes the state ends with a
    call of it, so the page shows [updateStatusUI] of the current state. *)
Record StatusUI := mkStatusUI {
  cashOutValue : float;
  cashOutDisabled : bool;
  verifyDisabled : bool;
  nextRoundDisabled : bool
}.

Definition updateStatusUI (st : Game) : StatusUI :=
  let mult := payoutMultiplier (safeReveals st) (minesCount st) (houseEdgePct st) in
  mkStatusUI
    (if roundActive st && is_finite mult then (currentBet st * mult)%float else 0%float)
    (negb (roundActive st && (0 <? safeReveals st)%Z && is_finite mult))
    (negb (truthy (serverSeed st) && truthy (serverSeedHash st)
           && negb (roundActive st) && negb (String.eqb (serverSeedText st) dash)))
    (roundActive st).

(** The listeners wired at the end of the script that act on the game: the
    new-game, cash-out and next-round buttons, the tiles, and a change or
    blur of an input field.  Each runs its handler as it is written; the
    verify button and the arrow keys change none of the variables below. *)
Inductive Action :=
| NewGame (inp : RoundInputs)
| TileClick (idx : nat)
| CashOutClick
| NextRoundClick
| InputChange (inp : RoundInputs).

Definition act `{WebCrypto} (st : Game) (a : Action) : Game :=
  match a with
  | NewGame inp => startRound inp st
  | TileClick idx => onTileClick idx st
  | CashOutClick => doCashOut st
  | NextRoundClick => nextRound st
  | InputChange inp => clampInputs inp st
  end.

Definition play `{WebCrypto} (st : Game) (actions : list Action) : Game :=
  fold_left act actions st.

(** No seed is held, or the one held is committed. *)
Definition sealed `{WebCrypto} (st : Game) : Prop :=
  (serverSeed st = None /\ serverSeedHash st = None) \/ committed st.

(** What the board shows: during a round, the revealed tiles as safe and
    disabled and the others hidden and enabled; after it, every tile
    disabled, the mines as mines and the rest as safe. *)
Definition showsRound (st : Game) : Prop :=
  length (board st) = 25%nat /\
  revealed st ## minesSet st /\
  forall i btn, board st !! i = Some btn ->
    (i ∈ revealed st /\ t_class btn = SafeTile /\ t_disabled btn = true) \/
    ((i ∉ revealed st) /\ t_class btn = Hidden /\ t_disabled btn = false).

Definition showsMines (mines : gset nat) (tiles : list Tile) : Prop :=
  length tiles = 25%nat /\
  forall i btn, tiles !! i = Some btn ->
    t_disabled btn = true /\
    (i ∈ mines -> t_class btn = MineTile) /\
    (i ∉ mines -> t_class btn = SafeTile).

(** The safe counter is right and in range, and a live round has between 1
    and 24 mines and room for its revealed tiles beside them. *)
Definition tallied (st : Game) : Prop :=
  countsSafeTiles st /\ (0 <= safeReveals st <= 24)%Z /\ liveRound st /\
  (roundActive st = true ->
     (1 <= size (minesSet st) <= 24)%nat /\
     (forall i, i ∈ revealed st -> (i < 25)%nat)).

(** A round with one mine and one safe tile revealed, and the fields changed
    to 24 mines while it runs (with the stand-in provider). *)
Definition oneMine : RoundInputs :=
  mkInputs 10 (Some 1%Z) 0 "client" (vreplicate 16 x2a) (vreplicate 32 x5a).

Definition manyMines : RoundInputs :=
  mkInputs 10 (Some 24%Z) 0 "client" (vreplicate 16 x2a) (vreplicate 32 x5a).

Definition cautiousRound : Game :=
  onTileClick 0 (@startRound sampleCrypto oneMine initialGame).

(** ** Keyboard focus and labels

    The roving tab index of the grid: [focusIndex] and the [tabIndex] of
    every tile.  The functions below take the tiles of the board (only
    [t_disabled] matters) and the value of [focusIndex] before the call. *)
Record Focus := mkFocus {
  focusIndex : nat;
  tabIndex : list Z
}.

(** The second loop of [applyRovingTabindex]: the first tile that is not
    disabled, counting from [i]. *)
Fixpoint firstEnabledFrom (i : nat) (tiles : list Tile) : option nat :=
  match tiles with
  | [] => None
  | t :: rest => if t_disabled t then firstEnabledFrom (S i) rest else Some i
  end.

Definition focusable (current i : nat) (t : Tile) : bool :=
  (i =? current)%nat && negb (t_disabled t).

Definition applyRovingTabindex (tiles : list Tile) (current : nat) : Focus :=
  let tabs := imap (fun i t => if focusable current i t then 0%Z else (-1)%Z) tiles in
  let hasFocusable := existsb id (imap (focusable current) tiles) in
  if hasFocusable then mkFocus current tabs
  else
    match firstEnabledFrom 0 tiles with
    | Some i => mkFocus i (<[i := 0%Z]> tabs)
    | None => mkFocus current tabs
    end.

(** [onGridKeydown]: [None] for a key that is not an arrow; otherwise the
    new focus state and the tile that receives the focus, if any. *)
Inductive Key := ArrowRight | ArrowLeft | ArrowDown | ArrowUp | OtherKey.

Definition arrowTarget (key : Key) (current : nat) : option nat :=
  let cols := 5%Z in
  let rows := 5%Z in
  let row := (Z.of_nat current / cols)%Z in
  let col := (Z.of_nat current mod cols)%Z in
  match key with
  | ArrowRight => Some (Z.to_nat (row * cols + Z.min (cols - 1) (col + 1)))
  | ArrowLeft => Some (Z.to_nat (row * cols + Z.max 0 (col - 1)))
  | ArrowDown => Some (Z.to_nat (Z.min (rows - 1) (row + 1) * cols + col))
  | ArrowUp => Some (Z.to_nat (Z.max 0 (row - 1) * cols + col))
  | OtherKey => None
  end.

Definition onGridKeydown (key : Key) (tiles : list Tile) (current : nat)
  : option (Focus * option nat) :=
  match arrowTarget key current with
  | None => None
  | Some next =>
      let f := applyRovingTabindex tiles next in
      Some (f, match tiles !! focusIndex f with
               | Some btn => if t_disabled btn then None else Some (focusIndex f)
               | None => None
               end)
  end.

(** [moveFocusToNextAvailable]: the loop over [fromIndex + 1 .. 24], then
    [applyRovingTabindex]. *)
Fixpoint nextAvailable (fuel i : nat) (tiles : list Tile) : option nat :=
  match fuel with
  | O => None
  | S fuel' =>
      match tiles !! i with
      | Some btn => if t_disabled btn then nextAvailable fuel' (S i) tiles else Some i
      | None => nextAvailable fuel' (S i) tiles
      end
  end.

Definition moveFocusToNextAvailable (fromIndex : nat) (tiles : list Tile)
    (current : nat) : Focus :=
  match nextAvailable (25 - (fromIndex + 1)) (fromIndex + 1) tiles with
  | Some i => applyRovingTabindex tiles i
  | None => applyRovingTabindex tiles current
  end.

(** A tile that is not disabled, and the first of them. *)
Definition enabledAt (tiles : list Tile) (i : nat) : Prop :=
  exists t, tiles !! i = Some t /\ t_disabled t = false.

Definition firstEnabled (tiles : list Tile) (i : nat) : Prop :=
  enabledAt tiles i /\ forall j, enabledAt tiles j -> (i <= j)%nat.


(** [tileAriaLabel]: the accessible name of a tile. *)
Definition tileAriaLabel (index : nat) (state : string) : string :=
  let row := (Z.of_nat index / 5 + 1)%Z in
  let col := (Z.of_nat index mod 5 + 1)%Z in
  let place := "Tile row " +:+ numberToString row +:+ " column " +:+ numberToString col in
  if String.eqb state "hidden" then place +:+ ", hidden"
  else if String.eqb state "safe" then place +:+ ", safe"
  else if String.eqb state "mine" then place +:+ ", mine"
  else place.

(** The four labels a tile can get, and the check that no two tiles of the
    board share any of them. *)
Definition labelsOf (index : nat) : list string :=
  map (tileAriaLabel index) ["hidden"; "safe"; "mine"; ""].

Definition labelTable : bool :=
  forallb (fun i =>
    forallb (fun j =>
      (i =? j)%nat ||
      forallb (fun a => forallb (fun b => negb (String.eqb a b)) (labelsOf j))
              (labelsOf i))
      (seq 0 25))
    (seq 0 25).

(** Where each arrow key leads from each tile of the board: one step in its
    direction, or nowhere at the edge. *)
Definition arrowTable : bool :=
  forallb (fun c =>
    let row := (c / 5)%nat in
    let col := (c mod 5)%nat in
    match arrowTarget ArrowRight c, arrowTarget ArrowLeft c,
          arrowTarget ArrowDown c, arrowTarget ArrowUp c with
    | Some r, Some l, Some d, Some u =>
        (r =? (if (col =? 4)%nat then c else c + 1))%nat &&
        (l =? (if (col =? 0)%nat then c else c - 1))%nat &&
        (d =? (if (row =? 4)%nat then c else c + 5))%nat &&
        (u =? (if (row =? 0)%nat then c else c - 5))%nat
    | _, _, _, _ => false
    end)
    (seq 0 25).

(** ** Binary64 values as rationals

    The value of a finite binary64 number, [m * 2 ^ e], as an exact
    rational; zeros, infinities and NaN are given 0. *)
Definition pow2 (e : Z) : Q := Qpower 2 e.

Definition SF2Q (x : spec_float) : Q :=
  match x with
  | S754_finite s m e =>
      if s then (- (inject_Z (Zpos m) * pow2 e))%Q else (inject_Z (Zpos m) * pow2 e)%Q
  | _ => 0%Q
  end.

Definition F2Q (x : float) : Q := SF2Q (Prim2SF x).

Definition positiveFinite (x : float) : bool :=
  match Prim2SF x with
  | S754_finite false _ _ => true
  | _ => false
  end.

(** Every probability the loop returns on the board, [1 <= mines <= 24] and
    [1 <= r <= 25 - mines], is a positive finite number, at least [2 ^ -30]
    and at most [(25 - mines) / 25 + 1 / 25000], and each further pick takes
    it below 49/50 of what it was. *)
Definition probabilityShapeTable : bool :=
  forallb (fun mines =>
    forallb (fun r =>
      let p := probabilitySafePicks r mines 25 in
      positiveFinite p && negb (p <=? 0)%float &&
      Qle_bool (pow2 (-30)) (F2Q p) &&
      Qle_bool (F2Q p * 25000) (inject_Z (25001 - 1000 * mines)))
      (zrange 1 (Z.to_nat (25 - mines))))
    (zrange 1 24).

Definition probabilityGapTable : bool :=
  forallb (fun mines =>
    forallb (fun r1 =>
      forallb (fun r2 =>
        Qle_bool (F2Q (probabilitySafePicks r2 mines 25) * 50)
                 (F2Q (probabilitySafePicks r1 mines 25) * 49))
        (zrange (r1 + 1) (Z.to_nat (25 - mines - r1))))
      (zrange 1 (Z.to_nat (25 - mines))))
    (zrange 1 24).

(** With more mines the probability of the same number of picks is below
    49/50 of what it was. *)
Definition probabilityMinesTable : bool :=
  forallb (fun m1 => forallb (fun m2 => forallb (fun r =>
        Qle_bool (F2Q (probabilitySafePicks r m2 25) * 50)
                 (F2Q (probabilitySafePicks r m1 25) * 49))
        (zrange 1 (Z.to_nat (25 - m2))))
      (zrange (m1 + 1) (Z.to_nat (24 - m1)))) (zrange 1 24).

(** * Properties *)

(** ** Hexadecimal round trip *)

Lemma byteHex_shape (b : byte) :
  exists c1 c2, byteHex b = String c1 (String c2 EmptyString).
Proof. destruct b; do 2 eexists; reflexivity. Qed.

Lemma byteHex_parse (b : byte) : toUint8 (parseInt16 (byteHex b)) = b.
Proof. destruct b; reflexivity. Qed.

Lemma half_SS (n : nat) : (S (S n) / 2 = S (n / 2))%nat.
Proof.
  change (S (S n)) with (1 * 2 + n)%nat.
  rewrite Nat.div_add_l by lia. reflexivity.
Qed.

Lemma hexToBytes_cons (b : byte) (s : string) :
  hexToBytes (byteHex b +:+ s) = b :: hexToBytes s.
Proof.
  destruct (byteHex_shape b) as (c1 & c2 & Hb).
  pose proof (byteHex_parse b) as Hp. rewrite Hb in Hp |- *.
  unfold hexToBytes.
  change (String c1 (String c2 EmptyString) +:+ s) with (String c1 (String c2 s)).
  change (String.length (String c1 (String c2 s))) with (S (S (String.length s))).
  rewrite half_SS. cbn [seq map].
  f_equal.
  - cbn [Nat.mul substring]. destruct s; exact Hp.
  - rewrite <- seq_shift, map_map. apply map_ext. intros i.
    reflexivity.
Qed.

Lemma hexToBytes_bufToHex (buf : list byte) : hexToBytes (bufToHex buf) = buf.
Proof.
  induction buf as [|b rest IH]; [reflexivity|].
  cbn [bufToHex]. rewrite hexToBytes_cons, IH. reflexivity.
Qed.

Lemma bufToHex_inj (a b : list byte) : bufToHex a = bufToHex b -> a = b.
Proof.
  intros E. rewrite <- (hexToBytes_bufToHex a), <- (hexToBytes_bufToHex b).
  now rewrite E.
Qed.

(** ** The keystream *)

Lemma byteZ_range (b : byte) : (0 <= byteZ b < 256)%Z.
Proof. unfold byteZ. pose proof (Byte.to_N_bounded b). lia. Qed.

Lemma getUint32_range (b0 b1 b2 b3 : byte) :
  (0 <= getUint32 b0 b1 b2 b3 < 4294967296)%Z.
Proof.
  unfold getUint32.
  pose proof (byteZ_range b0). pose proof (byteZ_range b1).
  pose proof (byteZ_range b2). pose proof (byteZ_range b3). lia.
Qed.

Lemma unitFloat_word (b0 b1 b2 b3 : byte) :
  unitFloat [b0; b1; b2; b3]
  = (inject_Z (getUint32 b0 b1 b2 b3) / inject_Z 4294967296)%Q.
Proof.
  unfold unitFloat, bigEndian, getUint32. cbn [fold_left].
  change (2 ^ 32)%Z with 4294967296%Z.
  replace (0 * 256 + byteZ b0)%Z with (byteZ b0) by lia. reflexivity.
Qed.

Lemma unit_range (v : Z) :
  (0 <= v < 4294967296)%Z ->
  (0 <= inject_Z v / inject_Z 4294967296)%Q /\
  (inject_Z v / inject_Z 4294967296 < 1)%Q.
Proof.
  intros Hv. unfold Qdiv.
  change (/ inject_Z 4294967296)%Q with (1 # 4294967296)%Q.
  unfold Qle, Qlt, Qmult, inject_Z. cbn [Qnum Qden]. lia.
Qed.

Lemma unitFloat_range (b0 b1 b2 b3 : byte) :
  (0 <= unitFloat [b0; b1; b2; b3])%Q /\ (unitFloat [b0; b1; b2; b3] < 1)%Q.
Proof. rewrite unitFloat_word. apply unit_range, getUint32_range. Qed.

(** [Math.floor(r * (i + 1))] stays inside [0..i] for a float in [0,1). *)
Lemma shuffle_index_range (r : Q) (i : nat) :
  (0 <= r)%Q -> (r < 1)%Q -> (pickIndex r i <= i)%nat.
Proof.
  intros H0 H1. unfold pickIndex.
  set (m := inject_Z (Z.of_nat i + 1)).
  assert (Hm : (0 < m)%Q).
  { unfold m. change 0%Q with (inject_Z 0). rewrite <- Zlt_Qlt. lia. }
  assert (Hlt : (r * m < m)%Q).
  { assert (Hlt : (r * m < 1 * m)%Q) by (apply Qmult_lt_compat_r; assumption).
    now rewrite Qmult_1_l in Hlt. }
  pose proof (Qfloor_le (r * m)) as Hfl.
  assert (Hz : (Qfloor (r * m) < Z.of_nat i + 1)%Z).
  { rewrite Zlt_Qlt. fold m. eapply Qle_lt_trans; eassumption. }
  lia.
Qed.

Section KeystreamFacts.
Context `{WebCrypto}.

Lemma macBlock_length s c n k : length (macBlock s c n k) = 32%nat.
Proof. unfold macBlock. apply length_vec_to_list. Qed.

Lemma refill_spec s c n cnt buf :
  refill (mkKeystream s c n cnt buf)
  = mkKeystream s c n (S cnt) (macBlock s c n cnt).
Proof.
  unfold refill. cbn [ks_serverSeed ks_clientSeed ks_nonce ks_counter].
  unfold hmacSHA256Hex. rewrite hexToBytes_bufToHex. reflexivity.
Qed.

Lemma nextFloat_buffered s c n cnt buf :
  (4 <= length buf)%nat ->
  nextFloat (mkKeystream s c n cnt buf)
  = Some (unitFloat (take 4 buf), mkKeystream s c n cnt (drop 4 buf)).
Proof.
  intros Hlen. unfold nextFloat. cbn [ks_buffer].
  destruct (Nat.ltb_spec (length buf) 4) as [Hlt|_]; [lia|].
  destruct buf as [|b0 [|b1 [|b2 [|b3 rest]]]]; cbn in Hlen; try lia.
  cbn. rewrite unitFloat_word. reflexivity.
Qed.

(** One call of [nextFloat], in full: with fewer than four bytes buffered the
    next MAC block replaces the buffer and the block counter moves on; the
    float is the first four bytes of the buffer, which are consumed. *)
Lemma nextFloat_spec s c n cnt buf :
  nextFloat (mkKeystream s c n cnt buf)
  = if (length buf <? 4)%nat
    then Some (unitFloat (take 4 (macBlock s c n cnt)),
               mkKeystream s c n (S cnt) (drop 4 (macBlock s c n cnt)))
    else Some (unitFloat (take 4 buf), mkKeystream s c n cnt (drop 4 buf)).
Proof.
  destruct (Nat.ltb_spec (length buf) 4) as [Hlt|Hge].
  - rewrite <- (nextFloat_buffered s c n (S cnt) (macBlock s c n cnt))
      by (rewrite macBlock_length; lia).
    unfold nextFloat at 1. cbn [ks_buffer].
    destruct (Nat.ltb_spec (length buf) 4) as [_|?]; [|lia].
    rewrite refill_spec. unfold nextFloat. cbn [ks_buffer].
    rewrite macBlock_length. reflexivity.
  - apply nextFloat_buffered. exact Hge.
Qed.

Lemma nextFloat_total (ks : KeystreamObj) : is_Some (nextFloat ks).
Proof.
  destruct ks as [s c n cnt buf]. rewrite nextFloat_spec.
  destruct (length buf <? 4)%nat; eauto.
Qed.

Lemma take4_word (l : list byte) :
  (4 <= length l)%nat -> exists b0 b1 b2 b3, take 4 l = [b0; b1; b2; b3].
Proof.
  intros Hl. destruct l as [|b0 [|b1 [|b2 [|b3 rest]]]]; cbn in Hl; try lia.
  now exists b0, b1, b2, b3.
Qed.

Lemma nextFloat_range (ks ks' : KeystreamObj) (r : Q) :
  nextFloat ks = Some (r, ks') -> (0 <= r)%Q /\ (r < 1)%Q.
Proof.
  destruct ks as [s c n cnt buf]. rewrite nextFloat_spec.
  destruct (Nat.ltb_spec (length buf) 4) as [Hlt|Hge]; intros [= <- _].
  - destruct (take4_word (macBlock s c n cnt)) as (b0 & b1 & b2 & b3 & ->).
    { rewrite macBlock_length. lia. }
    apply unitFloat_range.
  - destruct (take4_word buf Hge) as (b0 & b1 & b2 & b3 & ->).
    apply unitFloat_range.
Qed.

End KeystreamFacts.

(** ** The shuffle *)

Lemma swap_exchange (arr : list nat) (i j : nat) : swap arr i j = exchange arr i j.
Proof.
  unfold swap, exchange.
  destruct (arr !! i) as [ai|] eqn:Hi, (arr !! j) as [aj|] eqn:Hj; try reflexivity.
  destruct (decide (i = j)) as [->|Hne].
  - congruence.
  - apply list_insert_insert_ne. congruence.
Qed.

Lemma swap_Permutation (arr : list nat) (i j : nat) : swap arr i j ≡ₚ arr.
Proof.
  unfold swap.
  destruct (arr !! j) as [aj|] eqn:Hj, (arr !! i) as [ai|] eqn:Hi; try reflexivity.
  eapply Permutation_insert_swap; eassumption.
Qed.

Section ShuffleFacts.
Context `{WebCrypto}.

Lemma nextFloat_afterDraws s c n k :
  nextFloat (afterDraws s c n k)
  = Some (streamFloat s c n k, afterDraws s c n (S k)).
Proof.
  destruct k as [|k'].
  - unfold afterDraws, Keystream. rewrite nextFloat_spec. reflexivity.
  - unfold afterDraws, streamFloat. rewrite nextFloat_spec.
    rewrite length_drop, macBlock_length.
    pose proof (Nat.div_mod_eq k' 8) as Hk.
    pose proof (Nat.mod_upper_bound k' 8 ltac:(lia)) as Hm.
    pose proof (Nat.div_mod_eq (S k') 8) as Hk1.
    pose proof (Nat.mod_upper_bound (S k') 8 ltac:(lia)) as Hm1.
    destruct (Nat.ltb_spec (32 - (4 * (k' mod 8) + 4)) 4) as [Hlt|Hge].
    + assert (Hq : (S k' / 8 = S (k' / 8))%nat) by lia.
      assert (Hr : (S k' mod 8 = 0)%nat) by lia.
      rewrite Hq, Hr. reflexivity.
    + assert (Hq : (S k' / 8 = k' / 8)%nat) by lia.
      assert (Hr : (S k' mod 8 = S (k' mod 8))%nat) by lia.
      rewrite Hq, Hr, drop_drop.
      replace (4 * S (k' mod 8))%nat with (4 * (k' mod 8) + 4)%nat by lia.
      reflexivity.
Qed.

Lemma drawFloats_from (s c : string) (n : Z) (k j : nat) :
  drawFloats k (afterDraws s c n j)
  = Some (map (streamFloat s c n) (seq j k), afterDraws s c n (j + k)).
Proof.
  revert j. induction k as [|k IH]; intros j.
  - cbn. rewrite Nat.add_0_r. reflexivity.
  - cbn [drawFloats]. rewrite nextFloat_afterDraws. cbn [mbind option_bind].
    rewrite IH. replace (S j + k)%nat with (j + S k)%nat by lia. reflexivity.
Qed.

Lemma drawFloats_total (k : nat) (ks : KeystreamObj) : is_Some (drawFloats k ks).
Proof.
  revert ks. induction k as [|k IH]; intros ks; [cbn; eauto|].
  cbn [drawFloats]. destruct (nextFloat_total ks) as [[r ks1] ->].
  cbn. destruct (IH ks1) as [[rs ks2] ->]. cbn. eauto.
Qed.

(** The loop of [shuffleDeterministic] is Fisher-Yates over the floats it
    draws, in the order it draws them. *)
Lemma shuffleLoop_fisherYates (i : nat) (arr : list nat) (ks : KeystreamObj) :
  shuffleLoop i arr ks
  = '(floats, ks') ← drawFloats i ks; Some (fisherYatesFrom i arr floats, ks').
Proof.
  revert arr ks. induction i as [|i IH]; intros arr ks; [reflexivity|].
  cbn [shuffleLoop drawFloats].
  destruct (nextFloat ks) as [[r ks1]|]; [|reflexivity].
  cbn. rewrite IH.
  destruct (drawFloats i ks1) as [[rs ks2]|]; [|reflexivity].
  cbn. unfold pickIndex. rewrite swap_exchange. reflexivity.
Qed.

Lemma shuffleLoop_Permutation (i : nat) (arr : list nat) (ks : KeystreamObj) :
  exists arr' ks', shuffleLoop i arr ks = Some (arr', ks') /\ arr' ≡ₚ arr.
Proof.
  revert arr ks. induction i as [|i IH]; intros arr ks.
  - exists arr, ks. split; reflexivity.
  - cbn [shuffleLoop]. destruct (nextFloat_total ks) as [[r ks1] ->]. cbn.
    destruct (IH (swap arr (S i) (pickIndex r (S i))) ks1) as (arr' & ks' & -> & Hp).
    exists arr', ks'. split; [reflexivity|].
    rewrite Hp. apply swap_Permutation.
Qed.

(** The order a fresh keystream gives: Fisher-Yates over the first [n - 1]
    floats of the block stream. *)
Lemma shuffleDeterministic_fresh (n' : nat) (s c : string) (n : Z) :
  shuffleDeterministic n' (Keystream s c n)
  = Some (fisherYates n' (map (streamFloat s c n) (seq 0 (n' - 1))),
          afterDraws s c n (n' - 1)).
Proof.
  unfold shuffleDeterministic. rewrite shuffleLoop_fisherYates.
  change (Keystream s c n) with (afterDraws s c n 0).
  rewrite drawFloats_from. reflexivity.
Qed.

End ShuffleFacts.

(** ** Claims about the derivation of the mine set *)

(** C7. Every float the keystream yields is the next four bytes of the
    HMAC-SHA-256(serverSeed, clientSeed:nonce:blockCounter) block stream read
    as a big-endian unsigned 32-bit integer and divided by 2^32, so it lies in
    [0,1); the buffer is replaced by a new MAC block, and the block counter
    incremented, exactly when fewer than four bytes remain; from a fresh
    keystream float [k] is word [k mod 8] of block [k / 8]; and
    [shuffleDeterministic] is Fisher-Yates from the end over the floats it
    draws, in order: for [i] from [n - 1] down to 1, [j = floor (f * (i + 1))],
    exchange positions [i] and [j].  It always returns. *)
Theorem keystream_shuffle_contract `{WebCrypto} :
  (forall s c n cnt buf,
      nextFloat (mkKeystream s c n cnt buf)
      = if (length buf <? 4)%nat
        then Some (unitFloat (take 4 (macBlock s c n cnt)),
                   mkKeystream s c n (S cnt) (drop 4 (macBlock s c n cnt)))
        else Some (unitFloat (take 4 buf), mkKeystream s c n cnt (drop 4 buf))) /\
  (forall ks r ks', nextFloat ks = Some (r, ks') -> (0 <= r)%Q /\ (r < 1)%Q) /\
  (forall s c n k,
      drawFloats k (Keystream s c n)
      = Some (map (streamFloat s c n) (seq 0 k), afterDraws s c n k)) /\
  (forall n ks,
      shuffleDeterministic n ks
      = '(floats, ks') ← drawFloats (n - 1) ks; Some (fisherYates n floats, ks')) /\
  (forall n ks, is_Some (shuffleDeterministic n ks)).
Proof.
  repeat split.
  - apply nextFloat_spec.
  - eapply nextFloat_range; eassumption.
  - eapply nextFloat_range; eassumption.
  - intros s c n k. apply (drawFloats_from s c n k 0).
  - intros n ks. apply shuffleLoop_fisherYates.
  - intros n ks. unfold shuffleDeterministic.
    destruct (shuffleLoop_Permutation (n - 1) (seq 0 n) ks) as (arr & ks' & -> & _).
    eauto.
Qed.

Lemma keystream_shuffle_contract_witness :
  let ks := @Keystream "5eed" "client" 1 in
  exists r ks', @nextFloat sampleCrypto ks = Some (r, ks') /\ (0 <= r)%Q /\ (r < 1)%Q.
Proof.
  intros ks.
  destruct (@nextFloat sampleCrypto ks) as [[r ks']|] eqn:E; [|discriminate E].
  exists r, ks'. split; [reflexivity|].
  exact (proj1 (proj2 (@keystream_shuffle_contract sampleCrypto)) ks r ks' E).
Defined.

(** The first [k] entries of any order the shuffle returns. *)
Lemma hazard_set_facts `{WebCrypto} (k : Z) (ks : KeystreamObj) :
  exists order ks',
    shuffleDeterministic 25 ks = Some (order, ks') /\
    order ≡ₚ seq 0 25 /\
    NoDup (slice0 order k) /\
    ((0 <= k <= 25)%Z ->
       size (list_to_set (slice0 order k) : gset nat) = Z.to_nat k) /\
    forall x, x ∈ (list_to_set (slice0 order k) : gset nat) -> (0 <= x <= 24)%nat.
Proof.
  unfold shuffleDeterministic.
  destruct (shuffleLoop_Permutation (25 - 1) (seq 0 25) ks) as (order & ks' & E & Hp).
  exists order, ks'. split; [exact E|]. split; [exact Hp|].
  assert (Hnd : NoDup order) by (rewrite Hp; apply NoDup_seq).
  assert (Hlen : length order = 25%nat) by (rewrite Hp; apply length_seq).
  assert (Htake : forall n, NoDup (take n order)).
  { intros n. rewrite <- (take_drop n order) in Hnd.
    apply NoDup_app in Hnd. tauto. }
  assert (Hsub : slice0 order k ⊆ order).
  { unfold slice0. destruct (k <? 0)%Z; apply subseteq_take. }
  assert (Hnd' : NoDup (slice0 order k)).
  { unfold slice0. destruct (k <? 0)%Z; apply Htake. }
  split; [exact Hnd'|]. split.
  - intros Hk. rewrite size_list_to_set by exact Hnd'. unfold slice0.
    destruct (Z.ltb_spec k 0); [lia|]. rewrite length_take. lia.
  - intros x Hx. apply elem_of_list_to_set, Hsub in Hx.
    rewrite Hp in Hx. apply elem_of_seq in Hx. lia.
Qed.

Lemma clampMines_range (m : option Z) : (1 <= clampMines m <= 24)%Z.
Proof. unfold clampMines. lia. Qed.

(** What a round start that went through has set up. *)
Lemma startRound_started `{WebCrypto} (inp : RoundInputs) (st : Game) :
  roundActive st = false -> roundActive (startRound inp st) = true ->
  exists s c ks,
    serverSeed (startRound inp st) = Some s /\
    clientSeed (startRound inp st) = Some c /\
    nonce (startRound inp st) = (nonce st + 1)%Z /\
    minesCount (startRound inp st) = clampMines (in_mines inp) /\
    deriveMines s c (nonce (startRound inp st)) (minesCount (startRound inp st))
    = Some (minesSet (startRound inp st), ks).
Proof.
  intros Ha. unfold startRound. rewrite Ha.
  destruct (balance (clampInputs inp st) <? in_bet inp)%float.
  { cbn. congruence. }
  destruct (deriveMines _ _ _ _) as [[mines ks]|] eqn:E; cbn; [intros _|congruence].
  do 3 eexists. repeat split. exact E.
Qed.

(** C2. For every hazardCount in [1,24] and every keystream,
    [shuffleDeterministic(25, keystream)] returns a permutation of 0..24, and
    the mine set made of its first hazardCount elements has exactly
    hazardCount distinct elements, all in [0,24]; so has the mine set of
    every round [startRound] starts, whose mine count is in [1,24]. *)
Theorem hazard_set_wellformed `{WebCrypto} :
  (forall (hazardCount : Z) (ks : KeystreamObj),
      (1 <= hazardCount <= 24)%Z ->
      exists order ks',
        shuffleDeterministic 25 ks = Some (order, ks') /\
        order ≡ₚ seq 0 25 /\
        NoDup (slice0 order hazardCount) /\
        size (list_to_set (slice0 order hazardCount) : gset nat)
        = Z.to_nat hazardCount /\
        forall x, x ∈ (list_to_set (slice0 order hazardCount) : gset nat) ->
                  (0 <= x <= 24)%nat) /\
  (forall (inp : RoundInputs) (st : Game),
      roundActive st = false -> roundActive (startRound inp st) = true ->
      (1 <= minesCount (startRound inp st) <= 24)%Z /\
      size (minesSet (startRound inp st)) = Z.to_nat (minesCount (startRound inp st)) /\
      forall x, x ∈ minesSet (startRound inp st) -> (0 <= x <= 24)%nat).
Proof.
  split.
  - intros hazardCount ks Hk.
    destruct (hazard_set_facts hazardCount ks) as (order & ks' & E & Hp & Hnd & Hs & Hr).
    exists order, ks'. repeat split; try assumption; try (apply Hr; assumption).
    apply Hs. lia.
  - intros inp st Ha Hon.
    destruct (startRound_started inp st Ha Hon) as (s & c & ks & _ & _ & _ & Hm & E).
    pose proof (clampMines_range (in_mines inp)) as Hrange. rewrite <- Hm in Hrange.
    split; [exact Hrange|].
    unfold deriveMines in E.
    destruct (hazard_set_facts (minesCount (startRound inp st))
                (Keystream s c (nonce (startRound inp st))))
      as (order & ks' & E' & _ & _ & Hs & Hr).
    rewrite E' in E. cbn in E. injection E as E _. rewrite <- E.
    split; [apply Hs; lia|exact Hr].
Qed.

Lemma hazard_set_wellformed_witness :
  (exists order ks',
    @shuffleDeterministic sampleCrypto 25 (Keystream "5eed" "client" 1) = Some (order, ks') /\
    order ≡ₚ seq 0 25 /\
    NoDup (slice0 order 3) /\
    size (list_to_set (slice0 order 3) : gset nat) = 3%nat /\
    forall x, x ∈ (list_to_set (slice0 order 3) : gset nat) -> (0 <= x <= 24)%nat) /\
  size (minesSet (@startRound sampleCrypto sampleInputs initialGame)) = 3%nat.
Proof.
  destruct (@hazard_set_wellformed sampleCrypto) as [Hany Hround].
  split.
  - apply (Hany 3%Z (Keystream "5eed" "client" 1)). lia.
  - assert (Hstart : roundActive (@startRound sampleCrypto sampleInputs initialGame) = true)
      by (vm_compute; reflexivity).
    destruct (Hround sampleInputs initialGame eq_refl Hstart) as (_ & Hs & _).
    rewrite Hs. vm_compute. reflexivity.
Defined.

(** C1. The permutation is a function of (serverSeed, clientSeed, nonce)
    alone: two independent runs of
    [shuffleDeterministic(25, Keystream(serverSeed, clientSeed, nonce))] on
    identical inputs return the same order, namely Fisher-Yates over the first
    24 floats of the block stream of those three inputs, and hence the same
    mine set for every mine count.  Two rounds started from any two states of
    the game with the same seeds, nonce and mine count have the same mines. *)
Theorem shuffle_deterministic `{WebCrypto} :
  (forall (s1 c1 s2 c2 : string) (n1 n2 : Z),
      s1 = s2 -> c1 = c2 -> n1 = n2 ->
      exists order,
        order = fisherYates 25 (map (streamFloat s1 c1 n1) (seq 0 24)) /\
        fst <$> shuffleDeterministic 25 (Keystream s1 c1 n1) = Some order /\
        fst <$> shuffleDeterministic 25 (Keystream s2 c2 n2) = Some order /\
        forall minesCount,
          fst <$> deriveMines s1 c1 n1 minesCount
          = Some (list_to_set (slice0 order minesCount)) /\
          fst <$> deriveMines s2 c2 n2 minesCount
          = Some (list_to_set (slice0 order minesCount))) /\
  (forall (inpA inpB : RoundInputs) (stA stB : Game),
      roundActive stA = false -> roundActive stB = false ->
      roundActive (startRound inpA stA) = true ->
      roundActive (startRound inpB stB) = true ->
      serverSeed (startRound inpA stA) = serverSeed (startRound inpB stB) ->
      clientSeed (startRound inpA stA) = clientSeed (startRound inpB stB) ->
      nonce (startRound inpA stA) = nonce (startRound inpB stB) ->
      minesCount (startRound inpA stA) = minesCount (startRound inpB stB) ->
      minesSet (startRound inpA stA) = minesSet (startRound inpB stB)).
Proof.
  split.
  - intros s1 c1 s2 c2 n1 n2 <- <- <-. eexists. split; [reflexivity|].
    unfold deriveMines. rewrite shuffleDeterministic_fresh. cbn. auto.
  - intros inpA inpB stA stB HA HB HonA HonB Hs Hc Hn Hk.
    destruct (startRound_started inpA stA HA HonA) as (sA & cA & ksA & HsA & HcA & _ & _ & EA).
    destruct (startRound_started inpB stB HB HonB) as (sB & cB & ksB & HsB & HcB & _ & _ & EB).
    rewrite HsA, HsB in Hs. rewrite HcA, HcB in Hc.
    injection Hs as ->. injection Hc as ->.
    rewrite Hn, Hk, EB in EA. now injection EA.
Qed.

Lemma shuffle_deterministic_witness :
  (exists order,
    order = fisherYates 25 (map (@streamFloat sampleCrypto "5eed" "client" 1) (seq 0 24)) /\
    fst <$> @shuffleDeterministic sampleCrypto 25 (Keystream "5eed" "client" 1) = Some order /\
    fst <$> @shuffleDeterministic sampleCrypto 25 (Keystream "5eed" "client" 1) = Some order /\
    forall minesCount,
      fst <$> @deriveMines sampleCrypto "5eed" "client" 1 minesCount
      = Some (list_to_set (slice0 order minesCount)) /\
      fst <$> @deriveMines sampleCrypto "5eed" "client" 1 minesCount
      = Some (list_to_set (slice0 order minesCount))) /\
  minesSet (@startRound sampleCrypto sampleInputs initialGame)
  = minesSet (@startRound sampleCrypto sampleInputs richGame).
Proof.
  destruct (@shuffle_deterministic sampleCrypto) as [Hruns Hrounds].
  split.
  - apply (Hruns "5eed" "client" "5eed" "client" 1%Z 1%Z); reflexivity.
  - apply Hrounds; vm_compute; reflexivity.
Defined.

(** ** The probability of [r] safe picks *)

Lemma safePicksLoop_exhausted (fuel : nat) (mines total : Z) (a : nat) (prob : float) :
  (exists k, (a <= k < a + fuel)%nat /\ (total - mines - Z.of_nat k <= 0)%Z) ->
  safePicksLoop fuel mines total (Z.of_nat a) prob = 0%float.
Proof.
  revert a prob. induction fuel as [|fuel IH]; intros a prob (k & Hk & Hle); [lia|].
  cbn [safePicksLoop].
  destruct (Z.leb_spec (total - mines - Z.of_nat a) 0) as [_|Hpos]; [reflexivity|].
  replace (Z.of_nat a + 1)%Z with (Z.of_nat (S a)) by lia.
  apply IH. exists k. split; [|exact Hle].
  assert (k <> a) by (intros ->; lia). lia.
Qed.




(** The scenarios of the specification. *)
Example scenario_three_mines :
  probabilitySafePicks 0 3 25 = 1%float /\
  payoutMultiplier 0 3 3 = 1%float /\
  probabilitySafePicks 1 3 25 = 0.88%float /\
  payoutMultiplier 1 3 0 = 1.1363636363636365%float /\
  payoutMultiplier 1 3 3 = 1.1022727272727273%float.
Proof. repeat split; vm_compute; reflexivity. Qed.

Example scenario_twenty_four_mines :
  probabilitySafePicks 1 24 25 = 0.04%float /\
  payoutMultiplier 1 24 0 = 25%float.
Proof. repeat split; vm_compute; reflexivity. Qed.

(** ** Order facts about binary64 comparisons *)

Lemma SFcompare_antisym (a b : spec_float) :
  SFcompare b a = option_map CompOpp (SFcompare a b).
Proof.
  destruct a as [sa|sa| |sa ma ea], b as [sb|sb| |sb mb eb];
    try destruct sa; try destruct sb; try reflexivity; cbn;
    rewrite (Z.compare_antisym ea eb);
    destruct (ea ?= eb)%Z; cbn; try reflexivity;
    rewrite (Pos.compare_cont_antisym ma mb Eq); cbn;
    destruct (Pos.compare_cont Eq mb ma); reflexivity.
Qed.

Lemma SFcompare_nan (a b : spec_float) :
  SFcompare a b = None -> a = S754_nan \/ b = S754_nan.
Proof.
  destruct a as [sa|sa| |sa ma ea], b as [sb|sb| |sb mb eb];
    try destruct sa; try destruct sb; cbn; intros E; try discriminate E; auto.
Qed.

Lemma is_nan_spec (a : float) : is_nan a = true <-> Prim2SF a = S754_nan.
Proof.
  unfold is_nan. rewrite FloatAxioms.eqb_spec. unfold SFeqb.
  destruct (SFcompare (Prim2SF a) (Prim2SF a)) as [c|] eqn:E.
  - split.
    + intros Hn. exfalso.
      pose proof (SFcompare_antisym (Prim2SF a) (Prim2SF a)) as Ha.
      rewrite E in Ha. cbn in Ha. destruct c; cbn in *; congruence.
    + intros Hn. rewrite Hn in E. discriminate E.
  - split; [|reflexivity]. intros _.
    destruct (SFcompare_nan _ _ E); assumption.
Qed.

Lemma float_compare_cases (a b : float) :
  is_nan a = false -> is_nan b = false ->
  exists c, SFcompare (Prim2SF a) (Prim2SF b) = Some c /\
            SFcompare (Prim2SF b) (Prim2SF a) = Some (CompOpp c).
Proof.
  intros Ha Hb.
  destruct (SFcompare (Prim2SF a) (Prim2SF b)) as [c|] eqn:E.
  - exists c. split; [reflexivity|]. rewrite SFcompare_antisym, E. reflexivity.
  - destruct (SFcompare_nan _ _ E) as [Hn|Hn]; apply is_nan_spec in Hn; congruence.
Qed.

Lemma float_ltb_leb (a b : float) : (a <? b)%float = true -> (a <=? b)%float = true.
Proof.
  rewrite ltb_spec, leb_spec. unfold SFltb, SFleb.
  destruct (SFcompare (Prim2SF a) (Prim2SF b)) as [[]|]; congruence.
Qed.

Lemma float_eqb_leb (a b : float) : (a =? b)%float = true -> (a <=? b)%float = true.
Proof.
  rewrite FloatAxioms.eqb_spec, leb_spec. unfold SFeqb, SFleb.
  destruct (SFcompare (Prim2SF a) (Prim2SF b)) as [[]|]; congruence.
Qed.

Lemma float_ltb_not_nan (a b : float) :
  (a <? b)%float = true -> is_nan a = false /\ is_nan b = false.
Proof.
  rewrite ltb_spec. unfold SFltb. intros Hlt.
  split; apply Bool.not_true_is_false; intros Hn; apply is_nan_spec in Hn;
    rewrite Hn in Hlt.
  - discriminate Hlt.
  - destruct (Prim2SF a); discriminate Hlt.
Qed.

Lemma float_ltb_antisym (a b : float) :
  (a <? b)%float = true -> (b <=? a)%float = false.
Proof.
  intros Hlt. destruct (float_ltb_not_nan _ _ Hlt) as [Ha Hb].
  destruct (float_compare_cases a b Ha Hb) as (c & E1 & E2).
  rewrite ltb_spec in Hlt. rewrite leb_spec. unfold SFltb, SFleb in *.
  rewrite E1 in Hlt. rewrite E2. destruct c; cbn; congruence.
Qed.

Lemma float_trichotomy (a b : float) :
  is_nan a = false -> is_nan b = false ->
  (a <? b)%float = false -> (b <? a)%float = false -> (a =? b)%float = true.
Proof.
  intros Ha Hb. destruct (float_compare_cases a b Ha Hb) as (c & E1 & E2).
  rewrite !ltb_spec, FloatAxioms.eqb_spec. unfold SFltb, SFeqb.
  rewrite E1, E2. destruct c; cbn; congruence.
Qed.

Lemma float_leb_cases (a b : float) :
  (a <=? b)%float = true -> (a <? b)%float = true \/ (a =? b)%float = true.
Proof.
  rewrite ltb_spec, leb_spec, FloatAxioms.eqb_spec. unfold SFltb, SFleb, SFeqb.
  destruct (SFcompare (Prim2SF a) (Prim2SF b)) as [[]|]; auto.
Qed.

(** ** The house edge is a clamp *)

Lemma float_leb_refl (a : float) : is_nan a = false -> (a <=? a)%float = true.
Proof.
  intros Ha. apply float_eqb_leb. unfold is_nan in Ha.
  now apply Bool.negb_false_iff in Ha.
Qed.

Lemma float_ltb_flip (a b : float) :
  (a <? b)%float = true -> (b <? a)%float = false.
Proof.
  intros Hlt. apply float_ltb_antisym in Hlt.
  destruct (b <? a)%float eqn:E; [|reflexivity].
  apply float_ltb_leb in E. congruence.
Qed.

Lemma float_leb_flip (a b : float) :
  (a <=? b)%float = true -> (b <? a)%float = false.
Proof.
  intros Hle. destruct (b <? a)%float eqn:E; [|reflexivity].
  apply float_ltb_antisym in E. congruence.
Qed.

(** Below zero is not above 0.99: the one step that needs two constants. *)
Lemma negative_not_above (x : float) :
  (x <? 0)%float = true -> (lit_0_99 <? x)%float = false.
Proof.
  rewrite !ltb_spec. unfold SFltb.
  change (Prim2SF 0) with (S754_zero false).
  destruct (Prim2SF x) as [s|s| |s m e]; try destruct s; cbn; try discriminate;
    reflexivity.
Qed.

Lemma Math_min_cases (x : float) :
  is_nan x = false ->
  (Math_min lit_0_99 x = lit_0_99 /\ (lit_0_99 <? x)%float = true) \/
  (Math_min lit_0_99 x = x /\ (x <=? lit_0_99)%float = true).
Proof.
  intros Hx. unfold Math_min. rewrite Hx.
  change (is_nan lit_0_99) with false. cbn [orb].
  destruct (lit_0_99 <? x)%float eqn:E1; [left; auto|].
  right. destruct (x <? lit_0_99)%float eqn:E2.
  - split; [reflexivity|]. now apply float_ltb_leb.
  - change (get_sign lit_0_99) with false. cbn. split; [reflexivity|].
    apply float_eqb_leb, float_trichotomy; auto.
Qed.

Lemma Math_max_cases (x : float) :
  is_nan x = false ->
  (Math_max 0 x = x /\ (0 <? x)%float = true) \/
  (Math_max 0 x = 0%float /\ (x <=? 0)%float = true).
Proof.
  intros Hx. unfold Math_max. rewrite Hx.
  change (is_nan 0) with false. cbn [orb].
  destruct (0 <? x)%float eqn:E1; [left; auto|].
  right. destruct (x <? 0)%float eqn:E2.
  - split; [reflexivity|]. now apply float_ltb_leb.
  - change (get_sign 0) with false. cbn. split; [reflexivity|].
    apply float_eqb_leb, float_trichotomy; auto.
Qed.

(** [Math.max(0, Math.min(0.99, x))] on a number that is not NaN: inside
    [0, 0.99], equal to [x] when [x] is inside, and the nearer bound when it
    is outside. *)
Lemma houseEdge_clamp (e : float) :
  is_nan (e / 100) = false ->
  ((0 <=? houseEdge e)%float = true /\ (houseEdge e <=? lit_0_99)%float = true) /\
  ((0 <=? e / 100)%float = true -> (e / 100 <=? lit_0_99)%float = true ->
     (houseEdge e =? e / 100)%float = true) /\
  ((e / 100 <? 0)%float = true -> houseEdge e = 0%float) /\
  ((lit_0_99 <? e / 100)%float = true -> houseEdge e = lit_0_99).
Proof.
  unfold houseEdge. set (x := (e / 100)%float). intros Hx.
  assert (Hxx : (x =? x)%float = true).
  { unfold is_nan in Hx. now apply Bool.negb_false_iff in Hx. }
  destruct (Math_min_cases x Hx) as [[-> Hhi]|[-> Hle]].
  - (* above 0.99 *)
    change (Math_max 0 lit_0_99) with lit_0_99.
    repeat split; try reflexivity.
    + intros _ Hle. apply float_leb_flip in Hle. congruence.
    + intros Hneg. apply negative_not_above in Hneg. congruence.
  - destruct (Math_max_cases x Hx) as [[-> Hpos]|[-> Hnp]].
    + repeat split.
      * now apply float_ltb_leb.
      * exact Hle.
      * intros _ _. exact Hxx.
      * intros Hneg. apply float_ltb_flip in Hneg. congruence.
      * intros Hhi. apply float_ltb_antisym in Hhi. congruence.
    + repeat split; try reflexivity.
      * intros H0 _. destruct (float_leb_cases _ _ H0) as [Hlt|Heq]; [|exact Heq].
        apply float_ltb_antisym in Hlt. congruence.
      * intros Hhi. apply float_ltb_antisym in Hhi. congruence.
Qed.

(** ** The multiplier *)

Lemma In_zrange (a x : Z) (n : nat) :
  In x (zrange a n) <-> (a <= x < a + Z.of_nat n)%Z.
Proof.
  unfold zrange. rewrite in_map_iff. split.
  - intros (k & <- & Hk). apply in_seq in Hk. lia.
  - intros Hx. exists (Z.to_nat (x - a)). split; [lia|]. apply in_seq. lia.
Qed.

Lemma probabilityTable_ok : probabilityTable = true.
Proof. vm_compute. reflexivity. Qed.

Lemma fairMultiplierTable_ok : fairMultiplierTable = true.
Proof. vm_compute. reflexivity. Qed.

(** On the board ([0 <= mines]), a probability that is not short-circuited
    is positive and at most 1. *)
Lemma probability_in_unit_interval (r mines : Z) :
  (0 <= mines)%Z -> (1 <= r <= 25 - mines)%Z ->
  (0 <? probabilitySafePicks r mines 25)%float = true /\
  (probabilitySafePicks r mines 25 <=? 1)%float = true.
Proof.
  intros Hm Hr.
  assert (T : ltac:(let t := eval unfold probabilityTable in probabilityTable in
                    exact (t = true))) by (vm_compute; reflexivity).
  rewrite forallb_forall in T. specialize (T mines).
  rewrite forallb_forall in T.
  specialize (T ltac:(apply In_zrange; lia) r ltac:(apply In_zrange; lia)).
  cbv zeta in T. now apply andb_prop in T.
Qed.

Lemma probability_exhausted (r mines : Z) :
  (0 < r)%Z -> (25 - mines < r)%Z -> probabilitySafePicks r mines 25 = 0%float.
Proof.
  intros Hr Hlt. unfold probabilitySafePicks.
  destruct (Z.leb_spec r 0); [lia|].
  apply (safePicksLoop_exhausted _ _ _ 0).
  exists (Z.to_nat (Z.max 0 (25 - mines))). split; lia.
Qed.

(** With [0 <= mines] the guard [prob <= 0] fires exactly on the value 0. *)
Lemma probability_guard (r mines : Z) :
  (0 <= mines)%Z -> (0 < r)%Z ->
  (probabilitySafePicks r mines 25 <=? 0)%float
  = (probabilitySafePicks r mines 25 =? 0)%float.
Proof.
  intros Hm Hr. destruct (Z.lt_ge_cases (25 - mines) r) as [Hlt|Hge].
  - rewrite probability_exhausted by assumption. reflexivity.
  - destruct (probability_in_unit_interval r mines Hm ltac:(lia)) as [Hpos _].
    pose proof (float_ltb_antisym _ _ Hpos) as Hn. rewrite Hn.
    destruct (probabilitySafePicks r mines 25 =? 0)%float eqn:E; [|reflexivity].
    apply float_eqb_leb in E. congruence.
Qed.

(** C4, as stated, fails for a negative mine count: at [r = 27],
    [mines = -2] the product has passed through a division by zero and a
    negative step, the probability is -infinity (not 0), the quotient
    [(1 - edge) / prob] would be -0, and the code returns +infinity. *)
Lemma multiplier_contract_counterexample :
  probabilitySafePicks 27 (-2) 25 = neg_infinity /\
  (probabilitySafePicks 27 (-2) 25 =? 0)%float = false /\
  ((1 - houseEdge 0) / probabilitySafePicks 27 (-2) 25)%float = neg_zero /\
  payoutMultiplier 27 (-2) 0 = infinity /\
  ~ multiplier_contract 27 (-2) 0.
Proof.
  assert (Hp : probabilitySafePicks 27 (-2) 25 = neg_infinity)
    by (vm_compute; reflexivity).
  assert (Hm : payoutMultiplier 27 (-2) 0 = infinity) by (vm_compute; reflexivity).
  repeat split; try (vm_compute; reflexivity).
  intros (_ & _ & H3). specialize (H3 ltac:(lia) ltac:(vm_compute; reflexivity)).
  rewrite Hm in H3. apply (f_equal classify) in H3. vm_compute in H3.
  discriminate H3.
Qed.

(** C4 (amended). For all integers [r], [mines] and every houseEdgePct,
    [payoutMultiplier] returns 1 when [r <= 0], +infinity when
    [probabilitySafePicks(r, mines) <= 0], and otherwise
    [(1 - edge) / probabilitySafePicks(r, mines)] with
    [edge = max(0, min(0.99, houseEdgePct / 100))]; for [mines >= 0] the
    probability is [<= 0] only when it is 0, so there the multiplier is
    infinite exactly when the probability is 0; and unless
    [houseEdgePct / 100] is NaN the edge is that value clamped into
    [0, 0.99]. *)
Theorem payoutMultiplier_contract (r mines : Z) (e : float) :
  ((r <= 0)%Z -> payoutMultiplier r mines e = 1%float) /\
  ((0 < r)%Z -> (probabilitySafePicks r mines 25 <=? 0)%float = true ->
     payoutMultiplier r mines e = infinity) /\
  ((0 < r)%Z -> (probabilitySafePicks r mines 25 <=? 0)%float = false ->
     payoutMultiplier r mines e
     = ((1 - houseEdge e) / probabilitySafePicks r mines 25)%float) /\
  ((0 <= mines)%Z -> multiplier_contract r mines e) /\
  (is_nan (e / 100) = false ->
     ((0 <=? houseEdge e)%float = true /\ (houseEdge e <=? lit_0_99)%float = true) /\
     ((0 <=? e / 100)%float = true -> (e / 100 <=? lit_0_99)%float = true ->
        (houseEdge e =? e / 100)%float = true) /\
     ((e / 100 <? 0)%float = true -> houseEdge e = 0%float) /\
     ((lit_0_99 <? e / 100)%float = true -> houseEdge e = lit_0_99)).
Proof.
  assert (H1 : (r <= 0)%Z -> payoutMultiplier r mines e = 1%float).
  { intros Hr. unfold payoutMultiplier. destruct (Z.leb_spec r 0); [reflexivity|lia]. }
  assert (H2 : (0 < r)%Z -> (probabilitySafePicks r mines 25 <=? 0)%float = true ->
               payoutMultiplier r mines e = infinity).
  { intros Hr Hp. unfold payoutMultiplier. destruct (Z.leb_spec r 0); [lia|].
    cbv zeta. rewrite Hp. reflexivity. }
  assert (H3 : (0 < r)%Z -> (probabilitySafePicks r mines 25 <=? 0)%float = false ->
               payoutMultiplier r mines e
               = ((1 - houseEdge e) / probabilitySafePicks r mines 25)%float).
  { intros Hr Hp. unfold payoutMultiplier. destruct (Z.leb_spec r 0); [lia|].
    cbv zeta. rewrite Hp. reflexivity. }
  repeat apply conj; try assumption.
  - intros Hm. repeat apply conj; [exact H1| |].
    + intros Hr Hz. apply H2; [exact Hr|]. now rewrite probability_guard.
    + intros Hr Hz. apply H3; [exact Hr|]. now rewrite probability_guard.
  - apply houseEdge_clamp.
Qed.

Lemma payoutMultiplier_contract_witness :
  payoutMultiplier 0 3 3 = 1%float /\
  payoutMultiplier 23 3 3 = infinity /\
  payoutMultiplier 1 3 3 = ((1 - houseEdge 3) / probabilitySafePicks 1 3 25)%float /\
  multiplier_contract 1 3 3 /\
  (houseEdge 3 =? 3 / 100)%float = true.
Proof.
  pose proof (payoutMultiplier_contract 0 3 3) as (A & _).
  pose proof (payoutMultiplier_contract 23 3 3) as (_ & B & _).
  pose proof (payoutMultiplier_contract 1 3 3) as (_ & _ & C & D & E).
  split; [|split; [|split; [|split]]].
  - apply A. lia.
  - apply B; [lia|reflexivity].
  - apply C; [lia|reflexivity].
  - apply D. lia.
  - apply (proj1 (proj2 (E eq_refl))); reflexivity.
Defined.

(** C5, as stated, fails at the first step when the house edge is large:
    with 1 mine and a 10 percent edge the multiplier is 1 at [r = 0] and
    0.9375 at [r = 1]. *)
Lemma multiplier_monotone_counterexample :
  (1 <= 1 <= 24)%Z /\ (0 <= 1)%Z /\
  payoutMultiplier 0 1 10 = 1%float /\
  payoutMultiplier 1 1 10 = 0.93750000000000011%float /\
  ~ multiplier_monotone 1 10 0 1.
Proof.
  repeat split; try lia; try (vm_compute; reflexivity).
  intros Hc. specialize (Hc ltac:(lia)). vm_compute in Hc. discriminate Hc.
Qed.

(** C8, as stated, fails at the same point: one safe pick with 1 mine and a
    10 percent edge pays 0.9375, which is below 1 and is not +infinity. *)
Lemma multiplier_at_least_one_counterexample :
  (1 <= 1)%Z /\ (1 <= 1 <= 24)%Z /\
  (0 <=? 10)%float = true /\ (10 <=? 10)%float = true /\
  (payoutMultiplier 1 1 10 <? 1)%float = true /\
  ~ multiplier_at_least_one 1 1 10.
Proof.
  repeat split; try lia; try (vm_compute; reflexivity).
  intros [Hc|Hc]; vm_compute in Hc; [discriminate Hc|].
  apply (f_equal classify) in Hc. vm_compute in Hc. discriminate Hc.
Qed.

(** The fair multiplier (house edge 0), as the floats compute it, is
    non-decreasing in [r] over all integers, for every mine count of the
    game. *)
Lemma fair_multiplier_monotone (mines r1 r2 : Z) :
  (1 <= mines <= 24)%Z -> multiplier_monotone mines 0 r1 r2.
Proof.
  intros Hm Hr.
  assert (Hclip : forall r, payoutMultiplier r mines 0
                            = payoutMultiplier (Z.max 0 (Z.min 25 r)) mines 0).
  { intros r. unfold payoutMultiplier.
    destruct (Z.leb_spec r 0) as [H0|H0].
    - replace (Z.max 0 (Z.min 25 r)) with 0%Z by lia. reflexivity.
    - destruct (Z.leb_spec (Z.max 0 (Z.min 25 r)) 0) as [?|_]; [lia|].
      destruct (Z.le_gt_cases r 25) as [H25|H25].
      + replace (Z.max 0 (Z.min 25 r)) with r by lia. reflexivity.
      + rewrite (probability_exhausted r) by lia.
        rewrite (probability_exhausted (Z.max 0 (Z.min 25 r))) by lia.
        reflexivity. }
  rewrite (Hclip r1), (Hclip r2).
  assert (T : ltac:(let t := eval unfold fairMultiplierTable in fairMultiplierTable in
                    exact (t = true))) by (vm_compute; reflexivity).
  rewrite forallb_forall in T. specialize (T mines ltac:(apply In_zrange; lia)).
  rewrite forallb_forall in T.
  specialize (T (Z.max 0 (Z.min 25 r1)) ltac:(apply In_zrange; lia)).
  rewrite forallb_forall in T.
  apply T. apply In_zrange. lia.
Qed.

(** ** The round state machine *)

Lemma onTileClick_inactive (idx : nat) (st : Game) :
  roundActive st = false -> onTileClick idx st = st.
Proof. intros Ha. unfold onTileClick. rewrite Ha. reflexivity. Qed.

Lemma doCashOut_inactive (st : Game) :
  roundActive st = false -> doCashOut st = st.
Proof. intros Ha. unfold doCashOut. rewrite Ha. reflexivity. Qed.

Lemma doCashOut_no_safe_reveals (st : Game) :
  (safeReveals st <= 0)%Z -> doCashOut st = st.
Proof.
  intros Hs. unfold doCashOut. destruct (roundActive st); [|reflexivity].
  cbn. destruct (Z.leb_spec (safeReveals st) 0); [reflexivity|lia].
Qed.

Lemma run_inactive (st : Game) (events : list Event) :
  roundActive st = false -> run st events = st.
Proof.
  intros Ha. induction events as [|e events IH]; [reflexivity|].
  cbn. destruct e as [idx|]; cbn.
  - rewrite onTileClick_inactive by exact Ha. exact IH.
  - rewrite doCashOut_inactive by exact Ha. exact IH.
Qed.

Lemma onTileClick_revealed (idx : nat) (st : Game) :
  idx ∈ revealed st -> onTileClick idx st = st.
Proof.
  intros Hin. unfold onTileClick.
  destruct (roundActive st); [|reflexivity]. cbn.
  destruct (board st !! idx) as [btn|]; [|reflexivity].
  rewrite bool_decide_eq_true_2 by exact Hin. reflexivity.
Qed.

(** What a click does, by cases. *)
Lemma onTileClick_cases (idx : nat) (st : Game) :
  onTileClick idx st = st \/
  (roundActive (onTileClick idx st) = false /\
   balance (onTileClick idx st) = balance st /\
   safeReveals (onTileClick idx st) = safeReveals st /\
   minesSet (onTileClick idx st) = minesSet st /\
   revealed (onTileClick idx st) = {[idx]} ∪ revealed st /\
   idx ∈ minesSet st) \/
  (roundActive st = true /\
   roundActive (onTileClick idx st) = true /\
   balance (onTileClick idx st) = balance st /\
   safeReveals (onTileClick idx st) = (safeReveals st + 1)%Z /\
   minesSet (onTileClick idx st) = minesSet st /\
   revealed (onTileClick idx st) = {[idx]} ∪ revealed st /\
   (idx ∉ minesSet st) /\ (idx ∉ revealed st)).
Proof.
  unfold onTileClick.
  destruct (roundActive st) eqn:Ha; [|left; reflexivity]. cbn.
  destruct (board st !! idx) as [btn|]; [|left; reflexivity].
  destruct (bool_decide (idx ∈ revealed st)) eqn:Hr; [left; reflexivity|].
  destruct (t_disabled btn); [left; reflexivity|]. cbn.
  apply bool_decide_eq_false in Hr.
  destruct (bool_decide (idx ∈ minesSet st)) eqn:Hm.
  - apply bool_decide_eq_true in Hm. right; left. cbn. auto 10.
  - apply bool_decide_eq_false in Hm. right; right. cbn. auto 10.
Qed.

Lemma onTileClick_twice (idx : nat) (st : Game) :
  onTileClick idx (onTileClick idx st) = onTileClick idx st.
Proof.
  destruct (onTileClick_cases idx st) as [E|[(Ha & _)|(_ & _ & _ & _ & _ & Hr & _)]].
  - rewrite E. exact E.
  - apply onTileClick_inactive. exact Ha.
  - apply onTileClick_revealed. rewrite Hr. set_solver.
Qed.

Lemma doCashOut_cases (st : Game) :
  doCashOut st = st \/
  (roundActive (doCashOut st) = false /\
   safeReveals (doCashOut st) = safeReveals st /\
   minesSet (doCashOut st) = minesSet st /\
   revealed (doCashOut st) = revealed st /\
   (0 < safeReveals st)%Z).
Proof.
  unfold doCashOut.
  destruct (roundActive st); [|left; reflexivity]. cbn.
  destruct (Z.leb_spec (safeReveals st) 0); [left; reflexivity|].
  destruct (is_finite _); [|left; reflexivity]. cbn. right. auto.
Qed.

Lemma countsSafeTiles_step (st : Game) (e : Event) :
  countsSafeTiles st -> countsSafeTiles (step st e).
Proof.
  unfold countsSafeTiles. intros Hc. destruct e as [idx|]; cbn.
  - destruct (onTileClick_cases idx st)
      as [->|[(_ & _ & -> & -> & -> & Hm)|(_ & _ & _ & -> & -> & -> & Hm & Hr)]].
    + exact Hc.
    + rewrite Hc. do 2 f_equal. set_solver.
    + rewrite Hc.
      assert (Hs : ({[idx]} ∪ revealed st) ∖ minesSet st
                   = {[idx]} ∪ (revealed st ∖ minesSet st)) by set_solver.
      rewrite Hs, (size_union {[idx]} (revealed st ∖ minesSet st)) by set_solver.
      rewrite size_singleton. lia.
  - destruct (doCashOut_cases st) as [->|(_ & -> & -> & -> & _)]; exact Hc.
Qed.

Lemma countsSafeTiles_run (st : Game) (events : list Event) :
  countsSafeTiles st -> countsSafeTiles (run st events).
Proof.
  revert st. induction events as [|e events IH]; intros st Hc; [exact Hc|].
  cbn. apply IH, countsSafeTiles_step, Hc.
Qed.

Lemma revealAll_lookup_mine (idx : nat) (mines shown : gset nat)
    (tiles : list Tile) (t : Tile) :
  tiles !! idx = Some t -> idx ∈ mines ->
  t_class <$> (revealAll (Some idx) mines shown tiles !! idx) = Some MineTile.
Proof.
  intros Ht Hm. unfold revealAll, markHit.
  assert (Hi : imap (revealTile mines shown) tiles !! idx
               = Some (mkTile MineTile true (t_hit t))).
  { rewrite list_lookup_imap, Ht. cbn. unfold revealTile.
    rewrite bool_decide_eq_true_2 by exact Hm. reflexivity. }
  rewrite Hi. rewrite list_lookup_insert_eq; [reflexivity|].
  eapply lookup_lt_Some. exact Hi.
Qed.

(** ** Live rounds *)

Lemma liveRound_step (st : Game) (e : Event) :
  liveRound st -> liveRound (step st e).
Proof.
  intros Hl. destruct e as [idx|]; cbn.
  - unfold onTileClick.
    destruct (roundActive st) eqn:Ha; [|exact Hl]. cbn.
    destruct (board st !! idx) as [btn|] eqn:Hb; [|exact Hl].
    destruct (bool_decide (idx ∈ revealed st)) eqn:Hr; [exact Hl|].
    destruct (t_disabled btn) eqn:Hd; [exact Hl|]. cbn.
    apply bool_decide_eq_false in Hr.
    destruct (bool_decide (idx ∈ minesSet st)) eqn:Hm.
    + intros Hon. cbn in Hon. discriminate Hon.
    + apply bool_decide_eq_false in Hm.
      destruct (Hl Ha) as (Hlen & Hrange & Hdisj & Hdis).
      intros _. cbn. split; [now rewrite length_insert|].
      split; [exact Hrange|]. split; [set_solver|].
      intros i t Ht. destruct (decide (i = idx)) as [->|Hne].
      * rewrite list_lookup_insert_eq in Ht by (eapply lookup_lt_Some; exact Hb).
        injection Ht as <-. cbn. split; [set_solver|reflexivity].
      * rewrite list_lookup_insert_ne in Ht by congruence.
        rewrite (Hdis i t Ht). set_solver.
  - unfold doCashOut.
    destruct (roundActive st) eqn:Ha; [|exact Hl]. cbn.
    destruct (safeReveals st <=? 0)%Z; [exact Hl|].
    destruct (is_finite _); [|exact Hl].
    intros Hon. cbn in Hon. discriminate Hon.
Qed.

Lemma liveRound_run (st : Game) (events : list Event) :
  liveRound st -> liveRound (run st events).
Proof.
  revert st. induction events as [|e events IH]; intros st Hl; [exact Hl|].
  change (run st (e :: events)) with (run (step st e) events).
  apply IH, liveRound_step, Hl.
Qed.

Lemma deriveMines_range `{WebCrypto} (s c : string) (n k : Z) (mines : gset nat)
    (ks : KeystreamObj) :
  deriveMines s c n k = Some (mines, ks) -> forall i, i ∈ mines -> (i < 25)%nat.
Proof.
  unfold deriveMines, shuffleDeterministic.
  destruct (shuffleLoop_Permutation (25 - 1) (seq 0 25) (Keystream s c n))
    as (order & ks' & -> & Hp).
  cbn. intros [= <- _] i Hi. apply elem_of_list_to_set in Hi.
  assert (Hin : i ∈ order).
  { unfold slice0 in Hi. destruct (k <? 0)%Z;
      eapply subseteq_take; exact Hi. }
  rewrite Hp in Hin. apply elem_of_seq in Hin. lia.
Qed.

Lemma freshBoard_lookup (i : nat) (btn : Tile) :
  freshBoard !! i = Some btn -> btn = mkTile Hidden false false.
Proof. unfold freshBoard. intros Hi. now apply lookup_replicate in Hi. Qed.

Lemma startRound_live `{WebCrypto} (inp : RoundInputs) (st : Game) :
  roundActive st = false -> liveRound (startRound inp st).
Proof.
  intros Ha. unfold startRound. rewrite Ha.
  destruct (balance (clampInputs inp st) <? in_bet inp)%float.
  { intros Hon. cbn in Hon. congruence. }
  destruct (deriveMines _ _ _ _) as [[mines ks]|] eqn:E.
  - intros _. cbn. split; [reflexivity|].
    split; [eapply deriveMines_range; exact E|]. split; [set_solver|].
    intros i btn Hi. apply freshBoard_lookup in Hi. subst btn.
    cbn. split; [discriminate|set_solver].
  - intros Hon. cbn in Hon. discriminate Hon.
Qed.

(** In a round that was started and is still live, every mine of the round
    is a button that can be clicked. *)
Lemma live_mine_clickable `{WebCrypto} (inp : RoundInputs) (st : Game)
    (events : list Event) (idx : nat) :
  roundActive st = false ->
  roundActive (run (startRound inp st) events) = true ->
  idx ∈ minesSet (run (startRound inp st) events) ->
  (idx ∉ revealed (run (startRound inp st) events)) /\
  exists btn, board (run (startRound inp st) events) !! idx = Some btn /\
              t_disabled btn = false.
Proof.
  intros Ha Hon Hm.
  pose proof (liveRound_run _ events (startRound_live inp st Ha)) as Hl.
  destruct (Hl Hon) as (Hlen & Hrange & Hdisj & Hdis).
  assert (Hr : idx ∉ revealed (run (startRound inp st) events)) by set_solver.
  split; [exact Hr|].
  destruct (lookup_lt_is_Some_2 (board (run (startRound inp st) events)) idx)
    as [btn Hb].
  { rewrite Hlen. apply Hrange, Hm. }
  exists btn. split; [exact Hb|].
  destruct (t_disabled btn) eqn:Hd; [|reflexivity].
  exfalso. apply Hr. apply (Hdis idx btn Hb). exact Hd.
Qed.

(** C9. Revealing a tile of the mine set shows it as a mine (outcome
    Hazard) and takes the round from active to Busted: [roundActive] becomes
    false, nothing is credited, the seed is put on display.  From then on
    every reveal and every cash-out leaves the whole state as it is.  In a
    round that was started and is still live every mine is such a tile.  A
    cash-out with no safe reveal leaves the state as it is as well.  All the
    handlers are total functions: none of these calls can fail. *)
Theorem mine_hit_ends_round `{WebCrypto} :
  (forall (st : Game) (idx : nat) (btn : Tile),
      roundActive st = true ->
      board st !! idx = Some btn -> t_disabled btn = false ->
      idx ∉ revealed st -> idx ∈ minesSet st ->
      let st' := onTileClick idx st in
      t_class <$> (board st' !! idx) = Some MineTile /\
      badge st' = Busted /\
      roundActive st' = false /\
      balance st' = balance st /\
      safeReveals st' = safeReveals st /\
      minesSet st' = minesSet st /\
      serverSeedText st' = default EmptyString (serverSeed st) /\
      (forall idx', onTileClick idx' st' = st') /\
      doCashOut st' = st' /\
      (forall events, run st' events = st')) /\
  (forall (st : Game) (inp : RoundInputs) (events : list Event) (idx : nat),
      roundActive st = false ->
      let st1 := run (startRound inp st) events in
      roundActive st1 = true -> idx ∈ minesSet st1 ->
      let st' := onTileClick idx st1 in
      badge st' = Busted /\ roundActive st' = false /\
      balance st' = balance st1 /\ safeReveals st' = safeReveals st1 /\
      (forall events', run st' events' = st')) /\
  (forall st : Game, roundActive st = false ->
      (forall idx, onTileClick idx st = st) /\ doCashOut st = st) /\
  (forall st : Game, (safeReveals st <= 0)%Z -> doCashOut st = st).
Proof.
  assert (Hhit : forall (st : Game) (idx : nat) (btn : Tile),
      roundActive st = true ->
      board st !! idx = Some btn -> t_disabled btn = false ->
      idx ∉ revealed st -> idx ∈ minesSet st ->
      let st' := onTileClick idx st in
      t_class <$> (board st' !! idx) = Some MineTile /\
      badge st' = Busted /\
      roundActive st' = false /\
      balance st' = balance st /\
      safeReveals st' = safeReveals st /\
      minesSet st' = minesSet st /\
      serverSeedText st' = default EmptyString (serverSeed st) /\
      (forall idx', onTileClick idx' st' = st') /\
      doCashOut st' = st' /\
      (forall events, run st' events = st')).
  { intros st idx btn Ha Hb Hd Hr Hm st'.
    assert (E : st' =
      mkGame (balance st) false (currentBet st) (minesCount st) (houseEdgePct st)
             (serverSeed st) (serverSeedHash st) (clientSeed st) (nonce st)
             (minesSet st) ({[idx]} ∪ revealed st) (safeReveals st) (keystream st)
             (revealAll (Some idx) (minesSet st) ({[idx]} ∪ revealed st)
                (<[idx := mkTile MineTile true (t_hit btn)]> (board st)))
             (default EmptyString (serverSeed st)) Busted (statusWin st) true).
    { unfold st', onTileClick. rewrite Ha, Hb, Hd. cbn.
      rewrite bool_decide_eq_false_2 by exact Hr.
      rewrite bool_decide_eq_true_2 by exact Hm. reflexivity. }
    assert (Hoff : roundActive st' = false) by (rewrite E; reflexivity).
    split.
    { rewrite E. cbn [board].
      eapply revealAll_lookup_mine; [|exact Hm].
      apply list_lookup_insert_eq. eapply lookup_lt_Some. exact Hb. }
    split; [rewrite E; reflexivity|]. split; [exact Hoff|].
    split; [rewrite E; reflexivity|]. split; [rewrite E; reflexivity|].
    split; [rewrite E; reflexivity|]. split; [rewrite E; reflexivity|].
    split; [intros idx'; now apply onTileClick_inactive|].
    split; [now apply doCashOut_inactive|].
    intros events. now apply run_inactive. }
  split; [exact Hhit|]. split; [|split].
  - intros st inp events idx Ha st1 Hon Hm st'.
    destruct (live_mine_clickable inp st events idx Ha Hon Hm)
      as (Hr & btn & Hb & Hd).
    destruct (Hhit st1 idx btn Hon Hb Hd Hr Hm)
      as (_ & Hbadge & Hoff & Hbal & Hsafe & _ & _ & _ & _ & Hrun).
    auto.
  - intros st Ha. split; [intros idx; now apply onTileClick_inactive|].
    now apply doCashOut_inactive.
  - apply doCashOut_no_safe_reveals.
Qed.

Lemma mine_hit_ends_round_witness :
  let st' := onTileClick 7 sampleRound in
  badge st' = Busted /\ roundActive st' = false /\
  balance st' = balance sampleRound /\
  run st' [Click 0; CashOut; Click 7] = st' /\
  roundActive (onTileClick 19 (run sampleRound [Click 0; Click 1])) = false /\
  doCashOut sampleRound = sampleRound.
Proof.
  intros st'.
  destruct (@mine_hit_ends_round sampleCrypto) as (Hhit & Hlive & _ & Hzero).
  destruct (Hhit sampleRound 7%nat (mkTile Hidden false false))
    as (_ & Hb & Ha & Hbal & _ & _ & _ & _ & _ & Hrun).
  - reflexivity.
  - reflexivity.
  - reflexivity.
  - vm_compute. intros H; discriminate H.
  - vm_compute. reflexivity.
  - split; [exact Hb|]. split; [exact Ha|]. split; [exact Hbal|].
    split; [apply Hrun|]. split.
    + apply (Hlive initialGame sampleInputs [Click 0; Click 1] 19%nat);
        vm_compute; reflexivity.
    + apply Hzero. vm_compute. discriminate.
Defined.

(** C10. During a round, the tile handler on an index that is already
    revealed changes nothing at all: the revealed set, [safeReveals],
    [roundActive] and the balance stay as they are, with the rest of the
    state.  A second click on the same tile never changes anything, and along
    any sequence of clicks and cash-outs [safeReveals] is the number of
    distinct safe tiles revealed, so no tile is ever counted twice. *)
Theorem revealed_click_is_noop :
  (forall (st : Game) (idx : nat), idx ∈ revealed st ->
      onTileClick idx st = st /\
      revealed (onTileClick idx st) = revealed st /\
      safeReveals (onTileClick idx st) = safeReveals st /\
      roundActive (onTileClick idx st) = roundActive st /\
      balance (onTileClick idx st) = balance st) /\
  (forall (st : Game) (idx : nat),
      onTileClick idx (onTileClick idx st) = onTileClick idx st) /\
  (forall (st : Game) (events : list Event),
      countsSafeTiles st -> countsSafeTiles (run st events)).
Proof.
  split; [|split].
  - intros st idx Hin. rewrite onTileClick_revealed by exact Hin. auto.
  - intros st idx. apply onTileClick_twice.
  - apply countsSafeTiles_run.
Qed.

Lemma revealed_click_is_noop_witness :
  let st := onTileClick 0 sampleRound in
  safeReveals st = 1%Z /\
  onTileClick 0 st = st /\
  safeReveals (run sampleRound [Click 0; Click 0; Click 0; Click 1]) = 2%Z.
Proof.
  intros st. destruct revealed_click_is_noop as (Hnoop & _ & Hcount).
  split; [reflexivity|]. split.
  - apply (Hnoop st 0%nat). vm_compute. reflexivity.
  - pose proof (Hcount sampleRound [Click 0; Click 0; Click 0; Click 1]
                  ltac:(vm_compute; reflexivity)) as Hc.
    unfold countsSafeTiles in Hc. rewrite Hc. vm_compute. reflexivity.
Defined.

(** ** The commitment *)

Lemma byteHex_not_dash (b : byte) (rest : string) :
  String.eqb (byteHex b +:+ rest) dash = false.
Proof. destruct b; reflexivity. Qed.

Lemma byteHex_truthy (b : byte) (rest : string) :
  truthy (Some (byteHex b +:+ rest)) = true.
Proof. destruct b; reflexivity. Qed.

Lemma bufToHex_block (d : vec byte 32) :
  exists b rest, bufToHex (vec_to_list d) = byteHex b +:+ rest.
Proof. inv_vec d. intros b. intros. exists b. eexists. reflexivity. Qed.

Lemma randomHex_block (v : vec byte 32) :
  exists b rest, randomHex (vec_to_list v) = byteHex b +:+ rest.
Proof.
  inv_vec v. intros b. intros. exists b. eexists. reflexivity.
Qed.



Section CommitmentFacts.
Context `{WebCrypto}.



Lemma step_seed_cases (st : Game) (e : Event) :
  step st e = st \/
  (serverSeed (step st e) = serverSeed st /\
   serverSeedHash (step st e) = serverSeedHash st /\
   ((roundActive (step st e) = false /\
     serverSeedText (step st e) = default EmptyString (serverSeed st)) \/
    roundActive (step st e) = true)).
Proof.
  destruct e as [idx|]; cbn.
  - unfold onTileClick. destruct (roundActive st); [|left; reflexivity]. cbn.
    destruct (board st !! idx) as [btn|]; [|left; reflexivity].
    destruct (bool_decide (idx ∈ revealed st) || t_disabled btn);
      [left; reflexivity|].
    destruct (bool_decide (idx ∈ minesSet st)); cbn; right; auto.
  - unfold doCashOut. destruct (roundActive st); [|left; reflexivity]. cbn.
    destruct (safeReveals st <=? 0)%Z; [left; reflexivity|].
    destruct (is_finite _); cbn; [right; auto|left; reflexivity].
Qed.

Lemma committed_step (st : Game) (e : Event) :
  committed st -> committed (step st e).
Proof.
  intros Hc.
  destruct (step_seed_cases st e) as [->|(Hs' & Hh' & Hend)]; [exact Hc|].
  destruct Hc as (b & rest & Hs & Hh & Ht). exists b, rest.
  rewrite Hs', Hh'. split; [exact Hs|]. split; [exact Hh|].
  destruct Hend as [[_ Htext]|Hon].
  - intros _. rewrite Htext, Hs. reflexivity.
  - rewrite Hon. discriminate.
Qed.


Lemma step_keeps_digest (st : Game) (e : Event) :
  serverSeedHash (step st e) = serverSeedHash st /\
  serverSeed (step st e) = serverSeed st.
Proof.
  destruct (step_seed_cases st e) as [->|(Hs & Hh & _)]; auto.
Qed.


Lemma startRound_committed (inp : RoundInputs) (st : Game) :
  roundActive st = false -> roundActive (startRound inp st) = true ->
  committed (startRound inp st) /\ countsSafeTiles (startRound inp st).
Proof.
  intros Ha. unfold startRound. rewrite Ha.
  destruct (balance (clampInputs inp st) <? in_bet inp)%float.
  { cbn. congruence. }
  destruct (deriveMines _ _ _ _) as [[mines ks]|]; cbn; [intros _|congruence].
  split.
  - destruct (randomHex_block (rnd_server inp)) as (b & rest & ->).
    exists b, rest. cbn. repeat split. discriminate.
  - unfold countsSafeTiles. cbn.
    replace (∅ ∖ mines) with (∅ : gset nat) by set_solver. reflexivity.
Qed.

Lemma verifyCommitment_committed (st : Game) :
  committed st ->
  verifyCommitment st = if roundActive st then None else Some true.
Proof.
  intros (b & rest & Hs & Hh & Ht). unfold verifyCommitment.
  rewrite Hs, Hh, byteHex_truthy.
  destruct (bufToHex_block (digestSHA256 (encode (byteHex b +:+ rest))))
    as (b' & rest' & Hd).
  unfold sha256Hex at 1. rewrite Hd, byteHex_truthy. cbn [negb orb].
  destruct (roundActive st); [reflexivity|].
  rewrite Ht by reflexivity. rewrite byteHex_not_dash. cbn.
  rewrite String.eqb_refl. reflexivity.
Qed.

End CommitmentFacts.



(** * Further properties of the code *)

(** ** Hexadecimal helpers *)

Lemma byteHex_digits (b : byte) :
  exists c1 c2, byteHex b = String c1 (String c2 EmptyString) /\
                lowerHexDigit c1 /\ lowerHexDigit c2.
Proof.
  exists (hexDigit (Byte.to_N b / 16)), (hexDigit (Byte.to_N b mod 16)).
  split; [destruct b; reflexivity|].
  pose proof (Byte.to_N_bounded b) as Hb.
  split; eexists; (split; [|reflexivity]).
  - apply N.Div0.div_lt_upper_bound. lia.
  - apply N.mod_lt. lia.
Qed.

Lemma bufToHex_length (buf : list byte) :
  String.length (bufToHex buf) = (2 * length buf)%nat.
Proof.
  induction buf as [|b rest IH]; [reflexivity|].
  destruct (byteHex_shape b) as (c1 & c2 & E).
  cbn [bufToHex length]. rewrite E.
  change (String c1 (String c2 EmptyString) +:+ bufToHex rest)
    with (String c1 (String c2 (bufToHex rest))).
  cbn [String.length]. rewrite IH. lia.
Qed.

Lemma bufToHex_digits (buf : list byte) :
  Forall lowerHexDigit (list_ascii_of_string (bufToHex buf)).
Proof.
  induction buf as [|b rest IH]; [constructor|].
  destruct (byteHex_digits b) as (c1 & c2 & E & H1 & H2).
  cbn [bufToHex]. rewrite E.
  change (String c1 (String c2 EmptyString) +:+ bufToHex rest)
    with (String c1 (String c2 (bufToHex rest))).
  cbn [list_ascii_of_string]. repeat constructor; assumption.
Qed.

(** X1. [bufToHex] writes exactly two lowercase hexadecimal digits per byte,
    and [hexToBytes] reads them back: the pair is a round trip, so
    [bufToHex] loses nothing. *)
Theorem hex_round_trip (buf : list byte) :
  hexToBytes (bufToHex buf) = buf /\
  String.length (bufToHex buf) = (2 * length buf)%nat /\
  Forall lowerHexDigit (list_ascii_of_string (bufToHex buf)) /\
  forall buf', bufToHex buf' = bufToHex buf -> buf' = buf.
Proof.
  split; [apply hexToBytes_bufToHex|]. split; [apply bufToHex_length|].
  split; [apply bufToHex_digits|]. intros buf'. apply bufToHex_inj.
Qed.

Lemma hexToBytes_pair (c1 c2 : ascii) (s : string) :
  hexToBytes (String c1 (String c2 s))
  = toUint8 (parseInt16 (String c1 (String c2 EmptyString))) :: hexToBytes s.
Proof.
  unfold hexToBytes.
  change (String.length (String c1 (String c2 s))) with (S (S (String.length s))).
  rewrite half_SS. cbn [seq map]. f_equal.
  - cbn [Nat.mul substring]. destruct s; reflexivity.
  - rewrite <- seq_shift, map_map. apply map_ext. intros i. reflexivity.
Qed.

Lemma hexToBytes_app (n : nat) (a b : string) :
  String.length a = (2 * n)%nat ->
  hexToBytes (a +:+ b) = hexToBytes a ++ hexToBytes b.
Proof.
  revert a. induction n as [|n IH]; intros a Ha.
  - destruct a; [reflexivity|discriminate Ha].
  - destruct a as [|c1 [|c2 a]]; cbn in Ha; try lia.
    change (String c1 (String c2 a) +:+ b) with (String c1 (String c2 (a +:+ b))).
    rewrite !hexToBytes_pair, IH by lia. reflexivity.
Qed.

(** X2. On a string of one-byte characters [hexToBytes] returns
    [floor (length / 2)] bytes; it works pair by pair, so it distributes over
    a concatenation at an even position, a dangling last character is
    ignored, and a pair that does not start with a hexadecimal digit, white
    space or a sign is read as the byte 0. *)
Theorem hexToBytes_pairs :
  (forall hex, asciiString hex ->
     length (hexToBytes hex) = (String.length hex / 2)%nat) /\
  (forall n a b, asciiString (a +:+ b) -> String.length a = (2 * n)%nat ->
     hexToBytes (a +:+ b) = hexToBytes a ++ hexToBytes b) /\
  (forall n a c, asciiString (a +:+ String c EmptyString) ->
     String.length a = (2 * n)%nat ->
     hexToBytes (a +:+ String c EmptyString) = hexToBytes a) /\
  (forall c1 c2 s, asciiString (String c1 (String c2 s)) ->
     hexDigitValue c1 = None -> isWhiteSpace c1 = false ->
     c1 <> "-"%char -> c1 <> "+"%char ->
     hexToBytes (String c1 (String c2 s)) = x00 :: hexToBytes s).
Proof.
  split; [|split; [|split]].
  - intros hex _. unfold hexToBytes. now rewrite length_map, length_seq.
  - intros n a b _. apply hexToBytes_app.
  - intros n a c _ Ha. rewrite (hexToBytes_app n) by exact Ha.
    change (hexToBytes (String c EmptyString)) with (@nil byte).
    apply app_nil_r.
  - intros c1 c2 s _ Hd Hw Hm Hp. rewrite hexToBytes_pair. f_equal.
    unfold parseInt16. cbn [skipWhiteSpace]. rewrite Hw.
    assert (E : parseDigits16 (stripHexPrefix (String c1 (String c2 EmptyString))) None
                = None).
    { assert (Hs : stripHexPrefix (String c1 (String c2 EmptyString))
                   = String c1 (String c2 EmptyString)).
      { unfold stripHexPrefix.
        destruct (Ascii.eqb_spec c1 "0") as [->|Hne]; [discriminate Hd|].
        destruct c1 as [[] [] [] [] [] [] [] []]; try reflexivity; congruence. }
      rewrite Hs. cbn [parseDigits16]. rewrite Hd. reflexivity. }
    destruct c1 as [[] [] [] [] [] [] [] []]; try (rewrite E; reflexivity);
      congruence.
Qed.

Lemma hexToBytes_pairs_witness :
  hexToBytes ("0aff" +:+ "1") = hexToBytes "0aff" /\
  hexToBytes "zz10" = [x00; x10].
Proof.
  destruct hexToBytes_pairs as (_ & _ & Hodd & Hbad).
  split.
  - apply (Hodd 2%nat "0aff"%string "1"%char); [|reflexivity].
    repeat constructor.
  - apply (Hbad "z"%char "z"%char "10"%string);
      [repeat constructor|reflexivity|reflexivity| |]; discriminate.
Defined.

(** ** The seed string and the MAC messages *)

Lemma randomHex_bufToHex (entropy : list byte) : randomHex entropy = bufToHex entropy.
Proof.
  unfold randomHex. induction entropy as [|b rest IH]; [reflexivity|].
  cbn [map bufToHex]. rewrite <- IH.
  destruct (byteHex_shape b) as (c1 & c2 & ->).
  destruct rest as [|b' rest']; reflexivity.
Qed.

(** X3. [randomHex] is the hexadecimal text of the random bytes, two
    lowercase digits each: the seed string has twice as many characters as
    there were bytes of entropy, [hexToBytes] recovers those bytes, and two
    different draws never give the same seed. *)
Theorem randomHex_keeps_entropy (entropy : list byte) :
  randomHex entropy = bufToHex entropy /\
  String.length (randomHex entropy) = (2 * length entropy)%nat /\
  hexToBytes (randomHex entropy) = entropy /\
  forall entropy', randomHex entropy' = randomHex entropy -> entropy' = entropy.
Proof.
  rewrite randomHex_bufToHex.
  split; [reflexivity|]. split; [apply bufToHex_length|].
  split; [apply hexToBytes_bufToHex|].
  intros e'. rewrite randomHex_bufToHex. apply bufToHex_inj.
Qed.

Lemma digits_colonFree (d : Decimal.uint) : colonFree (NilEmpty.string_of_uint d).
Proof.
  unfold colonFree.
  induction d; cbn; [intros []|intros [E|Hin]; [discriminate E|contradiction]..].
Qed.

Lemma decimal_colonFree (d : Decimal.uint) : colonFree (NilZero.string_of_uint d).
Proof.
  destruct d;
    lazymatch goal with
    | |- colonFree (NilZero.string_of_uint Decimal.Nil) =>
        intros [E|[]]; discriminate E
    | |- colonFree (NilZero.string_of_uint ?x) => exact (digits_colonFree x)
    end.
Qed.

Lemma numberToString_colonFree (z : Z) : colonFree (numberToString z).
Proof.
  unfold numberToString, NilZero.string_of_int.
  destruct (Z.to_int z) as [d|d]; [apply decimal_colonFree|].
  intros [E|Hin]; [discriminate E|]. revert Hin. apply decimal_colonFree.
Qed.

Lemma numberToString_inj (a b : Z) : numberToString a = numberToString b -> a = b.
Proof.
  unfold numberToString. intros E. apply DecimalZ.to_int_inj.
  assert (Hnn : forall z, Z.to_int z <> Decimal.Pos Decimal.Nil /\
                          Z.to_int z <> Decimal.Neg Decimal.Nil).
  { intros [|p|p]; cbn; split; try discriminate;
      intros [= E']; revert E'; apply DecimalPos.Unsigned.to_uint_nonnil. }
  apply (f_equal NilZero.int_of_string) in E.
  rewrite !NilZero.isi in E by apply Hnn. now injection E.
Qed.

Lemma string_app_assoc (a b c : string) : (a +:+ b) +:+ c = a +:+ (b +:+ c).
Proof.
  induction a as [|x a IH]; [reflexivity|].
  change (String x ((a +:+ b) +:+ c) = String x (a +:+ (b +:+ c))).
  now rewrite IH.
Qed.

Lemma colon_in_app (s t : string) :
  In ":"%char (list_ascii_of_string (s +:+ String ":" t)).
Proof.
  induction s as [|z s IH].
  - left. reflexivity.
  - right. exact IH.
Qed.

Lemma split_at_last_colon (a c b d : string) :
  colonFree b -> colonFree d ->
  a +:+ String ":" b = c +:+ String ":" d -> a = c /\ b = d.
Proof.
  intros Hb Hd. revert c. induction a as [|x a IH]; intros [|y c] E; cbn in E.
  - injection E as E. auto.
  - injection E as _ E. exfalso. apply Hb. rewrite E. apply colon_in_app.
  - injection E as _ E. exfalso. apply Hd. rewrite <- E. apply colon_in_app.
  - injection E as Exy E. destruct (IH c E) as [Ea Eb]. subst. auto.
Qed.

(** X4. The MAC message [clientSeed:nonce:counter] determines its three
    parts, whatever the client seed contains: two different
    (clientSeed, nonce, counter) triples are never sent to the MAC as the same
    message. *)
Theorem blockMessage_inj (c1 c2 : string) (n1 n2 : Z) (k1 k2 : nat) :
  blockMessage c1 n1 k1 = blockMessage c2 n2 k2 -> c1 = c2 /\ n1 = n2 /\ k1 = k2.
Proof.
  unfold blockMessage. intros E.
  assert (Hre : forall (c : string) (n : Z) (k : string),
             c +:+ ":" +:+ numberToString n +:+ ":" +:+ k
             = (c +:+ String ":" (numberToString n)) +:+ String ":" k).
  { intros c n k. rewrite string_app_assoc. reflexivity. }
  rewrite !Hre in E.
  apply split_at_last_colon in E as [E Ek]; try apply numberToString_colonFree.
  apply split_at_last_colon in E as [Ec En]; try apply numberToString_colonFree.
  apply numberToString_inj in En, Ek. split; [exact Ec|]. split; [exact En|lia].
Qed.

Lemma blockMessage_inj_witness :
  "a:1"%string = "a:1"%string /\ 2%Z = 2%Z /\ 3%nat = 3%nat.
Proof. apply (blockMessage_inj "a:1" "a:1" 2 2 3 3). reflexivity. Defined.

(** ** The keystream and the shuffle, beyond the board of 25 *)

Section StreamUse.
Context `{WebCrypto}.

Lemma drawFloats_app (j k : nat) (ks : KeystreamObj) :
  drawFloats (j + k) ks
  = '(f1, ks1) ← drawFloats j ks;
    '(f2, ks2) ← drawFloats k ks1;
    Some (f1 ++ f2, ks2).
Proof.
  revert ks. induction j as [|j IH]; intros ks.
  - cbn. destruct (drawFloats k ks) as [[f2 ks2]|]; reflexivity.
  - cbn [Nat.add drawFloats].
    destruct (nextFloat ks) as [[r ks0]|]; [|reflexivity]. cbn.
    rewrite IH. destruct (drawFloats j ks0) as [[f1 ks1]|]; [|reflexivity]. cbn.
    destruct (drawFloats k ks1) as [[f2 ks2]|]; reflexivity.
Qed.

(** X5. For every size [n] and every keystream, [shuffleDeterministic]
    returns a permutation of [0..n-1]; it draws exactly [n - 1] floats (the
    keystream it leaves is the one [n - 1] calls of [nextFloat] leave); with
    [n <= 1] it draws nothing and returns the array as built; and every index
    [floor (r * (i + 1))] it computes from a keystream float lies in [0..i],
    so the swap never touches a position outside the array. *)
Theorem shuffle_any_size (n : nat) (ks : KeystreamObj) :
  (exists order floats ks',
      shuffleDeterministic n ks = Some (order, ks') /\
      order ≡ₚ seq 0 n /\
      drawFloats (n - 1) ks = Some (floats, ks') /\
      length floats = (n - 1)%nat) /\
  ((n <= 1)%nat -> shuffleDeterministic n ks = Some (seq 0 n, ks)) /\
  (forall r ks1 i, nextFloat ks = Some (r, ks1) -> (pickIndex r i <= i)%nat).
Proof.
  split; [|split].
  - unfold shuffleDeterministic.
    destruct (shuffleLoop_Permutation (n - 1) (seq 0 n) ks) as (order & ks' & E & Hp).
    pose proof (shuffleLoop_fisherYates (n - 1) (seq 0 n) ks) as Hfy.
    rewrite E in Hfy.
    destruct (drawFloats (n - 1) ks) as [[floats ks'']|] eqn:Ed; [|discriminate Hfy].
    cbn in Hfy. injection Hfy as _ <-.
    exists order, floats, ks'. repeat split; try assumption.
    clear E Hp. revert ks floats ks' Ed.
    induction (n - 1)%nat as [|k IH]; intros ks floats ks' Ed.
    + cbn in Ed. now injection Ed as <- _.
    + cbn [drawFloats] in Ed.
      destruct (nextFloat ks) as [[r ks0]|]; [|discriminate Ed]. cbn in Ed.
      destruct (drawFloats k ks0) as [[rs ks2]|] eqn:E2; [|discriminate Ed].
      cbn in Ed. injection Ed as <- _. cbn. f_equal. eapply IH. exact E2.
  - intros Hn. unfold shuffleDeterministic.
    replace (n - 1)%nat with 0%nat by lia. reflexivity.
  - intros r ks1 i E. destruct (nextFloat_range ks ks1 r E).
    now apply shuffle_index_range.
Qed.


(** X6. Draws compose: [j + k] floats are [j] floats followed by [k] floats
    from the keystream the first draw left.  A keystream object that is used
    for a second shuffle therefore goes on in its stream instead of starting
    over: after a first shuffle of 25 from a fresh keystream, a second one is
    Fisher-Yates over floats 24 to 47. *)
Theorem keystream_continues (s c : string) (n : Z) :
  (forall j k ks,
      drawFloats (j + k) ks
      = '(f1, ks1) ← drawFloats j ks;
        '(f2, ks2) ← drawFloats k ks1;
        Some (f1 ++ f2, ks2)) /\
  (exists order1 ks1 order2 ks2,
      shuffleDeterministic 25 (Keystream s c n) = Some (order1, ks1) /\
      shuffleDeterministic 25 ks1 = Some (order2, ks2) /\
      order1 = fisherYates 25 (map (streamFloat s c n) (seq 0 24)) /\
      order2 = fisherYates 25 (map (streamFloat s c n) (seq 24 24))).
Proof.
  split; [apply drawFloats_app|].
  exists (fisherYates 25 (map (streamFloat s c n) (seq 0 24))),
         (afterDraws s c n 24),
         (fisherYates 25 (map (streamFloat s c n) (seq 24 24))),
         (afterDraws s c n (24 + 24)).
  split; [apply (shuffleDeterministic_fresh 25)|].
  split; [|split; reflexivity].
  unfold shuffleDeterministic. rewrite shuffleLoop_fisherYates.
  change (25 - 1)%nat with 24%nat.
  rewrite (drawFloats_from s c n 24 24). cbn [mbind option_bind].
  unfold fisherYates. change (25 - 1)%nat with 24%nat. reflexivity.
Qed.

(** X7. From a fresh keystream, [k] floats cost [ceil (k / 8)] MAC
    computations and leave the unread words of the last block in the buffer;
    the 24 floats of the 25-tile shuffle cost exactly three, with messages
    numbered 0, 1, 2, and leave the buffer empty. *)
Theorem keystream_block_use (s c : string) (n : Z) :
  (forall k, exists floats ks',
      drawFloats k (Keystream s c n) = Some (floats, ks') /\
      ks_counter ks' = ((k + 7) / 8)%nat /\
      length (ks_buffer ks') = (4 * (8 * ((k + 7) / 8) - k))%nat /\
      ks_serverSeed ks' = s /\ ks_clientSeed ks' = c /\ ks_nonce ks' = n) /\
  (exists order ks',
      shuffleDeterministic 25 (Keystream s c n) = Some (order, ks') /\
      ks_counter ks' = 3%nat /\ ks_buffer ks' = []).
Proof.
  split.
  - intros k. exists (map (streamFloat s c n) (seq 0 k)), (afterDraws s c n k).
    split; [apply (drawFloats_from s c n k 0)|].
    destruct k as [|k]; [repeat split|].
    unfold afterDraws. cbn [ks_counter ks_buffer ks_serverSeed ks_clientSeed ks_nonce].
    rewrite length_drop, macBlock_length.
    pose proof (Nat.div_mod_eq k 8). pose proof (Nat.mod_upper_bound k 8 ltac:(lia)).
    pose proof (Nat.div_mod_eq (S k + 7) 8).
    pose proof (Nat.mod_upper_bound (S k + 7) 8 ltac:(lia)).
    assert (Hq : ((S k + 7) / 8 = S (k / 8))%nat) by lia.
    rewrite Hq. repeat split; lia.
  - exists (fisherYates 25 (map (streamFloat s c n) (seq 0 24))),
           (afterDraws s c n 24).
    split; [apply (shuffleDeterministic_fresh 25)|].
    split; [reflexivity|].
    change (ks_buffer (afterDraws s c n 24))
      with (drop 32 (macBlock s c n 2)).
    apply drop_ge. rewrite macBlock_length. lia.
Qed.

End StreamUse.
Lemma shuffle_any_size_witness :
  @shuffleDeterministic sampleCrypto 1 (Keystream "5eed" "client" 1)
  = Some (seq 0 1, Keystream "5eed" "client" 1).
Proof.
  apply (proj1 (proj2 (@shuffle_any_size sampleCrypto 1 (Keystream "5eed" "client" 1)))).
  lia.
Defined.

(** ** The probability and the multiplier as the floats compute them *)

Lemma probability_clip (r mines : Z) :
  (0 <= mines)%Z ->
  probabilitySafePicks r mines 25
  = probabilitySafePicks (Z.max 0 (Z.min 26 r)) mines 25.
Proof.
  intros Hm. destruct (Z.le_gt_cases r 0) as [H0|H0].
  - replace (Z.max 0 (Z.min 26 r)) with 0%Z by lia.
    unfold probabilitySafePicks. destruct (Z.leb_spec r 0); [reflexivity|lia].
  - destruct (Z.le_gt_cases r 26) as [H26|H26].
    + replace (Z.max 0 (Z.min 26 r)) with r by lia. reflexivity.
    + rewrite (probability_exhausted r) by lia.
      rewrite (probability_exhausted (Z.max 0 (Z.min 26 r))) by lia. reflexivity.
Qed.

(** X8. On the board ([0 <= mines <= 25]) the float
    [probabilitySafePicks(r, mines)] is a number in [0,1] for every integer
    [r], and it never grows with [r]: more safe picks are never more
    likely. *)
Theorem probability_unit_and_antitone (mines r1 r2 : Z) :
  (0 <= mines <= 25)%Z -> (r1 <= r2)%Z ->
  (0 <=? probabilitySafePicks r1 mines 25)%float = true /\
  (probabilitySafePicks r1 mines 25 <=? 1)%float = true /\
  (probabilitySafePicks r2 mines 25 <=? probabilitySafePicks r1 mines 25)%float = true.
Proof.
  intros Hm Hr.
  assert (T : ltac:(let t := eval unfold probabilityMonotoneTable in
                              probabilityMonotoneTable in exact (t = true)))
    by (vm_compute; reflexivity).
  rewrite forallb_forall in T. specialize (T mines ltac:(apply In_zrange; lia)).
  rewrite forallb_forall in T.
  assert (Hpair : forall a b, (0 <= a <= b)%Z -> (b <= 26)%Z ->
            (probabilitySafePicks b mines 25 <=? probabilitySafePicks a mines 25)%float
            = true).
  { intros a b Ha Hb. specialize (T a ltac:(apply In_zrange; lia)).
    rewrite forallb_forall in T. apply T. apply In_zrange. lia. }
  rewrite (probability_clip r1), (probability_clip r2) by lia.
  set (a := Z.max 0 (Z.min 26 r1)). set (b := Z.max 0 (Z.min 26 r2)).
  split; [|split].
  - replace 0%float with (probabilitySafePicks 26 mines 25)
      by (apply probability_exhausted; lia).
    apply Hpair; lia.
  - change 1%float with (probabilitySafePicks 0 mines 25). apply Hpair; lia.
  - apply Hpair; lia.
Qed.

Lemma probability_unit_and_antitone_witness :
  (0 <=? probabilitySafePicks 1 3 25)%float = true /\
  (probabilitySafePicks 1 3 25 <=? 1)%float = true /\
  (probabilitySafePicks 2 3 25 <=? probabilitySafePicks 1 3 25)%float = true.
Proof. apply (probability_unit_and_antitone 3 1 2); lia. Defined.

(** X9. With no house edge the float multiplier is the fair one: for every
    mine count of the game it is at least 1 for every integer [r] and it is
    non-decreasing in [r], +infinity included. *)
Theorem fair_multiplier_floor_and_growth (mines r1 r2 : Z) :
  (1 <= mines <= 24)%Z -> (r1 <= r2)%Z ->
  (1 <=? payoutMultiplier r1 mines 0)%float = true /\
  (payoutMultiplier r1 mines 0 <=? payoutMultiplier r2 mines 0)%float = true.
Proof.
  intros Hm Hr. split; [|now apply fair_multiplier_monotone].
  assert (T : ltac:(let t := eval unfold fairFloorTable in fairFloorTable in
                    exact (t = true))) by (vm_compute; reflexivity).
  rewrite forallb_forall in T. specialize (T mines ltac:(apply In_zrange; lia)).
  rewrite forallb_forall in T.
  assert (Hclip : payoutMultiplier r1 mines 0
                  = payoutMultiplier (Z.max 0 (Z.min 25 r1)) mines 0).
  { unfold payoutMultiplier.
    destruct (Z.leb_spec r1 0) as [H0|H0].
    - replace (Z.max 0 (Z.min 25 r1)) with 0%Z by lia. reflexivity.
    - destruct (Z.leb_spec (Z.max 0 (Z.min 25 r1)) 0) as [?|_]; [lia|].
      destruct (Z.le_gt_cases r1 25) as [H25|H25].
      + replace (Z.max 0 (Z.min 25 r1)) with r1 by lia. reflexivity.
      + rewrite (probability_exhausted r1) by lia.
        rewrite (probability_exhausted (Z.max 0 (Z.min 25 r1))) by lia.
        reflexivity. }
  rewrite Hclip. apply T. apply In_zrange. lia.
Qed.

Lemma fair_multiplier_floor_and_growth_witness :
  (1 <=? payoutMultiplier 1 1 0)%float = true /\
  (payoutMultiplier 1 1 0 <=? payoutMultiplier 2 1 0)%float = true.
Proof. apply (fair_multiplier_floor_and_growth 1 1 2); lia. Defined.

(** ** The input fields *)

Lemma Math_min_spec (a x : float) :
  is_nan a = false -> is_nan x = false ->
  (Math_min a x = a /\ (a <=? x)%float = true) \/
  (Math_min a x = x /\ (x <=? a)%float = true).
Proof.
  intros Ha Hx. unfold Math_min. rewrite Ha, Hx. cbn [orb].
  destruct (a <? x)%float eqn:E1; [left; split; [reflexivity|now apply float_ltb_leb]|].
  destruct (x <? a)%float eqn:E2; [right; split; [reflexivity|now apply float_ltb_leb]|].
  destruct (get_sign a); [left|right]; (split; [reflexivity|]);
    apply float_eqb_leb, float_trichotomy; auto.
Qed.

Lemma Math_max_spec (a x : float) :
  is_nan a = false -> is_nan x = false ->
  (Math_max a x = a /\ (x <=? a)%float = true) \/
  (Math_max a x = x /\ (a <=? x)%float = true).
Proof.
  intros Ha Hx. unfold Math_max. rewrite Ha, Hx. cbn [orb].
  destruct (a <? x)%float eqn:E1; [right; split; [reflexivity|now apply float_ltb_leb]|].
  destruct (x <? a)%float eqn:E2; [left; split; [reflexivity|now apply float_ltb_leb]|].
  destruct (get_sign a); [right|left]; (split; [reflexivity|]);
    apply float_eqb_leb, float_trichotomy; auto.
Qed.

Lemma is_finite_not_nan (x : float) : is_finite x = true -> is_nan x = false.
Proof. unfold is_finite. destruct (is_nan x); [discriminate|reflexivity]. Qed.

Lemma float_leb_antisym (a b : float) :
  (a <=? b)%float = true -> (b <=? a)%float = true -> (a =? b)%float = true.
Proof.
  intros Hab Hba. destruct (float_leb_cases _ _ Hab) as [Hlt|Heq]; [|exact Heq].
  apply float_ltb_antisym in Hlt. congruence.
Qed.

Lemma float_eqb_sym (a b : float) : (a =? b)%float = (b =? a)%float.
Proof.
  rewrite !FloatAxioms.eqb_spec. unfold SFeqb.
  rewrite (SFcompare_antisym (Prim2SF a) (Prim2SF b)).
  destruct (SFcompare (Prim2SF a) (Prim2SF b)) as [[]|]; reflexivity.
Qed.

Lemma clampEdge_spec (e : float) :
  is_finite (clampEdge e) = true /\
  (0 <=? clampEdge e)%float = true /\ (clampEdge e <=? 10)%float = true /\
  (is_finite e = true -> (0 <=? e)%float = true -> (e <=? 10)%float = true ->
     (clampEdge e =? e)%float = true) /\
  (is_finite e = true -> (e <? 0)%float = true -> clampEdge e = 0%float) /\
  (is_finite e = true -> (10 <? e)%float = true -> clampEdge e = 10%float) /\
  (is_finite e = false -> clampEdge e = 3%float).
Proof.
  unfold clampEdge. destruct (is_finite e) eqn:Hf.
  2:{ repeat split; try reflexivity; discriminate. }
  pose proof (is_finite_not_nan e Hf) as Hn.
  assert (Hee : (e =? e)%float = true).
  { unfold is_nan in Hn. now apply Bool.negb_false_iff in Hn. }
  destruct (Math_min_spec 10 e eq_refl Hn) as [[-> Hhi]|[-> Hle]].
  - (* 10 <= e *)
    change (Math_max 0 10) with 10%float.
    split; [reflexivity|]. split; [reflexivity|]. split; [reflexivity|].
    split; [|split; [|split]].
    + intros _ _ Hle. rewrite float_eqb_sym. now apply float_leb_antisym.
    + intros _ Hneg. exfalso.
      assert (H10 : (10 <? 0)%float = false) by reflexivity.
      revert Hneg Hhi. rewrite ltb_spec, leb_spec. unfold SFltb, SFleb.
      change (Prim2SF 0) with (S754_zero false).
      let v := eval vm_compute in (Prim2SF 10) in change (Prim2SF 10) with v.
      destruct (Prim2SF e) as [s|s| |s m x]; try destruct s; cbn; try discriminate.
    + reflexivity.
    + discriminate.
  - destruct (Math_max_spec 0 e eq_refl Hn) as [[-> Hnp]|[-> Hpos]].
    + (* e <= 0 *)
      split; [reflexivity|]. split; [reflexivity|]. split; [reflexivity|].
      split; [|split; [|split]].
      * intros _ H0 _. now apply float_leb_antisym.
      * reflexivity.
      * intros _ Hhi. apply float_ltb_antisym in Hhi. congruence.
      * discriminate.
    + split; [exact Hf|]. split; [exact Hpos|]. split; [exact Hle|].
      split; [|split; [|split]].
      * intros _ _ _. exact Hee.
      * intros _ Hneg. apply float_ltb_antisym in Hneg. congruence.
      * intros _ Hhi. apply float_ltb_antisym in Hhi. congruence.
      * discriminate.
Qed.

(** X12. Whatever is typed into the fields, [clampInputs] leaves a mine
    count in [1,24] and a finite house edge in [0,10]; a value already in
    range is kept, one out of range goes to the nearer bound, and what is not
    a number becomes 3.  It touches nothing else: not the balance, the bet,
    the round or its mines. *)
Theorem clampInputs_valid (inp : RoundInputs) (st : Game) :
  ((1 <= minesCount (clampInputs inp st) <= 24)%Z /\
   (forall m, in_mines inp = Some m ->
      minesCount (clampInputs inp st) = Z.max 1 (Z.min 24 m) /\
      ((1 <= m <= 24)%Z -> minesCount (clampInputs inp st) = m)) /\
   (in_mines inp = None -> minesCount (clampInputs inp st) = 3%Z)) /\
  (is_finite (houseEdgePct (clampInputs inp st)) = true /\
   (0 <=? houseEdgePct (clampInputs inp st))%float = true /\
   (houseEdgePct (clampInputs inp st) <=? 10)%float = true /\
   (is_finite (in_edge inp) = true -> (0 <=? in_edge inp)%float = true ->
    (in_edge inp <=? 10)%float = true ->
      (houseEdgePct (clampInputs inp st) =? in_edge inp)%float = true) /\
   (is_finite (in_edge inp) = true -> (in_edge inp <? 0)%float = true ->
      houseEdgePct (clampInputs inp st) = 0%float) /\
   (is_finite (in_edge inp) = true -> (10 <? in_edge inp)%float = true ->
      houseEdgePct (clampInputs inp st) = 10%float) /\
   (is_finite (in_edge inp) = false -> houseEdgePct (clampInputs inp st) = 3%float)) /\
  (balance (clampInputs inp st) = balance st /\
   currentBet (clampInputs inp st) = currentBet st /\
   roundActive (clampInputs inp st) = roundActive st /\
   nonce (clampInputs inp st) = nonce st /\
   minesSet (clampInputs inp st) = minesSet st /\
   revealed (clampInputs inp st) = revealed st /\
   safeReveals (clampInputs inp st) = safeReveals st /\
   board (clampInputs inp st) = board st /\
   serverSeed (clampInputs inp st) = serverSeed st /\
   serverSeedHash (clampInputs inp st) = serverSeedHash st).
Proof.
  split; [|split].
  - cbn [clampInputs minesCount]. split; [apply clampMines_range|]. split.
    + intros m ->. unfold clampMines. cbn. split; [reflexivity|lia].
    + intros ->. reflexivity.
  - cbn [clampInputs houseEdgePct]. apply clampEdge_spec.
  - cbn. repeat split.
Qed.

(** ** The buttons and the handlers behind them *)

Lemma doCashOut_pays (st : Game) :
  doCashOut st = st \/
  (roundActive st = true /\ (0 < safeReveals st)%Z /\
   is_finite (payoutMultiplier (safeReveals st) (minesCount st) (houseEdgePct st)) = true /\
   doCashOut st =
     mkGame (balance st + currentBet st
               * payoutMultiplier (safeReveals st) (minesCount st) (houseEdgePct st))%float
            false (currentBet st) (minesCount st) (houseEdgePct st)
            (serverSeed st) (serverSeedHash st) (clientSeed st) (nonce st)
            (minesSet st) (revealed st) (safeReveals st) (keystream st)
            (revealAll None (minesSet st) (revealed st) (board st))
            (default EmptyString (serverSeed st)) CashedOut true (statusLose st)).
Proof.
  unfold doCashOut.
  destruct (roundActive st); [|left; reflexivity]. cbn [negb].
  destruct (Z.leb_spec (safeReveals st) 0); [left; reflexivity|].
  destruct (is_finite _) eqn:Hf; [|left; reflexivity]. cbn [negb].
  right. auto.
Qed.

(** X13. The buttons agree with the handlers.  While the cash-out button is
    disabled [doCashOut] changes nothing; while it is enabled a cash-out ends
    the round and adds to the balance exactly the cash-out value on display,
    once: the button is disabled afterwards.  The verify button is disabled
    exactly when [verifyCommitment] returns without checking, and with no
    round active there is nothing to cash out. *)
Theorem status_gates_handlers `{WebCrypto} (st : Game) :
  (cashOutDisabled (updateStatusUI st) = true -> doCashOut st = st) /\
  (cashOutDisabled (updateStatusUI st) = false ->
     roundActive (doCashOut st) = false /\
     balance (doCashOut st) = (balance st + cashOutValue (updateStatusUI st))%float /\
     badge (doCashOut st) = CashedOut /\
     serverSeedText (doCashOut st) = default EmptyString (serverSeed st) /\
     cashOutDisabled (updateStatusUI (doCashOut st)) = true) /\
  (verifyDisabled (updateStatusUI st) = true <-> verifyCommitment st = None) /\
  (roundActive st = false ->
     cashOutDisabled (updateStatusUI st) = true /\
     cashOutValue (updateStatusUI st) = 0%float /\
     nextRoundDisabled (updateStatusUI st) = false).
Proof.
  split; [|split; [|split]].
  - unfold updateStatusUI, doCashOut. cbn [cashOutDisabled].
    destruct (roundActive st); [|reflexivity]. cbn [negb andb].
    destruct (Z.leb_spec (safeReveals st) 0) as [Hle|Hlt]; [reflexivity|].
    destruct (Z.ltb_spec 0 (safeReveals st)); [|lia]. cbn [andb].
    destruct (is_finite _); [discriminate|reflexivity].
  - intros Hen.
    assert (Hon : roundActive st = true /\ (0 < safeReveals st)%Z /\
              is_finite (payoutMultiplier (safeReveals st) (minesCount st)
                           (houseEdgePct st)) = true).
    { revert Hen. unfold updateStatusUI. cbn [cashOutDisabled].
      destruct (roundActive st); [|discriminate]. cbn [andb].
      destruct (Z.ltb_spec 0 (safeReveals st)); [|discriminate]. cbn [andb].
      destruct (is_finite _); [auto|discriminate]. }
    destruct Hon as (Ha & Hs & Hf).
    destruct (doCashOut_pays st) as [E|(_ & _ & _ & E)].
    { exfalso. revert E. unfold doCashOut. rewrite Ha, Hf. cbn [negb].
      destruct (Z.leb_spec (safeReveals st) 0); [lia|].
      intros E. apply (f_equal roundActive) in E. cbn in E. congruence. }
    rewrite E. unfold updateStatusUI. cbn. rewrite Ha, Hf. cbn. auto.
  - unfold updateStatusUI, verifyCommitment. cbn [verifyDisabled].
    destruct (truthy (serverSeed st)), (truthy (serverSeedHash st)),
      (roundActive st), (String.eqb (serverSeedText st) dash); cbn;
      split; intros E; try reflexivity; discriminate E.
  - intros Ha. unfold updateStatusUI. cbn. rewrite Ha. auto.
Qed.

Lemma step_keeps_terms (st : Game) (e : Event) :
  currentBet (step st e) = currentBet st /\
  minesCount (step st e) = minesCount st /\
  houseEdgePct (step st e) = houseEdgePct st.
Proof.
  destruct e as [idx|]; cbn.
  - unfold onTileClick. destruct (negb (roundActive st)); [auto|].
    destruct (board st !! idx) as [btn|]; [|auto].
    destruct (_ || _); [auto|]. destruct (bool_decide _); cbn; auto.
  - destruct (doCashOut_pays st) as [->|(_ & _ & _ & ->)]; cbn; auto.
Qed.

Lemma run_app (st : Game) (pre post : list Event) :
  run st (pre ++ post) = run (run st pre) post.
Proof. apply fold_left_app. Qed.

Lemma run_balance_cases (st : Game) (events : list Event) :
  balance (run st events) = balance st \/
  exists pre post,
    events = pre ++ CashOut :: post /\
    roundActive (run st pre) = true /\
    balance (run st pre) = balance st /\
    (0 < safeReveals (run st pre))%Z /\
    run st events = doCashOut (run st pre) /\
    roundActive (run st events) = false /\
    balance (run st events)
    = (balance st + currentBet st
         * payoutMultiplier (safeReveals (run st pre)) (minesCount st)
             (houseEdgePct st))%float.
Proof.
  revert st. induction events as [|e events IH]; intros st; [left; reflexivity|].
  change (run st (e :: events)) with (run (step st e) events).
  destruct (step_keeps_terms st e) as (Hbet & Hmines & Hedge).
  assert (Hlift : balance (step st e) = balance st ->
    balance (run (step st e) events) = balance st \/
    exists pre post,
      e :: events = pre ++ CashOut :: post /\
      roundActive (run st pre) = true /\
      balance (run st pre) = balance st /\
      (0 < safeReveals (run st pre))%Z /\
      run (step st e) events = doCashOut (run st pre) /\
      roundActive (run (step st e) events) = false /\
      balance (run (step st e) events)
      = (balance st + currentBet st
           * payoutMultiplier (safeReveals (run st pre)) (minesCount st)
               (houseEdgePct st))%float).
  { intros Hbal.
    destruct (IH (step st e)) as [E|(pre & post & -> & Ha & Hb & Hs & Hrun & Hoff & Hpay)].
    - left. congruence.
    - right. exists (e :: pre), post.
      change (run st (e :: pre)) with (run (step st e) pre).
      split; [reflexivity|]. split; [exact Ha|]. split; [congruence|].
      split; [exact Hs|]. split; [exact Hrun|]. split; [exact Hoff|].
      rewrite Hpay, Hbal, Hbet, Hmines, Hedge. reflexivity. }
  destruct e as [idx|].
  - apply Hlift. cbn [step].
    destruct (onTileClick_cases idx st) as [->|[(_ & -> & _)|(_ & _ & -> & _)]];
      reflexivity.
  - destruct (doCashOut_pays st) as [E|(Ha & Hs & Hf & E)].
    + apply Hlift. cbn [step]. now rewrite E.
    + right. exists [], events. cbn [app run fold_left step].
      assert (Hoff : roundActive (doCashOut st) = false) by (rewrite E; reflexivity).
      change (fold_left step events (doCashOut st)) with (run (doCashOut st) events).
      rewrite (run_inactive _ events Hoff).
      split; [reflexivity|]. split; [exact Ha|]. split; [reflexivity|].
      split; [exact Hs|]. split; [reflexivity|]. split; [exact Hoff|].
      rewrite E. reflexivity.
Qed.

(** X14. One payout per round, and only by cashing out.  Along any sequence
    of clicks and cash-outs the balance either stays as it is, or it is
    credited exactly once: by the first cash-out that goes through, with the
    bet times the multiplier at the number of safe tiles revealed by then;
    whatever is clicked afterwards changes nothing.  A tile click by itself
    never changes the balance. *)
Theorem balance_credited_once (st : Game) (events : list Event) :
  (forall idx, balance (onTileClick idx st) = balance st) /\
  (balance (run st events) = balance st \/
   exists pre post,
     events = pre ++ CashOut :: post /\
     roundActive (run st pre) = true /\
     balance (run st pre) = balance st /\
     (0 < safeReveals (run st pre))%Z /\
     run st events = doCashOut (run st pre) /\
     roundActive (run st events) = false /\
     balance (run st events)
     = (balance st + currentBet st
          * payoutMultiplier (safeReveals (run st pre)) (minesCount st)
              (houseEdgePct st))%float).
Proof.
  split; [|apply run_balance_cases].
  intros idx.
  destruct (onTileClick_cases idx st) as [->|[(_ & -> & _)|(_ & _ & -> & _)]];
    reflexivity.
Qed.

(** ** Starting a round *)

Lemma deriveMines_total `{WebCrypto} (s c : string) (n k : Z) :
  exists mines ks, deriveMines s c n k = Some (mines, ks).
Proof.
  unfold deriveMines.
  destruct (hazard_set_facts k (Keystream s c n)) as (order & ks' & -> & _).
  cbn. eauto.
Qed.

Lemma startRound_cases `{WebCrypto} (inp : RoundInputs) (st : Game) :
  (roundActive st = true -> startRound inp st = st) /\
  (roundActive st = false -> (balance st <? in_bet inp)%float = true ->
     startRound inp st = clampInputs inp st) /\
  (roundActive st = false -> (balance st <? in_bet inp)%float = false ->
     roundActive (startRound inp st) = true /\
     balance (startRound inp st) = (balance st - in_bet inp)%float /\
     currentBet (startRound inp st) = in_bet inp /\
     nonce (startRound inp st) = (nonce st + 1)%Z /\
     serverSeed (startRound inp st) = Some (bufToHex (vec_to_list (rnd_server inp))) /\
     String.length (bufToHex (vec_to_list (rnd_server inp))) = 64%nat /\
     serverSeedHash (startRound inp st)
     = Some (sha256Hex (bufToHex (vec_to_list (rnd_server inp)))) /\
     serverSeedText (startRound inp st) = dash /\
     clientSeed (startRound inp st)
     = Some (if String.eqb (in_clientSeed inp) EmptyString
             then bufToHex (vec_to_list (rnd_client inp))
             else in_clientSeed inp) /\
     safeReveals (startRound inp st) = 0%Z /\
     revealed (startRound inp st) = ∅ /\
     board (startRound inp st) = freshBoard /\
     badge (startRound inp st) = Live /\
     cashOutDisabled (updateStatusUI (startRound inp st)) = true /\
     verifyDisabled (updateStatusUI (startRound inp st)) = true).
Proof.
  split; [|split].
  - intros Ha. unfold startRound. rewrite Ha. reflexivity.
  - intros Ha Hb. unfold startRound. rewrite Ha.
    change (balance (clampInputs inp st)) with (balance st). rewrite Hb. reflexivity.
  - intros Ha Hb. unfold startRound. rewrite Ha.
    change (balance (clampInputs inp st)) with (balance st). rewrite Hb.
    match goal with |- context [deriveMines ?s ?c ?n ?k] =>
      destruct (deriveMines_total s c n k) as (mines & ks & ->) end.
    cbn -[bufToHex sha256Hex freshBoard dash randomHex String.eqb].
    rewrite !randomHex_bufToHex.
    split; [reflexivity|]. split; [reflexivity|]. split; [reflexivity|].
    split; [reflexivity|]. split; [reflexivity|].
    split; [rewrite bufToHex_length, length_vec_to_list; reflexivity|].
    split; [reflexivity|]. split; [reflexivity|].
    split; [destruct (in_clientSeed inp); reflexivity|].
    split; [reflexivity|]. split; [reflexivity|]. split; [reflexivity|].
    split; [reflexivity|]. split; [reflexivity|].
    unfold updateStatusUI. cbn [verifyDisabled roundActive negb].
    rewrite Bool.andb_false_r. reflexivity.
Qed.

(** X15. What the new-game button does, in all three cases.  During a round
    it does nothing.  With a bet above the balance it only clamps the input
    fields: nothing is charged, no nonce is used up and no seed is drawn.
    Otherwise the round always starts (the shuffle cannot fail): the bet is
    taken from the balance, the nonce goes up by one, the server seed is the
    64 hexadecimal digits of 32 fresh random bytes with its SHA-256 digest
    beside it and the seed text hidden, the client seed is the trimmed input
    or 16 fresh random bytes in hexadecimal, no tile is revealed, the
    cash-out and verify buttons are disabled, verification is refused, and a
    second press of the button changes nothing. *)
Theorem startRound_outcomes `{WebCrypto} (inp : RoundInputs) (st : Game) :
  (roundActive st = true -> startRound inp st = st) /\
  (roundActive st = false -> (balance st <? in_bet inp)%float = true ->
     startRound inp st = clampInputs inp st) /\
  (roundActive st = false -> (balance st <? in_bet inp)%float = false ->
     roundActive (startRound inp st) = true /\
     balance (startRound inp st) = (balance st - in_bet inp)%float /\
     currentBet (startRound inp st) = in_bet inp /\
     nonce (startRound inp st) = (nonce st + 1)%Z /\
     serverSeed (startRound inp st) = Some (bufToHex (vec_to_list (rnd_server inp))) /\
     String.length (bufToHex (vec_to_list (rnd_server inp))) = 64%nat /\
     serverSeedHash (startRound inp st)
     = Some (sha256Hex (bufToHex (vec_to_list (rnd_server inp)))) /\
     serverSeedText (startRound inp st) = dash /\
     clientSeed (startRound inp st)
     = Some (if String.eqb (in_clientSeed inp) EmptyString
             then bufToHex (vec_to_list (rnd_client inp))
             else in_clientSeed inp) /\
     safeReveals (startRound inp st) = 0%Z /\
     revealed (startRound inp st) = ∅ /\
     board (startRound inp st) = freshBoard /\
     badge (startRound inp st) = Live /\
     cashOutDisabled (updateStatusUI (startRound inp st)) = true /\
     verifyDisabled (updateStatusUI (startRound inp st)) = true /\
     verifyCommitment (startRound inp st) = None /\
     startRound inp (startRound inp st) = startRound inp st).
Proof.
  destruct (startRound_cases inp st) as (Hon & Hpoor & Hgo).
  split; [exact Hon|]. split; [exact Hpoor|]. intros Ha Hb.
  destruct (Hgo Ha Hb)
    as (H1 & H2 & H3 & H4 & H5 & H6 & H7 & H8 & H9 & H10 & H11 & H12 & H13 & H14 & H15).
  assert (Hv : verifyCommitment (startRound inp st) = None).
  { unfold verifyCommitment. rewrite H1, H8.
    rewrite !Bool.orb_true_r. reflexivity. }
  assert (Hagain : startRound inp (startRound inp st) = startRound inp st).
  { destruct (startRound_cases inp (startRound inp st)) as (Hon' & _). auto. }
  auto 20.
Qed.

(** ** Every control, any number of rounds *)

Section AllControls.
Context `{WebCrypto}.

Lemma sealed_fields (st st' : Game) :
  serverSeed st' = serverSeed st -> serverSeedHash st' = serverSeedHash st ->
  roundActive st' = roundActive st -> serverSeedText st' = serverSeedText st ->
  sealed st -> sealed st'.
Proof.
  intros Hs Hh Ha Ht [[Hn1 Hn2]|(b & rest & Hs' & Hh' & Ht')].
  - left. split; congruence.
  - right. exists b, rest. rewrite Hs, Hh, Ha, Ht. auto.
Qed.

Lemma sealed_step (st : Game) (e : Event) : sealed st -> sealed (step st e).
Proof.
  intros [[Hn1 Hn2]|Hc].
  - left. destruct (step_keeps_digest st e) as [-> ->]. auto.
  - right. now apply committed_step.
Qed.

Lemma sealed_act (st : Game) (a : Action) : sealed st -> sealed (act st a).
Proof.
  intros Hs. destruct a as [inp|idx| | |inp]; cbn [act].
  - destruct (startRound_cases inp st) as (Hon & Hpoor & Hgo).
    destruct (roundActive st) eqn:Ha; [now rewrite Hon|].
    destruct (balance st <? in_bet inp)%float eqn:Hb.
    + rewrite Hpoor by reflexivity. revert Hs. now apply sealed_fields.
    + right. apply startRound_committed; [exact Ha|]. now apply Hgo.
  - apply (sealed_step st (Click idx) Hs).
  - apply (sealed_step st CashOut Hs).
  - left. split; reflexivity.
  - revert Hs. now apply sealed_fields.
Qed.

Lemma sealed_play (st : Game) (actions : list Action) :
  sealed st -> sealed (play st actions).
Proof.
  revert st. induction actions as [|a actions IH]; intros st Hs; [exact Hs|].
  cbn. apply IH, sealed_act, Hs.
Qed.

(** X16. Verification never reports a mismatch.  From a state that holds no
    seed, as the script starts, and through any sequence of new games, tile
    clicks, cash-outs, next rounds and input changes, over any number of
    rounds, [verifyCommitment] either returns without checking or reports
    that the seed matches its commitment; it reports a match exactly when no
    round is active and a seed is held. *)
Theorem verification_never_fails (st : Game) (actions : list Action) :
  serverSeed st = None -> serverSeedHash st = None ->
  verifyCommitment (play st actions) <> Some false /\
  (verifyCommitment (play st actions) = Some true <->
     roundActive (play st actions) = false /\
     serverSeed (play st actions) <> None).
Proof.
  intros Hs Hh.
  assert (Hsealed : sealed (play st actions)) by (apply sealed_play; left; auto).
  destruct Hsealed as [[Hn1 Hn2]|Hc].
  - unfold verifyCommitment. rewrite Hn1. cbn. split; [discriminate|].
    split; [discriminate|]. intros [_ Hne]. congruence.
  - rewrite (verifyCommitment_committed _ Hc).
    destruct Hc as (b & rest & Hseed & _).
    destruct (roundActive (play st actions)).
    + split; [discriminate|]. split; [discriminate|]. intros [E _]. discriminate E.
    + split; [discriminate|]. split; [|reflexivity].
      intros _. split; [reflexivity|]. rewrite Hseed. discriminate.
Qed.

End AllControls.

Lemma verification_never_fails_witness :
  @verifyCommitment sampleCrypto
    (@play sampleCrypto initialGame
       [NewGame sampleInputs; TileClick 0; CashOutClick; NextRoundClick;
        NewGame sampleInputs; TileClick 7]) <> Some false.
Proof.
  apply (@verification_never_fails sampleCrypto initialGame
           [NewGame sampleInputs; TileClick 0; CashOutClick; NextRoundClick;
            NewGame sampleInputs; TileClick 7]); reflexivity.
Defined.

(** ** The board at the end of a round *)

Lemma markHit_lookup (finalHitIndex : option nat) (tiles : list Tile) (i : nat)
    (t' : Tile) :
  markHit finalHitIndex tiles !! i = Some t' ->
  exists t, tiles !! i = Some t /\ t_class t' = t_class t /\
            t_disabled t' = t_disabled t.
Proof.
  unfold markHit. destruct finalHitIndex as [j|]; [|eauto].
  destruct (tiles !! j) as [tj|] eqn:Ej; [|eauto].
  destruct (decide (i = j)) as [->|Hne].
  - rewrite list_lookup_insert_eq by (eapply lookup_lt_Some; exact Ej).
    intros [= <-]. eauto.
  - rewrite list_lookup_insert_ne by congruence. eauto.
Qed.

Lemma markHit_length (finalHitIndex : option nat) (tiles : list Tile) :
  length (markHit finalHitIndex tiles) = length tiles.
Proof.
  unfold markHit. destruct finalHitIndex as [j|]; [|reflexivity].
  destruct (tiles !! j); [apply length_insert|reflexivity].
Qed.

Lemma revealAll_shows (finalHitIndex : option nat) (mines shown : gset nat)
    (tiles : list Tile) :
  length tiles = 25%nat ->
  (forall i t, tiles !! i = Some t -> i ∉ mines -> i ∈ shown ->
     t_class t = SafeTile /\ t_disabled t = true) ->
  showsMines mines (revealAll finalHitIndex mines shown tiles).
Proof.
  intros Hlen Hshown. unfold revealAll. split.
  - rewrite markHit_length, length_imap. exact Hlen.
  - intros i t' Hi. apply markHit_lookup in Hi as (t1 & Hi & -> & ->).
    rewrite list_lookup_imap in Hi.
    destruct (tiles !! i) as [t|] eqn:Et; [|discriminate Hi].
    cbn in Hi. injection Hi as <-. unfold revealTile.
    destruct (bool_decide (i ∈ mines)) eqn:Em.
    + apply bool_decide_eq_true in Em. cbn. split; [reflexivity|].
      split; [reflexivity|]. intros Hn. contradiction.
    + apply bool_decide_eq_false in Em.
      destruct (bool_decide (i ∈ shown)) eqn:Es.
      * apply bool_decide_eq_true in Es.
        destruct (Hshown i t Et Em Es) as [Hc Hd].
        split; [exact Hd|]. split; [intros Hm; contradiction|]. intros _. exact Hc.
      * cbn. split; [reflexivity|]. split; [intros Hm; contradiction|]. reflexivity.
Qed.

Lemma showsRound_step (st : Game) (e : Event) :
  roundActive st = true -> showsRound st ->
  minesSet (step st e) = minesSet st /\
  ((roundActive (step st e) = true /\ showsRound (step st e)) \/
   (roundActive (step st e) = false /\
    showsMines (minesSet st) (board (step st e)))).
Proof.
  intros Ha (Hlen & Hdisj & Hshow). destruct e as [idx|]; cbn [step].
  - unfold onTileClick. rewrite Ha. cbn [negb].
    destruct (board st !! idx) as [btn|] eqn:Hb;
      [|split; [reflexivity|left; split; [exact Ha|repeat split; assumption]]].
    destruct (bool_decide (idx ∈ revealed st)) eqn:Hr;
      [split; [reflexivity|left; split; [exact Ha|repeat split; assumption]]|].
    destruct (t_disabled btn) eqn:Hd;
      [split; [reflexivity|left; split; [exact Ha|repeat split; assumption]]|].
    cbn [orb]. apply bool_decide_eq_false in Hr.
    destruct (bool_decide (idx ∈ minesSet st)) eqn:Hm.
    + apply bool_decide_eq_true in Hm. cbn [minesSet roundActive board].
      split; [reflexivity|]. right.
      split; [reflexivity|]. apply revealAll_shows.
      * rewrite length_insert. exact Hlen.
      * intros i t Hi Hnm Hin.
        assert (Hne : i <> idx) by (intros ->; contradiction).
        rewrite list_lookup_insert_ne in Hi by congruence.
        destruct (Hshow i t Hi) as [(_ & Hc & Hdd)|(Hnr & _)]; [auto|].
        exfalso. set_solver.
    + apply bool_decide_eq_false in Hm. cbn. split; [reflexivity|]. left.
      split; [reflexivity|]. split; [|split].
      * cbn. rewrite length_insert. exact Hlen.
      * cbn. set_solver.
      * cbn. intros i t Hi. destruct (decide (i = idx)) as [->|Hne].
        -- rewrite list_lookup_insert_eq in Hi by (eapply lookup_lt_Some; exact Hb).
           injection Hi as <-. left. cbn. split; [set_solver|auto].
        -- rewrite list_lookup_insert_ne in Hi by congruence.
           destruct (Hshow i t Hi) as [(Hin & Hc & Hdd)|(Hnr & Hc & Hdd)].
           ++ left. split; [set_solver|auto].
           ++ right. split; [set_solver|auto].
  - destruct (doCashOut_pays st) as [->|(_ & _ & _ & ->)].
    + split; [reflexivity|]. left. split; [exact Ha|repeat split; assumption].
    + cbn [minesSet roundActive board]. split; [reflexivity|]. right.
      split; [reflexivity|]. apply revealAll_shows; [exact Hlen|].
      intros i t Hi _ Hin. destruct (Hshow i t Hi) as [(_ & Hc & Hdd)|(Hnr & _)];
        [auto|contradiction].
Qed.

Lemma showsRound_run (st : Game) (events : list Event) :
  roundActive st = true -> showsRound st ->
  minesSet (run st events) = minesSet st /\
  ((roundActive (run st events) = true /\ showsRound (run st events)) \/
   (roundActive (run st events) = false /\
    showsMines (minesSet st) (board (run st events)))).
Proof.
  revert st. induction events as [|e events IH]; intros st Ha Hs.
  { split; [reflexivity|]. left. auto. }
  change (run st (e :: events)) with (run (step st e) events).
  destruct (showsRound_step st e Ha Hs) as (Hm & [(Ha' & Hs')|(Hoff & Hfin)]).
  - destruct (IH (step st e) Ha' Hs') as (Hm' & Hcases).
    rewrite Hm in Hm', Hcases. auto.
  - rewrite (run_inactive _ events Hoff). auto.
Qed.

(** X17. The board comes clean at the end of every round.  In a round that
    [startRound] started, whatever is clicked: the mine set never changes
    while it runs, the tiles revealed so far are shown safe and the others
    stay hidden and enabled; and once the round is over, by a mine or by a
    cash-out, all 25 tiles are disabled and the tiles shown as mines are
    exactly the mines the round was started with, every other tile being
    shown safe. *)
Theorem final_board_shows_mines `{WebCrypto} (inp : RoundInputs) (st : Game)
    (events : list Event) :
  roundActive st = false -> roundActive (startRound inp st) = true ->
  minesSet (run (startRound inp st) events) = minesSet (startRound inp st) /\
  (roundActive (run (startRound inp st) events) = true ->
     showsRound (run (startRound inp st) events)) /\
  (roundActive (run (startRound inp st) events) = false ->
     length (board (run (startRound inp st) events)) = 25%nat /\
     forall i btn, board (run (startRound inp st) events) !! i = Some btn ->
       t_disabled btn = true /\
       (t_class btn = MineTile <-> i ∈ minesSet (startRound inp st)) /\
       (t_class btn = SafeTile <-> i ∉ minesSet (startRound inp st))).
Proof.
  intros Ha Hon.
  assert (Hfresh : showsRound (startRound inp st)).
  { destruct (startRound_cases inp st) as (_ & Hpoor & Hgo).
    destruct (balance st <? in_bet inp)%float eqn:Hb.
    { rewrite (Hpoor Ha eq_refl) in Hon. cbn in Hon. congruence. }
    destruct (Hgo Ha eq_refl)
      as (_ & _ & _ & _ & _ & _ & _ & _ & _ & _ & Hrev & Hboard & _).
    unfold showsRound. rewrite Hrev, Hboard. split; [reflexivity|].
    split; [set_solver|]. intros i btn Hi. apply freshBoard_lookup in Hi.
    subst btn. right. cbn. split; [set_solver|auto]. }
  destruct (showsRound_run _ events Hon Hfresh) as (Hm & Hcases).
  split; [exact Hm|]. split.
  - intros Hlive. destruct Hcases as [[_ Hs]|[Hoff _]]; [exact Hs|congruence].
  - intros Hoff. destruct Hcases as [[Hlive _]|[_ (Hlen & Hfin)]]; [congruence|].
    split; [exact Hlen|]. intros i btn Hi.
    destruct (Hfin i btn Hi) as (Hd & Hmine & Hsafe).
    split; [exact Hd|].
    destruct (decide (i ∈ minesSet (startRound inp st))) as [Hin|Hnin].
    + split; split; intros; auto; try contradiction.
      rewrite (Hmine Hin) in *. discriminate.
    + split; split; intros; auto; try contradiction.
      rewrite (Hsafe Hnin) in *. discriminate.
Qed.

Lemma final_board_shows_mines_witness :
  minesSet (run (@startRound sampleCrypto sampleInputs initialGame) [Click 0; CashOut])
  = minesSet (@startRound sampleCrypto sampleInputs initialGame).
Proof.
  apply (@final_board_shows_mines sampleCrypto sampleInputs initialGame
           [Click 0; CashOut]).
  - reflexivity.
  - vm_compute. reflexivity.
Defined.

(** ** The input fields during a round *)

(** X18. The multiplier is priced from the input fields as they are when
    the player cashes out, not as they were when the mines were placed.
    [clampInputs] runs on every change of a field, also during a round: it
    replaces [minesCount] and [houseEdgePct] and leaves the mines where they
    are, and the cash-out that follows pays the bet times the multiplier of
    the new mine count and edge (whenever that multiplier is finite). *)
Theorem cash_out_prices_current_inputs (inp : RoundInputs) (st : Game) :
  roundActive st = true -> (0 < safeReveals st)%Z ->
  is_finite (payoutMultiplier (safeReveals st) (clampMines (in_mines inp))
               (clampEdge (in_edge inp))) = true ->
  minesSet (clampInputs inp st) = minesSet st /\
  roundActive (clampInputs inp st) = true /\
  cashOutDisabled (updateStatusUI (clampInputs inp st)) = false /\
  balance (doCashOut (clampInputs inp st))
  = (balance st + currentBet st
       * payoutMultiplier (safeReveals st) (clampMines (in_mines inp))
           (clampEdge (in_edge inp)))%float.
Proof.
  intros Ha Hs Hf. split; [reflexivity|]. split; [exact Ha|]. split.
  - unfold updateStatusUI. cbn. rewrite Ha, Hf.
    destruct (Z.ltb_spec 0 (safeReveals st)); [reflexivity|lia].
  - unfold doCashOut. cbn. rewrite Ha, Hf. cbn.
    destruct (Z.leb_spec (safeReveals st) 0); [lia|reflexivity].
Qed.

Lemma cash_out_prices_current_inputs_witness :
  (minesSet (clampInputs manyMines cautiousRound) = minesSet cautiousRound /\
   roundActive (clampInputs manyMines cautiousRound) = true /\
   cashOutDisabled (updateStatusUI (clampInputs manyMines cautiousRound)) = false /\
   balance (doCashOut (clampInputs manyMines cautiousRound))
   = (balance cautiousRound + currentBet cautiousRound
        * payoutMultiplier (safeReveals cautiousRound) (clampMines (in_mines manyMines))
            (clampEdge (in_edge manyMines)))%float) /\
  size (minesSet cautiousRound) = 1%nat /\
  balance (doCashOut cautiousRound) = 1000.4166666666666%float /\
  balance (doCashOut (clampInputs manyMines cautiousRound)) = 1240%float.
Proof.
  split.
  - apply (cash_out_prices_current_inputs manyMines cautiousRound);
      vm_compute; reflexivity.
  - repeat split; vm_compute; reflexivity.
Defined.

(** ** The counters over any play *)

Lemma onTileClick_on_board (idx : nat) (st : Game) :
  idx ∉ revealed st -> revealed (onTileClick idx st) = {[idx]} ∪ revealed st ->
  (idx < length (board st))%nat.
Proof.
  intros Hnr. unfold onTileClick.
  destruct (negb (roundActive st)); [set_solver|].
  destruct (board st !! idx) as [btn|] eqn:Hb; [|set_solver].
  intros _. eapply lookup_lt_Some. exact Hb.
Qed.

Lemma board_set_size (X : gset nat) :
  (forall i, i ∈ X -> (i < 25)%nat) -> (size X <= 25)%nat.
Proof.
  intros HX.
  assert (Hsub : X ⊆ (set_seq 0 25 : gset nat)).
  { intros i Hi. apply elem_of_set_seq. specialize (HX i Hi). lia. }
  apply subseteq_size in Hsub. rewrite size_set_seq in Hsub. exact Hsub.
Qed.

Lemma tallied_fields (st st' : Game) :
  safeReveals st' = safeReveals st -> revealed st' = revealed st ->
  minesSet st' = minesSet st -> roundActive st' = roundActive st ->
  board st' = board st -> tallied st -> tallied st'.
Proof.
  unfold tallied, countsSafeTiles, liveRound.
  intros -> -> -> -> ->. auto.
Qed.

Section Counters.
Context `{WebCrypto}.

Lemma startRound_mines (inp : RoundInputs) (st : Game) :
  roundActive st = false -> roundActive (startRound inp st) = true ->
  (1 <= size (minesSet (startRound inp st)) <= 24)%nat.
Proof.
  intros Ha Hon.
  destruct (startRound_started inp st Ha Hon) as (s & c & ks & _ & _ & _ & Hm & E).
  pose proof (clampMines_range (in_mines inp)) as Hrange. rewrite <- Hm in Hrange.
  unfold deriveMines in E.
  destruct (hazard_set_facts (minesCount (startRound inp st))
              (Keystream s c (nonce (startRound inp st))))
    as (order & ks' & E' & _ & _ & Hs & _).
  rewrite E' in E. cbn in E. injection E as E _. rewrite <- E.
  rewrite Hs by lia. lia.
Qed.

Lemma tallied_act (st : Game) (a : Action) : tallied st -> tallied (act st a).
Proof.
  intros Ht. destruct a as [inp|idx| | |inp]; cbn [act].
  - destruct (startRound_cases inp st) as (Hon & Hpoor & Hgo).
    destruct (roundActive st) eqn:Ha; [now rewrite Hon|].
    destruct (balance st <? in_bet inp)%float eqn:Hb.
    { rewrite Hpoor by reflexivity. revert Ht. now apply tallied_fields. }
    destruct (Hgo eq_refl eq_refl)
      as (Hlive & _ & _ & _ & _ & _ & _ & _ & _ & Hsafe & Hrev & _).
    split; [apply startRound_committed; assumption|].
    split; [rewrite Hsafe; lia|].
    split; [now apply startRound_live|].
    intros _. split; [now apply startRound_mines|].
    rewrite Hrev. set_solver.
  - destruct Ht as (Hc & Hb & Hl & Hm).
    pose proof (countsSafeTiles_step st (Click idx) Hc) as Hc'.
    pose proof (liveRound_step st (Click idx) Hl) as Hl'.
    cbn [step] in Hc', Hl'.
    destruct (onTileClick_cases idx st)
      as [E|[(Hoff & _ & Hs & _)|(Ha & Ha' & _ & Hs & Hms & Hr & Hnm & Hnr)]].
    + rewrite E. split; [exact Hc|]. split; [exact Hb|]. split; [exact Hl|exact Hm].
    + split; [exact Hc'|]. split; [rewrite Hs; exact Hb|]. split; [exact Hl'|].
      rewrite Hoff. discriminate.
    + pose proof (onTileClick_on_board idx st Hnr Hr) as Hidx.
      destruct (Hl Ha) as (Hlen & Hrange & _).
      destruct (Hl' Ha') as (_ & _ & Hdisj' & _).
      destruct (Hm Ha) as (Hsize & Hrev).
      assert (Hrev' : forall i, i ∈ revealed (onTileClick idx st) -> (i < 25)%nat).
      { intros i. rewrite Hr. intros Hi.
        apply elem_of_union in Hi as [Hi|Hi]; [|now apply Hrev].
        apply elem_of_singleton in Hi. subst i. rewrite <- Hlen. exact Hidx. }
      split; [exact Hc'|]. split; [|split; [exact Hl'|]].
      * unfold countsSafeTiles in Hc'. rewrite Hc'. rewrite Hms in Hdisj' |- *.
        set (R := revealed (onTileClick idx st)) in *.
        assert (HRM : R ∖ minesSet st = R) by set_solver. rewrite HRM.
        assert (Hall : (size (R ∪ minesSet st) <= 25)%nat).
        { apply board_set_size. intros i Hi.
          apply elem_of_union in Hi as [Hi|Hi]; [now apply Hrev'|now apply Hrange]. }
        rewrite (size_union R (minesSet st)) in Hall by exact Hdisj'. lia.
      * intros _. rewrite Hms. split; [exact Hsize|exact Hrev'].
  - destruct Ht as (Hc & Hb & Hl & Hm).
    pose proof (countsSafeTiles_step st CashOut Hc) as Hc'.
    pose proof (liveRound_step st CashOut Hl) as Hl'.
    cbn [step] in Hc', Hl'.
    destruct (doCashOut_cases st) as [E|(Hoff & Hs & _)].
    { rewrite E. split; [exact Hc|]. split; [exact Hb|]. split; [exact Hl|exact Hm]. }
    split; [exact Hc'|]. split; [rewrite Hs; exact Hb|]. split; [exact Hl'|].
    rewrite Hoff. discriminate.
  - destruct Ht as (Hc & Hb & Hl & Hm).
    split; [|split; [|split]].
    + unfold countsSafeTiles. cbn.
      replace (∅ ∖ minesSet st) with (∅ : gset nat) by set_solver. reflexivity.
    + cbn. lia.
    + intros Ha. cbn in Ha. destruct (Hl Ha) as (_ & Hrange & _). cbn.
      split; [reflexivity|]. split; [exact Hrange|]. split; [set_solver|].
      intros i btn Hi. apply freshBoard_lookup in Hi. subst btn. cbn.
      split; [discriminate|set_solver].
    + intros Ha. cbn in Ha. destruct (Hm Ha) as (Hsize & _). cbn.
      split; [exact Hsize|set_solver].
  - revert Ht. now apply tallied_fields.
Qed.

Lemma nonce_act (st : Game) (a : Action) : (nonce st <= nonce (act st a))%Z.
Proof.
  destruct a as [inp|idx| | |inp]; cbn [act].
  - destruct (startRound_cases inp st) as (Hon & Hpoor & Hgo).
    destruct (roundActive st) eqn:Ha; [rewrite Hon by reflexivity; lia|].
    destruct (balance st <? in_bet inp)%float eqn:Hb.
    + rewrite Hpoor by reflexivity. cbn. lia.
    + destruct (Hgo eq_refl eq_refl) as (_ & _ & _ & -> & _). lia.
  - destruct (onTileClick_cases idx st) as [->|[E|E]]; [lia| |].
    + unfold onTileClick in *. destruct (negb (roundActive st)); [lia|].
      destruct (board st !! idx); [|lia]. destruct (_ || _); [lia|].
      destruct (bool_decide _); cbn; lia.
    + unfold onTileClick in *. destruct (negb (roundActive st)); [lia|].
      destruct (board st !! idx); [|lia]. destruct (_ || _); [lia|].
      destruct (bool_decide _); cbn; lia.
  - destruct (doCashOut_pays st) as [->|(_ & _ & _ & ->)]; cbn; lia.
  - cbn. lia.
  - cbn. lia.
Qed.

(** X19. The counters stay right over any play.  From a state with no round
    active and nothing revealed, as the script starts, and through any
    sequence of new games, tile clicks, cash-outs, next rounds and input
    changes: [safeReveals] is the number of distinct safe tiles revealed and
    lies in [0,24]; while a round is live the board has its 25 buttons, the
    mines are between 1 and 24 tiles of it, none of them revealed, a button
    is disabled exactly when its tile is revealed, and the safe tiles
    revealed and the mines together never exceed the 25 tiles; and the nonce
    never goes down. *)
Theorem play_bookkeeping (st : Game) (actions : list Action) :
  roundActive st = false -> revealed st = ∅ -> safeReveals st = 0%Z ->
  countsSafeTiles (play st actions) /\
  (0 <= safeReveals (play st actions) <= 24)%Z /\
  liveRound (play st actions) /\
  (roundActive (play st actions) = true ->
     (1 <= size (minesSet (play st actions)) <= 24)%nat /\
     (safeReveals (play st actions)
      + Z.of_nat (size (minesSet (play st actions))) <= 25)%Z) /\
  (nonce st <= nonce (play st actions))%Z.
Proof.
  intros Ha Hr Hs.
  assert (Hinit : tallied st).
  { split; [|split; [|split]].
    - unfold countsSafeTiles. rewrite Hr, Hs.
      replace (∅ ∖ minesSet st) with (∅ : gset nat) by set_solver. reflexivity.
    - lia.
    - intros Hon. congruence.
    - intros Hon. congruence. }
  assert (Hplay : forall acts s, tallied s -> tallied (play s acts)).
  { induction acts as [|a acts IH]; intros s Hts; [exact Hts|].
    cbn. apply IH, tallied_act, Hts. }
  assert (Hnonce : forall acts s, (nonce s <= nonce (play s acts))%Z).
  { induction acts as [|a acts IH]; intros s; [cbn; lia|].
    cbn. pose proof (nonce_act s a). specialize (IH (act s a)).
    unfold play in IH. lia. }
  destruct (Hplay actions st Hinit) as (Hc & Hb & Hl & Hm).
  split; [exact Hc|]. split; [exact Hb|]. split; [exact Hl|].
  split; [|apply Hnonce].
  intros Hon. destruct (Hm Hon) as (Hsize & Hrev). split; [exact Hsize|].
  destruct (Hl Hon) as (_ & Hrange & Hdisj & _).
  unfold countsSafeTiles in Hc. rewrite Hc.
  set (R := revealed (play st actions)) in *.
  set (M := minesSet (play st actions)) in *.
  assert (HRM : R ∖ M = R) by set_solver. rewrite HRM.
  assert (Hall : (size (R ∪ M) <= 25)%nat).
  { apply board_set_size. intros i Hi.
    apply elem_of_union in Hi as [Hi|Hi]; [now apply Hrev|now apply Hrange]. }
  rewrite (size_union R M) in Hall by exact Hdisj. lia.
Qed.

End Counters.

Lemma play_bookkeeping_witness :
  safeReveals
    (@play sampleCrypto initialGame
       [NewGame sampleInputs; TileClick 0; TileClick 0; TileClick 1; NextRoundClick;
        InputChange manyMines; TileClick 0]) = 1%Z.
Proof.
  pose proof (@play_bookkeeping sampleCrypto initialGame
       [NewGame sampleInputs; TileClick 0; TileClick 0; TileClick 1; NextRoundClick;
        InputChange manyMines; TileClick 0] eq_refl eq_refl eq_refl) as (Hc & _).
  unfold countsSafeTiles in Hc. rewrite Hc. vm_compute. reflexivity.
Defined.

(** ** Keyboard focus *)

Lemma firstEnabledFrom_spec (tiles : list Tile) (i : nat) :
  match firstEnabledFrom i tiles with
  | Some k => exists j, k = (i + j)%nat /\ firstEnabled tiles j
  | None => forall j, ~ enabledAt tiles j
  end.
Proof.
  revert i. induction tiles as [|t rest IH]; intros i; cbn [firstEnabledFrom].
  - intros j (t & Ht & _). discriminate Ht.
  - destruct (t_disabled t) eqn:Hd.
    + specialize (IH (S i)). destruct (firstEnabledFrom (S i) rest) as [k|].
      * destruct IH as (j & -> & (tj & Hj & Hdj) & Hleast).
        exists (S j). split; [lia|]. split; [exists tj; auto|].
        intros [|j'] (t' & Ht' & Hd'); cbn in Ht'.
        -- injection Ht' as <-. congruence.
        -- apply le_n_S, Hleast. exists t'. auto.
      * intros [|j] (t' & Ht' & Hd'); cbn in Ht'.
        -- injection Ht' as <-. congruence.
        -- apply (IH j). exists t'. auto.
    + exists 0%nat. split; [lia|]. split; [exists t; auto|]. intros j _. lia.
Qed.

Lemma hasFocusable_spec (tiles : list Tile) (current : nat) :
  existsb id (imap (focusable current) tiles) = true <-> enabledAt tiles current.
Proof.
  rewrite existsb_exists. split.
  - intros (b & Hin & Hb). unfold id in Hb. subst b.
    apply list_elem_of_In, elem_of_lookup_imap in Hin as (i & t & Hf & Ht).
    symmetry in Hf. unfold focusable in Hf.
    apply andb_prop in Hf as [Hi Hd]. apply Nat.eqb_eq in Hi. subst i.
    exists t. split; [exact Ht|]. now destruct (t_disabled t).
  - intros (t & Ht & Hd). exists true. split; [|reflexivity].
    apply list_elem_of_In, elem_of_lookup_imap. exists current, t.
    split; [|exact Ht]. unfold focusable. rewrite Nat.eqb_refl, Hd. reflexivity.
Qed.

Lemma tabs_lookup (tiles : list Tile) (current i : nat) :
  imap (fun i t => if focusable current i t then 0%Z else (-1)%Z) tiles !! i = Some 0%Z
  <-> i = current /\ enabledAt tiles i.
Proof.
  rewrite list_lookup_imap. destruct (tiles !! i) as [t|] eqn:Ht; cbn.
  - unfold focusable. destruct (Nat.eqb_spec i current) as [->|Hne]; cbn.
    + destruct (t_disabled t) eqn:Hd; cbn.
      * split; [discriminate|]. intros [_ (t' & Ht' & Hd')]. congruence.
      * split; [|reflexivity]. intros _. split; [reflexivity|]. exists t. auto.
    + split; [discriminate|]. intros [E _]. contradiction.
  - split; [discriminate|]. intros [_ (t' & Ht' & _)]. congruence.
Qed.

Lemma tabs_values (tiles : list Tile) (current i : nat) (z : Z) :
  imap (fun i t => if focusable current i t then 0%Z else (-1)%Z) tiles !! i = Some z ->
  z = 0%Z \/ z = (-1)%Z.
Proof.
  rewrite list_lookup_imap. destruct (tiles !! i) as [t|]; cbn; [|discriminate].
  intros [= <-]. destruct (focusable current i t); auto.
Qed.

Lemma applyRovingTabindex_spec (tiles : list Tile) (current : nat) :
  length (tabIndex (applyRovingTabindex tiles current)) = length tiles /\
  (forall i z, tabIndex (applyRovingTabindex tiles current) !! i = Some z ->
     z = 0%Z \/ z = (-1)%Z) /\
  (forall i, tabIndex (applyRovingTabindex tiles current) !! i = Some 0%Z <->
     i = focusIndex (applyRovingTabindex tiles current) /\ enabledAt tiles i) /\
  ((exists j, enabledAt tiles j) ->
     enabledAt tiles (focusIndex (applyRovingTabindex tiles current))) /\
  (enabledAt tiles current ->
     focusIndex (applyRovingTabindex tiles current) = current) /\
  (~ enabledAt tiles current -> (exists j, enabledAt tiles j) ->
     firstEnabled tiles (focusIndex (applyRovingTabindex tiles current))) /\
  ((forall j, ~ enabledAt tiles j) ->
     focusIndex (applyRovingTabindex tiles current) = current).
Proof.
  unfold applyRovingTabindex.
  pose proof (hasFocusable_spec tiles current) as Hhas.
  destruct (existsb id (imap (focusable current) tiles)).
  - assert (Hcur : enabledAt tiles current) by now apply Hhas.
    cbn [tabIndex focusIndex].
    split; [apply length_imap|]. split; [apply tabs_values|].
    split; [apply tabs_lookup|]. split; [auto|]. split; [auto|].
    split; [intros Hn; contradiction|]. intros Hnone. destruct (Hnone _ Hcur).
  - assert (Hcur : ~ enabledAt tiles current).
    { intros Hc. apply Hhas in Hc. discriminate Hc. }
    assert (Hminus : forall i,
      imap (fun i t => if focusable current i t then 0%Z else (-1)%Z) tiles !! i
      <> Some 0%Z).
    { intros i Hi. apply tabs_lookup in Hi as [-> Hen]. contradiction. }
    pose proof (firstEnabledFrom_spec tiles 0) as Hfirst.
    destruct (firstEnabledFrom 0 tiles) as [k|].
    + destruct Hfirst as (j & -> & Hj). cbn [Nat.add tabIndex focusIndex].
      assert (Hlt : (j < length tiles)%nat).
      { destruct Hj as [(t & Ht & _) _]. eapply lookup_lt_Some. exact Ht. }
      split; [now rewrite length_insert, length_imap|]. split.
      { intros i z. destruct (decide (i = j)) as [->|Hne].
        - rewrite list_lookup_insert_eq by now rewrite length_imap.
          intros [= <-]. auto.
        - rewrite list_lookup_insert_ne by congruence. apply tabs_values. }
      split.
      { intros i. destruct (decide (i = j)) as [->|Hne].
        - rewrite list_lookup_insert_eq by now rewrite length_imap.
          split; [intros _; split; [reflexivity|apply Hj]|reflexivity].
        - rewrite list_lookup_insert_ne by congruence.
          split; [intros Hi; destruct (Hminus i Hi)|intros [E _]; contradiction]. }
      split; [intros _; apply Hj|]. split; [intros Hc; contradiction|].
      split; [intros _ _; exact Hj|].
      intros Hnone. destruct Hj as [Hen _]. destruct (Hnone _ Hen).
    + cbn [tabIndex focusIndex].
      split; [apply length_imap|]. split; [apply tabs_values|]. split.
      { intros i. split; [intros Hi; destruct (Hminus i Hi)|].
        intros [_ Hen]. destruct (Hfirst _ Hen). }
      split; [intros [j Hj]; destruct (Hfirst _ Hj)|].
      split; [intros Hc; contradiction|].
      split; [intros _ [j Hj]; destruct (Hfirst _ Hj)|]. reflexivity.
Qed.

(** X20. [applyRovingTabindex] leaves the grid with one tab stop, on an
    enabled tile.  Every tile gets tab index 0 or -1; no two tiles have tab
    index 0, and a tile that has it is [focusIndex] and is enabled; whenever
    some tile is enabled [focusIndex] is such a tile.  [focusIndex] stays
    where it was if that tile is enabled, moves to the first enabled tile of
    the board if it is not, and stays (with no tab stop at all) when every
    tile is disabled. *)
Theorem roving_tabindex_single_stop (tiles : list Tile) (current : nat) :
  length (tabIndex (applyRovingTabindex tiles current)) = length tiles /\
  (forall i z, tabIndex (applyRovingTabindex tiles current) !! i = Some z ->
     z = 0%Z \/ z = (-1)%Z) /\
  (forall i j,
     tabIndex (applyRovingTabindex tiles current) !! i = Some 0%Z ->
     tabIndex (applyRovingTabindex tiles current) !! j = Some 0%Z -> i = j) /\
  (forall i, tabIndex (applyRovingTabindex tiles current) !! i = Some 0%Z ->
     i = focusIndex (applyRovingTabindex tiles current) /\ enabledAt tiles i) /\
  ((exists j, enabledAt tiles j) ->
     enabledAt tiles (focusIndex (applyRovingTabindex tiles current)) /\
     tabIndex (applyRovingTabindex tiles current)
       !! focusIndex (applyRovingTabindex tiles current) = Some 0%Z) /\
  (enabledAt tiles current ->
     focusIndex (applyRovingTabindex tiles current) = current) /\
  (~ enabledAt tiles current -> (exists j, enabledAt tiles j) ->
     firstEnabled tiles (focusIndex (applyRovingTabindex tiles current))) /\
  ((forall j, ~ enabledAt tiles j) ->
     focusIndex (applyRovingTabindex tiles current) = current /\
     forall i, tabIndex (applyRovingTabindex tiles current) !! i <> Some 0%Z).
Proof.
  destruct (applyRovingTabindex_spec tiles current)
    as (Hlen & Hvals & Htab & Hone & Hkeep & Hfirst & Hnone).
  split; [exact Hlen|]. split; [exact Hvals|]. split; [|split; [|split]].
  - intros i j Hi Hj. apply Htab in Hi as [-> _]. apply Htab in Hj as [-> _].
    reflexivity.
  - intros i Hi. now apply Htab.
  - intros Hex. split; [now apply Hone|]. apply Htab. split; [reflexivity|].
    now apply Hone.
  - split; [exact Hkeep|]. split; [exact Hfirst|].
    intros Hall. split; [now apply Hnone|].
    intros i Hi. apply Htab in Hi as [_ Hen]. destruct (Hall i Hen).
Qed.

Lemma arrowTarget_spec (c : nat) :
  (c < 25)%nat ->
  arrowTarget ArrowRight c = Some (if (c mod 5 =? 4)%nat then c else c + 1)%nat /\
  arrowTarget ArrowLeft c = Some (if (c mod 5 =? 0)%nat then c else c - 1)%nat /\
  arrowTarget ArrowDown c = Some (if (c / 5 =? 4)%nat then c else c + 5)%nat /\
  arrowTarget ArrowUp c = Some (if (c / 5 =? 0)%nat then c else c - 5)%nat.
Proof.
  intros Hc.
  assert (T : ltac:(let t := eval unfold arrowTable in arrowTable in
                    exact (t = true))) by (vm_compute; reflexivity).
  rewrite forallb_forall in T. specialize (T c ltac:(apply in_seq; lia)).
  cbv zeta in T.
  destruct (arrowTarget ArrowRight c) as [r|]; [|discriminate T].
  destruct (arrowTarget ArrowLeft c) as [l|]; [|discriminate T].
  destruct (arrowTarget ArrowDown c) as [d|]; [|discriminate T].
  destruct (arrowTarget ArrowUp c) as [u|]; [|discriminate T].
  apply andb_prop in T as [T Hu]. apply andb_prop in T as [T Hd].
  apply andb_prop in T as [Hr Hl].
  apply Nat.eqb_eq in Hr, Hl, Hd, Hu. subst. auto.
Qed.

(** X21. The arrow keys never leave the board and never wrap around.  From
    a tile of the 5 by 5 board an arrow aims one step in its direction, at
    the same tile when it is on that edge.  If the tile aimed at is enabled
    it becomes [focusIndex] and receives the focus.  If it is disabled, a
    tile already revealed, the focus does not skip over it: [focusIndex]
    goes to the first enabled tile of the whole board, wherever the key
    pointed, and with every tile disabled nothing is focused.  Any other key
    is ignored. *)
Theorem arrow_keys_stay_on_board (key : Key) (tiles : list Tile) (current : nat) :
  length tiles = 25%nat -> (current < 25)%nat ->
  onGridKeydown OtherKey tiles current = None /\
  (key <> OtherKey ->
   exists next f focused,
     arrowTarget key current = Some next /\
     onGridKeydown key tiles current = Some (f, focused) /\
     (next < 25)%nat /\ (focusIndex f < 25)%nat /\
     next = match key with
            | ArrowRight => if (current mod 5 =? 4)%nat then current else current + 1
            | ArrowLeft => if (current mod 5 =? 0)%nat then current else current - 1
            | ArrowDown => if (current / 5 =? 4)%nat then current else current + 5
            | _ => if (current / 5 =? 0)%nat then current else current - 5
            end%nat /\
     (enabledAt tiles next -> focusIndex f = next /\ focused = Some next) /\
     (~ enabledAt tiles next -> (exists j, enabledAt tiles j) ->
        firstEnabled tiles (focusIndex f) /\ focused = Some (focusIndex f)) /\
     ((forall j, ~ enabledAt tiles j) -> focusIndex f = next /\ focused = None)).
Proof.
  intros Hlen Hc. split; [reflexivity|]. intros Hkey.
  destruct (arrowTarget_spec current Hc) as (Hr & Hl & Hd & Hu).
  assert (Hnext : exists next, arrowTarget key current = Some next /\
            (next < 25)%nat /\
            next = match key with
                   | ArrowRight => if (current mod 5 =? 4)%nat then current else current + 1
                   | ArrowLeft => if (current mod 5 =? 0)%nat then current else current - 1
                   | ArrowDown => if (current / 5 =? 4)%nat then current else current + 5
                   | _ => if (current / 5 =? 0)%nat then current else current - 5
                   end%nat).
  { destruct key; [| | | |contradiction]; eexists; (split; [eassumption|]);
      (split; [|reflexivity]).
    - destruct (Nat.eqb_spec (current mod 5) 4); [lia|].
      pose proof (Nat.div_mod_eq current 5).
      pose proof (Nat.mod_upper_bound current 5 ltac:(lia)).
      assert (current / 5 < 5)%nat by (apply Nat.Div0.div_lt_upper_bound; lia). lia.
    - destruct (Nat.eqb_spec (current mod 5) 0); lia.
    - destruct (Nat.eqb_spec (current / 5) 4); [lia|].
      pose proof (Nat.div_mod_eq current 5).
      pose proof (Nat.mod_upper_bound current 5 ltac:(lia)).
      assert (current / 5 < 5)%nat by (apply Nat.Div0.div_lt_upper_bound; lia). lia.
    - destruct (Nat.eqb_spec (current / 5) 0); lia. }
  destruct Hnext as (next & Hnext & Hlt & Hval).
  destruct (applyRovingTabindex_spec tiles next)
    as (_ & _ & _ & Hone & Hkeep & Hfirst & Hnone).
  unfold onGridKeydown. rewrite Hnext.
  exists next. do 2 eexists. split; [reflexivity|]. split; [reflexivity|].
  split; [exact Hlt|].
  set (f := applyRovingTabindex tiles next) in *.
  assert (Hfocus : enabledAt tiles (focusIndex f) ->
            match tiles !! focusIndex f with
            | Some btn => if t_disabled btn then None else Some (focusIndex f)
            | None => None
            end = Some (focusIndex f)).
  { intros (t & -> & ->). reflexivity. }
  assert (Hany : enabledAt tiles next \/ ~ enabledAt tiles next).
  { unfold enabledAt. destruct (tiles !! next) as [t|]; [|right; intros (? & ? & _); discriminate].
    destruct (t_disabled t) eqn:Hd'; [right|left; eauto].
    intros (t' & [= <-] & Hd''). congruence. }
  split.
  { destruct Hany as [Hen|Hdis]; [rewrite (Hkeep Hen); exact Hlt|].
    pose proof (firstEnabledFrom_spec tiles 0) as Hspec.
    destruct (firstEnabledFrom 0 tiles) as [k|].
    - destruct Hspec as (j & _ & Hj & _).
      destruct (Hfirst Hdis (ex_intro _ j Hj)) as [(t & Ht & _) _].
      rewrite <- Hlen. eapply lookup_lt_Some. exact Ht.
    - rewrite (Hnone Hspec). exact Hlt. }
  split; [exact Hval|]. split; [|split].
  - intros Hen. pose proof (Hkeep Hen) as E. split; [exact E|].
    rewrite Hfocus by (rewrite E; exact Hen). now rewrite E.
  - intros Hdis Hex. pose proof (Hfirst Hdis Hex) as Hf. split; [exact Hf|].
    apply Hfocus, Hf.
  - intros Hall. split; [now apply Hnone|].
    destruct (tiles !! focusIndex f) as [t|] eqn:Ht; [|reflexivity].
    destruct (t_disabled t) eqn:Hd'; [reflexivity|].
    destruct (Hall (focusIndex f)). exists t. auto.
Qed.

Lemma arrow_keys_stay_on_board_witness :
  exists next f focused,
    arrowTarget ArrowRight 4 = Some next /\
    onGridKeydown ArrowRight freshBoard 4 = Some (f, focused) /\
    (next < 25)%nat /\ (focusIndex f < 25)%nat /\
    next = (if (4 mod 5 =? 4)%nat then 4 else 4 + 1)%nat /\
    (enabledAt freshBoard next -> focusIndex f = next /\ focused = Some next) /\
    (~ enabledAt freshBoard next -> (exists j, enabledAt freshBoard j) ->
       firstEnabled freshBoard (focusIndex f) /\ focused = Some (focusIndex f)) /\
    ((forall j, ~ enabledAt freshBoard j) -> focusIndex f = next /\ focused = None).
Proof.
  apply (arrow_keys_stay_on_board ArrowRight freshBoard 4);
    [reflexivity|lia|discriminate].
Defined.

Lemma nextAvailable_spec (tiles : list Tile) (fuel i : nat) :
  match nextAvailable fuel i tiles with
  | Some k => (i <= k < i + fuel)%nat /\ enabledAt tiles k /\
              forall j, (i <= j < k)%nat -> ~ enabledAt tiles j
  | None => forall j, (i <= j < i + fuel)%nat -> ~ enabledAt tiles j
  end.
Proof.
  revert i. induction fuel as [|fuel IH]; intros i; cbn [nextAvailable].
  { intros j Hj. lia. }
  assert (Hskip : ~ enabledAt tiles i ->
    match nextAvailable fuel (S i) tiles with
    | Some k => (i <= k < i + S fuel)%nat /\ enabledAt tiles k /\
                forall j, (i <= j < k)%nat -> ~ enabledAt tiles j
    | None => forall j, (i <= j < i + S fuel)%nat -> ~ enabledAt tiles j
    end).
  { intros Hi. specialize (IH (S i)).
    destruct (nextAvailable fuel (S i) tiles) as [k|].
    - destruct IH as (Hk & Hen & Hbefore). split; [lia|]. split; [exact Hen|].
      intros j Hj. destruct (decide (j = i)) as [->|Hne]; [exact Hi|].
      apply Hbefore. lia.
    - intros j Hj. destruct (decide (j = i)) as [->|Hne]; [exact Hi|].
      apply IH. lia. }
  destruct (tiles !! i) as [btn|] eqn:Hb.
  - destruct (t_disabled btn) eqn:Hd.
    + apply Hskip. intros (t & Ht & Hd'). congruence.
    + split; [lia|]. split; [exists btn; auto|]. intros j Hj. lia.
  - apply Hskip. intros (t & Ht & _). congruence.
Qed.

(** X22. After a safe pick the focus moves forward.
    [moveFocusToNextAvailable(fromIndex)] puts [focusIndex], and the one tab
    stop, on the nearest enabled tile after [fromIndex]; it never moves
    backwards to do so.  Only when no tile after [fromIndex] is enabled does
    it fall back on [applyRovingTabindex] with [focusIndex] as it was.
    Either way, if any tile of the board is still enabled, [focusIndex] ends
    on an enabled tile. *)
Theorem focus_moves_forward (fromIndex : nat) (tiles : list Tile) (current : nat) :
  (forall k, (fromIndex < k < 25)%nat -> enabledAt tiles k ->
     (forall j, (fromIndex < j < k)%nat -> ~ enabledAt tiles j) ->
     focusIndex (moveFocusToNextAvailable fromIndex tiles current) = k /\
     tabIndex (moveFocusToNextAvailable fromIndex tiles current) !! k = Some 0%Z) /\
  ((forall k, (fromIndex < k < 25)%nat -> ~ enabledAt tiles k) ->
     moveFocusToNextAvailable fromIndex tiles current
     = applyRovingTabindex tiles current) /\
  ((exists j, enabledAt tiles j) ->
     enabledAt tiles (focusIndex (moveFocusToNextAvailable fromIndex tiles current)) /\
     forall i, tabIndex (moveFocusToNextAvailable fromIndex tiles current) !! i
               = Some 0%Z
               <-> i = focusIndex (moveFocusToNextAvailable fromIndex tiles current)).
Proof.
  unfold moveFocusToNextAvailable.
  pose proof (nextAvailable_spec tiles (25 - (fromIndex + 1)) (fromIndex + 1)) as Hspec.
  destruct (nextAvailable (25 - (fromIndex + 1)) (fromIndex + 1) tiles) as [n|].
  - destruct Hspec as (Hn & Hen & Hbefore).
    destruct (applyRovingTabindex_spec tiles n) as (_ & _ & Htab & Hone & Hkeep & _).
    split; [|split].
    + intros k Hk Hk_en Hk_first.
      assert (k = n).
      { destruct (Nat.lt_trichotomy k n) as [Hlt|[E|Hgt]]; [|exact E|].
        - destruct (Hbefore k ltac:(lia) Hk_en).
        - destruct (Hk_first n ltac:(lia) Hen). }
      subst k. split; [now apply Hkeep|]. apply Htab. split; [now rewrite Hkeep|exact Hen].
    + intros Hnone. destruct (Hnone n ltac:(lia) Hen).
    + intros Hex. split; [now apply Hone|]. intros i. rewrite Htab.
      split; [intros [E _]; exact E|]. intros ->. split; [reflexivity|now apply Hone].
  - destruct (applyRovingTabindex_spec tiles current)
      as (_ & _ & Htab & Hone & _).
    split; [|split].
    + intros k Hk Hk_en _. destruct (Hspec k ltac:(lia) Hk_en).
    + reflexivity.
    + intros Hex. split; [now apply Hone|]. intros i. rewrite Htab.
      split; [intros [E _]; exact E|]. intros ->. split; [reflexivity|now apply Hone].
Qed.

(** ** Labels *)

Lemma tileAriaLabel_cases (index : nat) (state : string) :
  In (tileAriaLabel index state) (labelsOf index).
Proof.
  unfold labelsOf, tileAriaLabel. cbn [map].
  destruct (String.eqb state "hidden") eqn:E1; [left; reflexivity|].
  destruct (String.eqb state "safe") eqn:E2; [right; left; reflexivity|].
  destruct (String.eqb state "mine") eqn:E3; [right; right; left; reflexivity|].
  right; right; right; left. reflexivity.
Qed.

(** X23. No two tiles share an accessible name.  For two different tiles
    of the board, [tileAriaLabel] gives different labels whatever the two
    states are; so a label read out names one tile. *)
Theorem tile_labels_distinct (i j : nat) (s s' : string) :
  (i < 25)%nat -> (j < 25)%nat -> i <> j ->
  tileAriaLabel i s <> tileAriaLabel j s'.
Proof.
  intros Hi Hj Hne Heq.
  assert (T : ltac:(let t := eval unfold labelTable in labelTable in
                    exact (t = true))) by (vm_compute; reflexivity).
  rewrite forallb_forall in T. specialize (T i ltac:(apply in_seq; lia)).
  rewrite forallb_forall in T. specialize (T j ltac:(apply in_seq; lia)).
  apply Bool.orb_prop in T as [T|T]; [apply Nat.eqb_eq in T; contradiction|].
  rewrite forallb_forall in T. specialize (T _ (tileAriaLabel_cases i s)).
  rewrite forallb_forall in T. specialize (T _ (tileAriaLabel_cases j s')).
  rewrite Heq, String.eqb_refl in T. discriminate T.
Qed.

Lemma tile_labels_distinct_witness :
  tileAriaLabel 0 "hidden" <> tileAriaLabel 1 "hidden".
Proof. apply (tile_labels_distinct 0 1 "hidden" "hidden"); lia. Defined.

(** ** The digest texts *)

(** X24. The two digest texts are faithful to the digests.  Whatever the
    provider computes, [sha256Hex] and [hmacSHA256Hex] return 64 lowercase
    hexadecimal digits from which [hexToBytes] recovers the 32 digest bytes,
    so two inputs have the same digest text exactly when they have the same
    digest; and [refill] therefore buffers exactly the 32 bytes of
    HMAC(serverSeed, clientSeed:nonce:counter) and moves the counter on by
    one. *)
Theorem digest_texts `{WebCrypto} (input keyRaw msg : string) :
  (String.length (sha256Hex input) = 64%nat /\
   Forall lowerHexDigit (list_ascii_of_string (sha256Hex input)) /\
   hexToBytes (sha256Hex input) = vec_to_list (digestSHA256 (encode input))) /\
  (String.length (hmacSHA256Hex keyRaw msg) = 64%nat /\
   Forall lowerHexDigit (list_ascii_of_string (hmacSHA256Hex keyRaw msg)) /\
   hexToBytes (hmacSHA256Hex keyRaw msg)
   = vec_to_list (signHMACSHA256 (encode keyRaw) (encode msg))) /\
  (forall input', sha256Hex input' = sha256Hex input <->
                  digestSHA256 (encode input') = digestSHA256 (encode input)) /\
  (forall ks,
     ks_buffer (refill ks)
     = vec_to_list (signHMACSHA256 (encode (ks_serverSeed ks))
                      (encode (blockMessage (ks_clientSeed ks) (ks_nonce ks)
                                 (ks_counter ks)))) /\
     length (ks_buffer (refill ks)) = 32%nat /\
     ks_counter (refill ks) = S (ks_counter ks)).
Proof.
  unfold sha256Hex, hmacSHA256Hex. split; [|split; [|split]].
  - rewrite bufToHex_length, length_vec_to_list, hexToBytes_bufToHex.
    split; [reflexivity|]. split; [apply bufToHex_digits|reflexivity].
  - rewrite bufToHex_length, length_vec_to_list, hexToBytes_bufToHex.
    split; [reflexivity|]. split; [apply bufToHex_digits|reflexivity].
  - intros input'. split.
    + intros E. apply bufToHex_inj in E. now apply vec_to_list_inj2 in E.
    + intros ->. reflexivity.
  - intros [s c n cnt buf]. rewrite refill_spec. unfold macBlock.
    cbn [ks_buffer ks_counter ks_serverSeed ks_clientSeed ks_nonce].
    split; [reflexivity|]. split; [apply length_vec_to_list|reflexivity].
Qed.

(** ** What a round costs and pays *)

Section Settlement.
Context `{WebCrypto}.

Lemma startRound_terms (inp : RoundInputs) (st : Game) :
  roundActive st = false -> roundActive (startRound inp st) = true ->
  minesCount (startRound inp st) = clampMines (in_mines inp) /\
  houseEdgePct (startRound inp st) = clampEdge (in_edge inp) /\
  size (minesSet (startRound inp st)) = Z.to_nat (clampMines (in_mines inp)).
Proof.
  intros Ha Hon.
  assert (He : houseEdgePct (startRound inp st) = clampEdge (in_edge inp)).
  { revert Hon. unfold startRound. rewrite Ha.
    destruct (balance (clampInputs inp st) <? in_bet inp)%float; [cbn; congruence|].
    destruct (deriveMines _ _ _ _) as [[mines ks]|]; cbn; congruence. }
  destruct (startRound_started inp st Ha Hon) as (s & c & ks & _ & _ & _ & Hm & E).
  pose proof (clampMines_range (in_mines inp)) as Hrange.
  split; [exact Hm|]. split; [exact He|].
  unfold deriveMines in E.
  destruct (hazard_set_facts (minesCount (startRound inp st))
              (Keystream s c (nonce (startRound inp st))))
    as (order & ks' & E' & _ & _ & Hs & _).
  rewrite E' in E. cbn in E. injection E as E _. rewrite <- E.
  rewrite Hs by (rewrite Hm; lia). now rewrite Hm.
Qed.

Lemma startRound_tallied (inp : RoundInputs) (st : Game) :
  roundActive st = false -> roundActive (startRound inp st) = true ->
  tallied (startRound inp st) /\ showsRound (startRound inp st).
Proof.
  intros Ha Hon.
  destruct (startRound_cases inp st) as (_ & Hpoor & Hgo).
  destruct (balance st <? in_bet inp)%float eqn:Hb.
  { rewrite (Hpoor Ha eq_refl) in Hon. cbn in Hon. congruence. }
  destruct (Hgo Ha eq_refl)
    as (_ & _ & _ & _ & _ & _ & _ & _ & _ & Hsafe & Hrev & Hboard & _).
  split.
  - split; [apply startRound_committed; assumption|].
    split; [rewrite Hsafe; lia|]. split; [now apply startRound_live|].
    intros _. split; [now apply startRound_mines|]. rewrite Hrev. set_solver.
  - unfold showsRound. rewrite Hrev, Hboard. split; [reflexivity|].
    split; [set_solver|]. intros i btn Hi. apply freshBoard_lookup in Hi.
    subst btn. right. cbn. split; [set_solver|auto].
Qed.

Lemma tallied_run (st : Game) (events : list Event) :
  tallied st -> tallied (run st events).
Proof.
  revert st. induction events as [|e events IH]; intros st Ht; [exact Ht|].
  change (run st (e :: events)) with (run (step st e) events). apply IH.
  destruct e as [idx|].
  - apply (tallied_act st (TileClick idx) Ht).
  - apply (tallied_act st CashOutClick Ht).
Qed.

Lemma step_keeps_terms_run (st : Game) (events : list Event) :
  currentBet (run st events) = currentBet st /\
  minesCount (run st events) = minesCount st /\
  houseEdgePct (run st events) = houseEdgePct st.
Proof.
  revert st. induction events as [|e events IH]; intros st; [auto|].
  change (run st (e :: events)) with (run (step st e) events).
  destruct (IH (step st e)) as (-> & -> & ->). apply step_keeps_terms.
Qed.

Lemma tallied_room (st : Game) :
  tallied st -> roundActive st = true ->
  (safeReveals st + Z.of_nat (size (minesSet st)) <= 25)%Z.
Proof.
  intros (Hc & _ & Hl & Hm) Hon.
  destruct (Hm Hon) as (_ & Hrev). destruct (Hl Hon) as (_ & Hrange & Hdisj & _).
  unfold countsSafeTiles in Hc. rewrite Hc.
  assert (HRM : revealed st ∖ minesSet st = revealed st) by set_solver.
  rewrite HRM.
  assert (Hall : (size (revealed st ∪ minesSet st) <= 25)%nat).
  { apply board_set_size. intros i Hi.
    apply elem_of_union in Hi as [Hi|Hi]; [now apply Hrev|now apply Hrange]. }
  rewrite (size_union (revealed st) (minesSet st)) in Hall by exact Hdisj. lia.
Qed.

(** X26. What a round costs and pays.  A round that [startRound] starts
    with mine count [mines] and house edge [edge] (the clamped inputs) and
    that is played by any clicks and cash-outs leaves the balance at
    [balance - bet], or, if it was cashed out, at
    [balance - bet + bet * payoutMultiplier(k, mines, edge)] for the number
    [k] of safe tiles revealed by then, with [1 <= k <= 25 - mines] and the
    multiplier finite.  Nothing else can happen to the balance. *)
Theorem round_settlement (inp : RoundInputs) (st : Game) (events : list Event) :
  roundActive st = false -> (balance st <? in_bet inp)%float = false ->
  balance (run (startRound inp st) events) = (balance st - in_bet inp)%float \/
  exists k : Z,
    (1 <= k <= 25 - clampMines (in_mines inp))%Z /\
    is_finite (payoutMultiplier k (clampMines (in_mines inp))
                 (clampEdge (in_edge inp))) = true /\
    roundActive (run (startRound inp st) events) = false /\
    badge (run (startRound inp st) events) = CashedOut /\
    balance (run (startRound inp st) events)
    = (balance st - in_bet inp
       + in_bet inp * payoutMultiplier k (clampMines (in_mines inp))
                        (clampEdge (in_edge inp)))%float.
Proof.
  intros Ha Hb.
  destruct (startRound_cases inp st) as (_ & _ & Hgo).
  destruct (Hgo Ha Hb) as (Hon & Hbal & Hbet & _).
  destruct (startRound_terms inp st Ha Hon) as (Hmines & Hedge & Hsize).
  destruct (startRound_tallied inp st Ha Hon) as (Htal & Hshow).
  pose proof (clampMines_range (in_mines inp)) as Hrange.
  set (st1 := startRound inp st) in *.
  destruct (run_balance_cases st1 events)
    as [E|(pre & post & _ & Hlive & _ & Hpos & Hrun & Hoff & Hpay)].
  { left. now rewrite E. }
  right. exists (safeReveals (run st1 pre)).
  pose proof (tallied_room _ (tallied_run st1 pre Htal) Hlive) as Hroom.
  destruct (showsRound_run st1 pre Hon Hshow) as (Hsame & _).
  rewrite Hsame, Hsize in Hroom.
  rewrite Hmines, Hedge, Hbet, Hbal in Hpay.
  split; [lia|].
  destruct (doCashOut_pays (run st1 pre)) as [E|(_ & _ & Hf & E)].
  { rewrite E in Hrun. rewrite Hrun in Hoff. congruence. }
  destruct (step_keeps_terms_run st1 pre) as (_ & Hm' & He').
  rewrite Hm', He', Hmines, Hedge in Hf.
  split; [exact Hf|]. split; [exact Hoff|]. split; [|exact Hpay].
  rewrite Hrun, E. reflexivity.
Qed.

End Settlement.

Lemma round_settlement_witness :
  balance (run (@startRound sampleCrypto sampleInputs initialGame)
             [Click 0; Click 1; CashOut])
  = (balance initialGame - in_bet sampleInputs)%float \/
  exists k : Z,
    (1 <= k <= 25 - clampMines (in_mines sampleInputs))%Z /\
    is_finite (payoutMultiplier k (clampMines (in_mines sampleInputs))
                 (clampEdge (in_edge sampleInputs))) = true /\
    roundActive (run (@startRound sampleCrypto sampleInputs initialGame)
                   [Click 0; Click 1; CashOut]) = false /\
    badge (run (@startRound sampleCrypto sampleInputs initialGame)
             [Click 0; Click 1; CashOut]) = CashedOut /\
    balance (run (@startRound sampleCrypto sampleInputs initialGame)
               [Click 0; Click 1; CashOut])
    = (balance initialGame - in_bet sampleInputs
       + in_bet sampleInputs
         * payoutMultiplier k (clampMines (in_mines sampleInputs))
             (clampEdge (in_edge sampleInputs)))%float.
Proof.
  apply (@round_settlement sampleCrypto sampleInputs initialGame
           [Click 0; Click 1; CashOut]); reflexivity.
Defined.

(** ** Rounding: the multiplier on binary64

    Division and subtraction of positive binary64 numbers, read off their
    IEEE-754 specification: in the normal range the result is a positive
    finite number within one part in [2 ^ 52] of the exact quotient or
    difference.  On the board two successive probabilities differ by more
    than that, which orders the multipliers. *)

Section Binary64.
Local Open Scope Q_scope.

(** *** Powers of two *)

Lemma pow2_pos e : 0 < pow2 e.
Proof. apply Qpower_0_lt. reflexivity. Qed.

Lemma pow2_add a b : pow2 (a + b) == pow2 a * pow2 b.
Proof. apply Qpower_plus. discriminate. Qed.

Lemma pow2_le a b : (a <= b)%Z -> pow2 a <= pow2 b.
Proof. intros H. apply Qpower_le_compat_l; [exact H|discriminate]. Qed.

Lemma pow2_lt a b : (a < b)%Z -> pow2 a < pow2 b.
Proof. intros H. apply Qpower_lt_compat_l; [exact H|reflexivity]. Qed.

Lemma pow2_lt_inv a b : pow2 a < pow2 b -> (a < b)%Z.
Proof. intros H. eapply Qpower_lt_compat_l_inv; [exact H|reflexivity]. Qed.

Lemma pow2_le_inv a b : pow2 a <= pow2 b -> (a <= b)%Z.
Proof. intros H. eapply Qpower_le_compat_l_inv; [exact H|reflexivity]. Qed.

Lemma pow2_Z k : (0 <= k)%Z -> pow2 k == inject_Z (2 ^ k).
Proof. intros H. unfold pow2. rewrite Zpower_Qpower by exact H. reflexivity. Qed.

(** *** Digits *)

Lemma digits2_pos_size m : digits2_pos m = Pos.size m.
Proof. induction m; cbn; congruence. Qed.

Lemma digits_bounds (m : positive) :
  (2 ^ (Zpos (digits2_pos m) - 1) <= Zpos m < 2 ^ Zpos (digits2_pos m))%Z.
Proof.
  rewrite digits2_pos_size. split.
  - pose proof (Pos.size_le m) as H.
    assert (H' : (Zpos (2 ^ Pos.size m) <= Zpos (m~0))%Z) by exact H.
    rewrite Pos2Z.inj_pow in H'.
    replace (Zpos (Pos.size m)) with (Zpos (Pos.size m) - 1 + 1)%Z in H' by lia.
    rewrite Z.pow_add_r in H' by lia. change (2 ^ 1)%Z with 2%Z in H'.
    change (Zpos m~0) with (2 * Zpos m)%Z in H'. lia.
  - pose proof (Pos.size_gt m) as H.
    assert (H' : (Zpos m < Zpos (2 ^ Pos.size m))%Z) by exact H.
    rewrite Pos2Z.inj_pow in H'. exact H'.
Qed.

Lemma Zdigits2_bounds (m : Z) :
  (0 < m)%Z -> (2 ^ (Zdigits2 m - 1) <= m < 2 ^ Zdigits2 m)%Z /\ (0 < Zdigits2 m)%Z.
Proof.
  destruct m as [|p|p]; try lia. intros _. cbn [Zdigits2].
  split; [apply digits_bounds|lia].
Qed.

Lemma Zdigits2_nonneg (m : Z) : (0 <= Zdigits2 m)%Z.
Proof. destruct m; cbn; lia. Qed.

Lemma pow2Z_lt_inv a b : (0 <= b)%Z -> (2 ^ a < 2 ^ b)%Z -> (a < b)%Z.
Proof.
  intros Hb H. destruct (Z.lt_ge_cases a b) as [|Hge]; [assumption|].
  exfalso. assert (2 ^ b <= 2 ^ a)%Z by (apply Z.pow_le_mono_r; lia). lia.
Qed.

Lemma Zdigits2_unique (m d : Z) :
  (0 < d)%Z -> (2 ^ (d - 1) <= m < 2 ^ d)%Z -> Zdigits2 m = d.
Proof.
  intros Hd [Hlo Hhi].
  assert (Hm : (0 < m)%Z).
  { assert (0 < 2 ^ (d - 1))%Z by (apply Z.pow_pos_nonneg; lia). lia. }
  destruct (Zdigits2_bounds m Hm) as [[Hlo' Hhi'] Hd'].
  assert (Zdigits2 m - 1 < d)%Z by (apply pow2Z_lt_inv; lia).
  assert (d - 1 < Zdigits2 m)%Z by (apply pow2Z_lt_inv; lia).
  lia.
Qed.

(** *** Shifting right *)

Lemma fexp_eq (e : Z) : fexp prec emax e = Z.max (e - 53) (-1074).
Proof. reflexivity. Qed.

Lemma shr_1_m (mrs : shr_record) :
  (0 <= shr_m mrs)%Z ->
  shr_m (shr_1 mrs) = (shr_m mrs / 2)%Z /\ (0 <= shr_m (shr_1 mrs))%Z.
Proof.
  destruct mrs as [m r s]. cbn [shr_m shr_1].
  destruct m as [|[p|p|]|p]; cbn [shr_m]; intros H; try lia.
  - split; [reflexivity|lia].
  - split; [|lia]. rewrite Pos2Z.inj_xI.
    apply Z.div_unique with 1%Z; lia.
  - split; [|lia]. rewrite Pos2Z.inj_xO.
    apply Z.div_unique with 0%Z; lia.
  - split; [reflexivity|lia].
Qed.

Lemma iter_pos_shr_m (p : positive) (mrs : shr_record) :
  (0 <= shr_m mrs)%Z ->
  shr_m (SpecFloat.iter_pos shr_1 p mrs) = (shr_m mrs / 2 ^ Zpos p)%Z /\
  (0 <= shr_m (SpecFloat.iter_pos shr_1 p mrs))%Z.
Proof.
  revert mrs. induction p as [p IH|p IH|]; intros mrs H; cbn [SpecFloat.iter_pos].
  - destruct (shr_1_m mrs H) as [E1 H1].
    destruct (IH _ H1) as [E2 H2]. destruct (IH _ H2) as [E3 H3].
    split; [|exact H3]. rewrite E3, E2, E1.
    rewrite !Z.div_div by lia.
    f_equal. replace (Zpos p~1) with (1 + Zpos p + Zpos p)%Z by lia.
    rewrite !Z.pow_add_r by lia. change (2 ^ 1)%Z with 2%Z. ring.
  - destruct (IH _ H) as [E2 H2]. destruct (IH _ H2) as [E3 H3].
    split; [|exact H3]. rewrite E3, E2.
    rewrite !Z.div_div by lia.
    f_equal. replace (Zpos p~0) with (Zpos p + Zpos p)%Z by lia.
    rewrite !Z.pow_add_r by lia. reflexivity.
  - destruct (shr_1_m mrs H) as [E1 H1]. split; [|exact H1].
    rewrite E1. reflexivity.
Qed.

Lemma shr_record_of_loc_m (m : Z) (l : location) : shr_m (shr_record_of_loc m l) = m.
Proof. destruct l as [|[]]; reflexivity. Qed.

(** [shr_fexp] divides the mantissa by [2 ^ k], where [k] is the number of
    bits the format cannot hold. *)
Lemma shr_fexp_spec (m e : Z) (l : location) :
  (0 <= m)%Z ->
  let k := Z.max 0 (fexp prec emax (Zdigits2 m + e) - e) in
  shr_m (fst (shr_fexp prec emax m e l)) = (m / 2 ^ k)%Z /\
  snd (shr_fexp prec emax m e l) = (e + k)%Z.
Proof.
  intros Hm k. unfold shr_fexp, shr. subst k.
  destruct (fexp prec emax (Zdigits2 m + e) - e)%Z as [|p|p] eqn:E; cbn [fst snd].
  - rewrite shr_record_of_loc_m. cbn. rewrite Z.div_1_r. split; [reflexivity|lia].
  - destruct (iter_pos_shr_m p (shr_record_of_loc m l)) as [E1 _].
    { rewrite shr_record_of_loc_m. exact Hm. }
    rewrite E1, shr_record_of_loc_m.
    replace (Z.max 0 (Zpos p)) with (Zpos p) by lia. split; reflexivity.
  - rewrite shr_record_of_loc_m.
    replace (Z.max 0 (Zneg p)) with 0%Z by lia. cbn. rewrite Z.div_1_r.
    split; [reflexivity|lia].
Qed.

Lemma round_nearest_even_cases (m : Z) (l : location) :
  round_nearest_even m l = m \/ round_nearest_even m l = (m + 1)%Z.
Proof.
  destruct l as [|[]]; cbn; auto. destruct (Z.even m); auto.
Qed.

(** *** Rounding a truncated value *)

Lemma fexp_ge_emin (x : Z) : (-1074 <= fexp prec emax x)%Z.
Proof. rewrite fexp_eq. lia. Qed.

Lemma Zdigits2_le_53 (M0 : Z) : (0 < M0 < 2 ^ 53)%Z -> (Zdigits2 M0 <= 53)%Z.
Proof.
  intros [Hpos Hlt]. destruct (Zdigits2_bounds M0 Hpos) as [[Hlo _] Hd].
  assert (Zdigits2 M0 - 1 < 53)%Z by (apply pow2Z_lt_inv; lia). lia.
Qed.

Lemma binary_round_aux_spec (s : bool) (m e : Z) (l : location) :
  (0 <= m)%Z ->
  (e <= fexp prec emax (Zdigits2 m + e))%Z ->
  exists M0 : Z,
    (m / 2 ^ (fexp prec emax (Zdigits2 m + e) - e) <= M0
     <= m / 2 ^ (fexp prec emax (Zdigits2 m + e) - e) + 1)%Z /\
    ((M0 = 0%Z /\ binary_round_aux prec emax s m e l = S754_zero s) \/
     (exists (M : positive) (E' : Z),
        (fexp prec emax (Zdigits2 m + e) <= E'
         <= fexp prec emax (Zdigits2 m + e) + 1)%Z /\
        (Zpos M * 2 ^ (E' - fexp prec emax (Zdigits2 m + e)))%Z = M0 /\
        ((E' <= 971)%Z /\
         binary_round_aux prec emax s m e l = S754_finite s M E' \/
         (971 < E')%Z /\
         binary_round_aux prec emax s m e l = S754_infinity s))).
Proof.
  intros Hm HE. set (E := fexp prec emax (Zdigits2 m + e)) in *.
  pose proof (fexp_ge_emin (Zdigits2 m + e)) as Hmin. fold E in Hmin.
  unfold binary_round_aux.
  destruct (shr_fexp_spec m e l Hm) as [E1 E2]. fold E in E1, E2.
  replace (Z.max 0 (E - e)) with (E - e)%Z in E1, E2 by lia.
  destruct (shr_fexp prec emax m e l) as [mrs' e'] eqn:Hshr. cbn [fst snd] in E1, E2.
  replace (e + (E - e))%Z with E in E2 by lia. subst e'.
  set (m1 := (m / 2 ^ (E - e))%Z) in *.
  assert (Hm1 : (0 <= m1 < 2 ^ 53)%Z).
  { split; [apply Z.div_pos; [exact Hm|apply Z.pow_pos_nonneg; lia]|].
    apply Z.div_lt_upper_bound; [apply Z.pow_pos_nonneg; lia|].
    rewrite <- Z.pow_add_r by lia.
    destruct (Z.eq_dec m 0%Z) as [->|Hne].
    - apply Z.pow_pos_nonneg; lia.
    - destruct (Zdigits2_bounds m ltac:(lia)) as [[_ Hhi] Hd].
      assert (Hexp : (Zdigits2 m <= E - e + 53)%Z).
      { unfold E. rewrite fexp_eq. lia. }
      assert (2 ^ Zdigits2 m <= 2 ^ (E - e + 53))%Z
        by (apply Z.pow_le_mono_r; lia).
      lia. }
  rewrite E1.
  set (M0 := round_nearest_even m1 (loc_of_shr_record mrs')).
  assert (HM0 : (m1 <= M0 <= m1 + 1)%Z).
  { unfold M0. destruct (round_nearest_even_cases m1 (loc_of_shr_record mrs'))
      as [-> | ->]; lia. }
  exists M0. split; [exact HM0|].
  destruct (shr_fexp_spec M0 E loc_Exact ltac:(lia)) as [F1 F2].
  destruct (shr_fexp prec emax M0 E loc_Exact) as [mrs'' e''] eqn:Hshr2.
  cbn [fst snd] in F1, F2.
  destruct (Z.eq_dec M0 0%Z) as [Hz|Hnz].
  { left. split; [exact Hz|]. rewrite F1, Hz. rewrite Z.div_0_l; [reflexivity|].
    apply Z.pow_nonzero; lia. }
  right.
  destruct (Z.eq_dec M0 (2 ^ 53)%Z) as [Hfull|Hnot].
  - (* the mantissa was rounded up to 2^53: one more bit goes *)
    assert (Hk : (fexp prec emax (Zdigits2 M0 + E) - E = 1)%Z).
    { rewrite Hfull. change (Zdigits2 (2 ^ 53)) with 54%Z. rewrite fexp_eq. lia. }
    rewrite Hk in F1, F2. change (Z.max 0 1) with 1%Z in F1, F2.
    rewrite Hfull in F1. change (2 ^ 53 / 2 ^ 1)%Z with (Zpos (2 ^ 52)) in F1.
    exists (2 ^ 52)%positive, (E + 1)%Z. split; [lia|]. split.
    { rewrite Hfull. replace (E + 1 - E)%Z with 1%Z by lia. reflexivity. }
    rewrite F1, F2. destruct (Z.leb_spec (E + 1) (emax - prec)) as [Hle|Hgt].
    + left. split; [exact Hle|reflexivity].
    + right. split; [exact Hgt|reflexivity].
  - assert (Hd : (Zdigits2 M0 <= 53)%Z) by (apply Zdigits2_le_53; lia).
    assert (Hk : (fexp prec emax (Zdigits2 M0 + E) - E <= 0)%Z).
    { rewrite fexp_eq. lia. }
    replace (Z.max 0 (fexp prec emax (Zdigits2 M0 + E) - E)) with 0%Z in F1, F2 by lia.
    change (2 ^ 0)%Z with 1%Z in F1. rewrite Z.div_1_r in F1.
    replace (E + 0)%Z with E in F2 by lia.
    destruct M0 as [|M|M]; try lia.
    exists M, E. split; [lia|]. split.
    { replace (E - E)%Z with 0%Z by lia. change (2 ^ 0)%Z with 1%Z. lia. }
    rewrite F1, F2. destruct (Z.leb_spec E (emax - prec)) as [Hle|Hgt].
    + left. split; [exact Hle|reflexivity].
    + right. split; [exact Hgt|reflexivity].
Qed.

(** *** The same, on values *)

Lemma scale_le (a b : Z) (P : Q) :
  (a <= b)%Z -> 0 <= P -> inject_Z a * P <= inject_Z b * P.
Proof.
  intros H HP. apply Qmult_le_compat_r; [|exact HP]. now rewrite <- Zle_Qle.
Qed.

Lemma pow2_split (e k : Z) : (0 <= k)%Z -> pow2 (e + k) == inject_Z (2 ^ k) * pow2 e.
Proof.
  intros Hk. rewrite pow2_add, (pow2_Z k Hk). apply Qmult_comm.
Qed.

Lemma binary_round_aux_value (m e : Z) (l : location) (x : Q) :
  (0 <= m)%Z ->
  (e <= fexp prec emax (Zdigits2 m + e))%Z ->
  inject_Z m * pow2 e <= x -> x <= inject_Z (m + 1) * pow2 e ->
  (binary_round_aux prec emax false m e l = S754_infinity false /\
   (971 <= fexp prec emax (Zdigits2 m + e))%Z) \/
  ((binary_round_aux prec emax false m e l = S754_zero false \/
    exists M E', binary_round_aux prec emax false m e l = S754_finite false M E') /\
   x - pow2 (fexp prec emax (Zdigits2 m + e))
   <= SF2Q (binary_round_aux prec emax false m e l) /\
   SF2Q (binary_round_aux prec emax false m e l)
   <= x + pow2 (fexp prec emax (Zdigits2 m + e))).
Proof.
  intros Hm HE Hlo Hhi.
  destruct (binary_round_aux_spec false m e l Hm HE) as (M0 & HM0 & Hres).
  set (E := fexp prec emax (Zdigits2 m + e)) in *.
  set (k := (E - e)%Z) in *.
  assert (Hk : (0 <= k)%Z) by (unfold k; lia).
  assert (Hpk : (0 < 2 ^ k)%Z) by (apply Z.pow_pos_nonneg; lia).
  set (m1 := (m / 2 ^ k)%Z) in *.
  assert (Hdiv : (m1 * 2 ^ k <= m /\ m + 1 <= (m1 + 1) * 2 ^ k)%Z).
  { unfold m1. pose proof (Z.div_mod m (2 ^ k) ltac:(lia)) as Hdm.
    pose proof (Z.mod_pos_bound m (2 ^ k) Hpk) as Hmod. nia. }
  assert (HpE : pow2 E == inject_Z (2 ^ k) * pow2 e).
  { replace E with (e + k)%Z by (unfold k; lia). now apply pow2_split. }
  pose proof (pow2_pos e) as Hpe.
  assert (HxE : inject_Z m1 * pow2 E <= x /\ x <= inject_Z (m1 + 1) * pow2 E).
  { rewrite HpE, !Qmult_assoc, <- !inject_Z_mult. split.
    - eapply Qle_trans; [|exact Hlo]. apply scale_le; [lia|]. now apply Qlt_le_weak.
    - eapply Qle_trans; [exact Hhi|]. apply scale_le; [lia|]. now apply Qlt_le_weak. }
  assert (HV : forall V : Q, V == inject_Z M0 * pow2 E ->
            x - pow2 E <= V /\ V <= x + pow2 E).
  { intros V ->. pose proof (pow2_pos E) as HpEpos.
    assert (H1 : inject_Z m1 * pow2 E <= inject_Z M0 * pow2 E)
      by (apply scale_le; [lia|now apply Qlt_le_weak]).
    assert (H2 : inject_Z M0 * pow2 E <= inject_Z (m1 + 1) * pow2 E)
      by (apply scale_le; [lia|now apply Qlt_le_weak]).
    rewrite inject_Z_plus in *. destruct HxE as [Ha Hb].
    change (inject_Z 1) with 1 in *. split; lra. }
  destruct Hres as [[Hz Hr]|(M & E' & HE' & HM & [[Hfin Hr]|[Hover Hr]])].
  - right. rewrite Hr. split; [left; reflexivity|].
    apply HV. rewrite Hz. cbn [SF2Q]. change (inject_Z 0) with 0. lra.
  - right. rewrite Hr. split; [right; eauto|].
    apply HV. cbn [SF2Q]. rewrite <- HM.
    replace E' with (E + (E' - E))%Z at 1 by lia.
    rewrite pow2_split by lia. rewrite inject_Z_mult. ring.
  - left. split; [exact Hr|]. lia.
Qed.

Lemma ulp_bound (m e : Z) (x : Q) :
  (0 <= m)%Z -> (e <= fexp prec emax (Zdigits2 m + e))%Z ->
  inject_Z m * pow2 e <= x ->
  (pow2 (fexp prec emax (Zdigits2 m + e)) <= x * pow2 (-52) /\
   pow2 (fexp prec emax (Zdigits2 m + e) + 52) <= x) \/
  fexp prec emax (Zdigits2 m + e) = (-1074)%Z.
Proof.
  intros Hm HE Hx. rewrite fexp_eq in *.
  destruct (Z.le_gt_cases (Zdigits2 m + e - 53) (-1074)) as [Hc|Hn]; [right; lia|].
  left. replace (Z.max (Zdigits2 m + e - 53) (-1074)) with (Zdigits2 m + e - 53)%Z in * by lia.
  assert (Hpos : (0 < m)%Z).
  { destruct (Z.eq_dec m 0%Z) as [->|]; [cbn in HE; lia|lia]. }
  destruct (Zdigits2_bounds m Hpos) as [[Hlo _] Hd].
  assert (Hbig : pow2 (Zdigits2 m + e - 53 + 52) <= x).
  { eapply Qle_trans; [|exact Hx].
    replace (Zdigits2 m + e - 53 + 52)%Z with (e + (Zdigits2 m - 1))%Z by lia.
    rewrite pow2_split by lia. apply scale_le; [exact Hlo|].
    apply Qlt_le_weak, pow2_pos. }
  split; [|exact Hbig].
  rewrite pow2_add in Hbig.
  assert (H52 : pow2 52 * pow2 (-52) == 1) by (rewrite <- pow2_add; reflexivity).
  pose proof (pow2_pos (-52)) as Hp.
  pose proof (pow2_pos (Zdigits2 m + e - 53)) as Hq.
  set (u := pow2 (Zdigits2 m + e - 53)) in *.
  set (a := pow2 52) in *. set (b := pow2 (-52)) in *.
  assert (u * a * b <= x * b) by (apply Qmult_le_compat_r; [exact Hbig|lra]).
  assert (u * a * b == u) by (rewrite <- Qmult_assoc, H52; ring).
  lra.
Qed.

(** A value in the normal range is rounded to a finite number within one
    part in [2 ^ 52]. *)
Lemma binary_round_aux_normal (m e : Z) (l : location) (x : Q) :
  (0 <= m)%Z ->
  (e <= fexp prec emax (Zdigits2 m + e))%Z ->
  inject_Z m * pow2 e <= x -> x <= inject_Z (m + 1) * pow2 e ->
  pow2 (-1022) <= x -> x < pow2 1023 ->
  exists M E',
    binary_round_aux prec emax false m e l = S754_finite false M E' /\
    x * (1 - pow2 (-52)) <= inject_Z (Zpos M) * pow2 E' /\
    inject_Z (Zpos M) * pow2 E' <= x * (1 + pow2 (-52)).
Proof.
  intros Hm HE Hlo Hhi Hnorm Hbig.
  set (E := fexp prec emax (Zdigits2 m + e)) in *.
  assert (Hulp : pow2 E <= x * pow2 (-52) /\ (E + 52 < 1023)%Z).
  { pose proof (ulp_bound m e x Hm HE Hlo) as Hub. fold E in Hub.
    destruct Hub as [[Hu Hb]|Hc].
    - split; [exact Hu|]. apply pow2_lt_inv. eapply Qle_lt_trans; eassumption.
    - rewrite Hc. split; [|lia].
      assert (H : pow2 (-1074) == pow2 (-1022) * pow2 (-52))
        by (rewrite <- pow2_add; reflexivity).
      rewrite H. apply Qmult_le_compat_r; [exact Hnorm|].
      apply Qlt_le_weak, pow2_pos. }
  destruct Hulp as [Hulp HnoOver].
  assert (Hu1 : pow2 (-52) < 1) by (change 1 with (pow2 0); apply pow2_lt; lia).
  pose proof (pow2_pos (-52)) as Hu0. pose proof (pow2_pos (-1022)) as Hn0.
  pose proof (binary_round_aux_value m e l x Hm HE Hlo Hhi) as Hval.
  fold E in Hval. destruct Hval as [[_ Hover]|([Hz|(M & E' & Hr)] & Hl & Hh)].
  - lia.
  - exfalso. rewrite Hz in Hl. cbn [SF2Q] in Hl.
    set (u := pow2 (-52)) in *. nra.
  - exists M, E'. split; [exact Hr|]. rewrite Hr in Hl, Hh. cbn [SF2Q] in Hl, Hh.
    split; lra.
Qed.

(** Below the overflow threshold the result is zero or finite and exceeds
    the value by a relative [2 ^ -52] and an absolute [2 ^ -1074] at most. *)
Lemma binary_round_aux_upper (m e : Z) (l : location) (x : Q) :
  (0 <= m)%Z ->
  (e <= fexp prec emax (Zdigits2 m + e))%Z ->
  inject_Z m * pow2 e <= x -> x <= inject_Z (m + 1) * pow2 e ->
  x < pow2 1023 ->
  (binary_round_aux prec emax false m e l = S754_zero false \/
   exists M E', binary_round_aux prec emax false m e l = S754_finite false M E') /\
  SF2Q (binary_round_aux prec emax false m e l)
  <= x * (1 + pow2 (-52)) + pow2 (-1074).
Proof.
  intros Hm HE Hlo Hhi Hbig.
  set (E := fexp prec emax (Zdigits2 m + e)) in *.
  pose proof (pow2_pos (-52)) as Hu0. pose proof (pow2_pos (-1074)) as Hn0.
  assert (Hx0 : 0 <= x).
  { eapply Qle_trans; [|exact Hlo]. apply Qmult_le_0_compat.
    - change 0 with (inject_Z 0). now rewrite <- Zle_Qle.
    - apply Qlt_le_weak, pow2_pos. }
  assert (Hulp : pow2 E <= x * pow2 (-52) + pow2 (-1074) /\ (E < 971)%Z).
  { pose proof (ulp_bound m e x Hm HE Hlo) as Hub. fold E in Hub.
    destruct Hub as [[Hu Hb]|Hc].
    - split; [lra|].
      assert (E + 52 < 1023)%Z
        by (apply pow2_lt_inv; eapply Qle_lt_trans; eassumption). lia.
    - rewrite Hc. split; [|lia].
      set (u := pow2 (-52)) in *. nra. }
  destruct Hulp as [Hulp HnoOver].
  pose proof (binary_round_aux_value m e l x Hm HE Hlo Hhi) as Hval.
  fold E in Hval. destruct Hval as [[_ Hover]|(Hcls & Hl & Hh)]; [lia|].
  split; [exact Hcls|]. lra.
Qed.

(** *** Division *)

Lemma SFdiv_core_spec (m1 m2 : positive) (e1 e2 : Z) :
  exists q e' l,
    SFdiv_core_binary prec emax (Zpos m1) e1 (Zpos m2) e2 = (q, e', l) /\
    (0 <= q)%Z /\ (e' <= fexp prec emax (Zdigits2 q + e'))%Z /\
    inject_Z q * pow2 e'
    <= (inject_Z (Zpos m1) * pow2 e1) / (inject_Z (Zpos m2) * pow2 e2) /\
    (inject_Z (Zpos m1) * pow2 e1) / (inject_Z (Zpos m2) * pow2 e2)
    <= inject_Z (q + 1) * pow2 e'.
Proof.
  unfold SFdiv_core_binary.
  set (d1 := Zdigits2 (Zpos m1)). set (d2 := Zdigits2 (Zpos m2)).
  set (t := (d1 + e1 - (d2 + e2))%Z).
  set (e' := Z.min (fexp prec emax t) (e1 - e2)).
  set (s := (e1 - e2 - e')%Z).
  assert (Hs : (0 <= s)%Z) by (unfold s, e'; lia).
  set (m' := match s with
             | Zpos _ => Z.shiftl (Zpos m1) s
             | Z0 => Zpos m1
             | Zneg _ => Z0
             end).
  assert (Hm' : m' = (Zpos m1 * 2 ^ s)%Z).
  { unfold m'. destruct s as [|p|p] eqn:Es; try lia.
    apply Z.shiftl_mul_pow2. lia. }
  pose proof (Z_div_mod m' (Zpos m2) ltac:(lia)) as Hdm.
  destruct (Z.div_eucl m' (Zpos m2)) as [q r] eqn:Hqr.
  destruct Hdm as [Hdm Hr].
  exists q, e', (new_location (Zpos m2) r). split; [reflexivity|].
  assert (Hq0 : (0 <= q)%Z) by nia.
  split; [exact Hq0|].
  destruct (Zdigits2_bounds (Zpos m1) ltac:(lia)) as [[Hlo1 Hhi1] Hd1].
  destruct (Zdigits2_bounds (Zpos m2) ltac:(lia)) as [[Hlo2 Hhi2] Hd2].
  fold d1 in Hlo1, Hhi1, Hd1. fold d2 in Hlo2, Hhi2, Hd2.
  split.
  { (* enough digits *)
    destruct (Z.le_gt_cases e' (-1074)) as [Hsmall|Hbig].
    { pose proof (fexp_ge_emin (Zdigits2 q + e')). lia. }
    assert (Ht : (e' <= t - 53)%Z).
    { unfold e' in *. rewrite fexp_eq in *. lia. }
    assert (Hw : (52 <= d1 - 1 + s - d2)%Z) by (unfold t, s in *; lia).
    set (w := (d1 - 1 + s - d2)%Z) in *.
    assert (Hqw : (2 ^ w <= q)%Z).
    { assert (Hmw : (2 ^ w * Zpos m2 <= m')%Z).
      { rewrite Hm'.
        assert (2 ^ w * 2 ^ d2 = 2 ^ (d1 - 1) * 2 ^ s)%Z.
        { rewrite <- !Z.pow_add_r by lia. f_equal. unfold w. lia. }
        assert (0 < 2 ^ w)%Z by (apply Z.pow_pos_nonneg; lia).
        assert (0 < 2 ^ s)%Z by (apply Z.pow_pos_nonneg; lia).
        nia. }
      assert (0 < 2 ^ w)%Z by (apply Z.pow_pos_nonneg; lia).
      nia. }
    assert (Hqpos : (0 < q)%Z).
    { assert (0 < 2 ^ w)%Z by (apply Z.pow_pos_nonneg; lia). lia. }
    destruct (Zdigits2_bounds q Hqpos) as [[_ Hqhi] Hdq].
    assert (w < Zdigits2 q)%Z by (apply pow2Z_lt_inv; lia).
    rewrite fexp_eq. unfold t, s, w in *. lia. }
  (* the quotient lies between q and q + 1 *)
  pose proof (pow2_pos e1) as Hp1. pose proof (pow2_pos e2) as Hp2.
  pose proof (pow2_pos e') as Hp'.
  assert (Hpe : pow2 e1 == inject_Z (2 ^ s) * pow2 e' * pow2 e2).
  { replace e1 with (e' + s + e2)%Z at 1 by (unfold s; lia).
    rewrite pow2_add, pow2_split by lia. reflexivity. }
  assert (Hm2 : 0 < inject_Z (Zpos m2)).
  { change 0 with (inject_Z 0). rewrite <- Zlt_Qlt. lia. }
  assert (HX : (inject_Z (Zpos m1) * pow2 e1) / (inject_Z (Zpos m2) * pow2 e2)
               == inject_Z m' * pow2 e' / inject_Z (Zpos m2)).
  { rewrite Hpe, Hm', inject_Z_mult. field. split; lra. }
  rewrite HX.
  assert (Hm'q : inject_Z m' == inject_Z (Zpos m2) * inject_Z q + inject_Z r).
  { rewrite Hdm, inject_Z_plus, inject_Z_mult. reflexivity. }
  assert (Hr0 : 0 <= inject_Z r) by (change 0 with (inject_Z 0); rewrite <- Zle_Qle; lia).
  assert (Hr1 : inject_Z r <= inject_Z (Zpos m2) - 1).
  { assert (H1 : inject_Z r <= inject_Z (Zpos m2 - 1)) by (rewrite <- Zle_Qle; lia).
    unfold Zminus in H1. rewrite inject_Z_plus in H1. exact H1. }
  rewrite inject_Z_plus. change (inject_Z 1) with 1.
  set (Q2 := inject_Z (Zpos m2)) in *. set (Qq := inject_Z q) in *.
  set (Qr := inject_Z r) in *. set (P := pow2 e') in *.
  rewrite Hm'q. split.
  - apply Qle_shift_div_l; [exact Hm2|]. nra.
  - apply Qle_shift_div_r; [exact Hm2|]. nra.
Qed.

Lemma F2Q_finite (x : float) (m : positive) (e : Z) :
  Prim2SF x = S754_finite false m e -> F2Q x = inject_Z (Zpos m) * pow2 e.
Proof. intros H. unfold F2Q. rewrite H. reflexivity. Qed.

Lemma F2Q_pos (x : float) (m : positive) (e : Z) :
  Prim2SF x = S754_finite false m e -> 0 < F2Q x.
Proof.
  intros H. rewrite (F2Q_finite x m e H).
  apply Qmult_lt_0_compat; [reflexivity|apply pow2_pos].
Qed.

(** The quotient of two positive finite numbers, in the normal range. *)
Lemma div_normal (x y : float) (mx my : positive) (ex ey : Z) :
  Prim2SF x = S754_finite false mx ex ->
  Prim2SF y = S754_finite false my ey ->
  pow2 (-1022) <= F2Q x / F2Q y -> F2Q x / F2Q y < pow2 1023 ->
  exists M E,
    Prim2SF (x / y) = S754_finite false M E /\
    F2Q x / F2Q y * (1 - pow2 (-52)) <= F2Q (x / y) /\
    F2Q (x / y) <= F2Q x / F2Q y * (1 + pow2 (-52)).
Proof.
  intros Hx Hy Hlo Hhi.
  rewrite (F2Q_finite x mx ex Hx), (F2Q_finite y my ey Hy) in *.
  unfold F2Q. rewrite div_spec, Hx, Hy. unfold SF64div, SFdiv.
  destruct (SFdiv_core_spec mx my ex ey) as (q & e' & l & -> & Hq & HE & Ha & Hb).
  cbn [xorb].
  destruct (binary_round_aux_normal q e' l _ Hq HE Ha Hb Hlo Hhi)
    as (M & E & -> & Hl & Hh).
  exists M, E. split; [reflexivity|]. cbn [SF2Q]. split; assumption.
Qed.

(** The quotient of two positive finite numbers, below the overflow
    threshold: an upper bound that also holds when the result is tiny. *)
Lemma div_upper (x y : float) (mx my : positive) (ex ey : Z) :
  Prim2SF x = S754_finite false mx ex ->
  Prim2SF y = S754_finite false my ey ->
  F2Q x / F2Q y < pow2 1023 ->
  (Prim2SF (x / y) = S754_zero false \/
   exists M E, Prim2SF (x / y) = S754_finite false M E) /\
  F2Q (x / y) <= F2Q x / F2Q y * (1 + pow2 (-52)) + pow2 (-1074).
Proof.
  intros Hx Hy Hhi.
  rewrite (F2Q_finite x mx ex Hx), (F2Q_finite y my ey Hy) in *.
  unfold F2Q. rewrite div_spec, Hx, Hy. unfold SF64div, SFdiv.
  destruct (SFdiv_core_spec mx my ex ey) as (q & e' & l & -> & Hq & HE & Ha & Hb).
  cbn [xorb].
  apply (binary_round_aux_upper q e' l _ Hq HE Ha Hb Hhi).
Qed.

(** *** Order and value *)

Lemma finite_canonical (x : float) (s : bool) (m : positive) (e : Z) :
  Prim2SF x = S754_finite s m e ->
  (Zpos (digits2_pos m) <= 53)%Z /\ (-1074 <= e <= 971)%Z /\
  (Zpos (digits2_pos m) = 53%Z \/ e = (-1074)%Z).
Proof.
  intros H. pose proof (Prim2SF_valid x) as Hv. rewrite H in Hv.
  cbn [SpecFloat.valid_binary] in Hv. unfold bounded, canonical_mantissa in Hv.
  apply andb_prop in Hv as [Hc Hb].
  apply Z.eqb_eq in Hc. apply Z.leb_le in Hb. rewrite fexp_eq in Hc.
  change (emax - prec)%Z with 971%Z in Hb. lia.
Qed.

Lemma finite_value_bounds (x : float) (s : bool) (m : positive) (e : Z) :
  Prim2SF x = S754_finite s m e ->
  inject_Z (Zpos m) * pow2 e < pow2 (53 + e) /\
  ((-1074 < e)%Z -> pow2 (52 + e) <= inject_Z (Zpos m) * pow2 e).
Proof.
  intros H. destruct (finite_canonical x s m e H) as (Hd & He & Hn).
  destruct (digits_bounds m) as [Hlo Hhi].
  pose proof (pow2_pos e) as Hp. split.
  - rewrite Z.add_comm, pow2_split by lia.
    apply Qmult_lt_compat_r; [exact Hp|]. rewrite <- Zlt_Qlt.
    eapply Z.lt_le_trans; [exact Hhi|]. apply Z.pow_le_mono_r; lia.
  - intros Hne. rewrite Z.add_comm, pow2_split by lia.
    apply scale_le; [|now apply Qlt_le_weak].
    replace 52%Z with (Zpos (digits2_pos m) - 1)%Z by lia. exact Hlo.
Qed.

Lemma leb_of_Qle (x y : float) (mx my : positive) (ex ey : Z) :
  Prim2SF x = S754_finite false mx ex ->
  Prim2SF y = S754_finite false my ey ->
  F2Q x <= F2Q y -> (x <=? y)%float = true.
Proof.
  intros Hx Hy Hle.
  rewrite (F2Q_finite x mx ex Hx), (F2Q_finite y my ey Hy) in Hle.
  rewrite leb_spec, Hx, Hy. unfold SFleb, SFcompare.
  destruct (finite_value_bounds x false mx ex Hx) as [Hxhi Hxlo].
  destruct (finite_value_bounds y false my ey Hy) as [Hyhi Hylo].
  destruct (finite_canonical y false my ey Hy) as (_ & Hey & _).
  destruct (Z.compare_spec ex ey) as [Heq|Hlt|Hgt]; [|reflexivity|].
  - subst ey. change (Pos.compare_cont Eq mx my) with (Pos.compare mx my).
    destruct (Pos.compare_spec mx my) as [?|?|Hgt]; try reflexivity.
    exfalso. pose proof (pow2_pos ex) as Hp.
    assert (inject_Z (Zpos my) * pow2 ex < inject_Z (Zpos mx) * pow2 ex).
    { apply Qmult_lt_compat_r; [exact Hp|]. rewrite <- Zlt_Qlt. lia. }
    lra.
  - exfalso. specialize (Hxlo ltac:(lia)).
    assert (pow2 (53 + ey) <= pow2 (52 + ex)) by (apply pow2_le; lia).
    lra.
Qed.

Lemma Qle_of_leb (x y : float) (mx my : positive) (ex ey : Z) :
  Prim2SF x = S754_finite false mx ex ->
  Prim2SF y = S754_finite false my ey ->
  (x <=? y)%float = true -> F2Q x <= F2Q y.
Proof.
  intros Hx Hy Hle.
  rewrite (F2Q_finite x mx ex Hx), (F2Q_finite y my ey Hy).
  rewrite leb_spec, Hx, Hy in Hle. unfold SFleb, SFcompare in Hle.
  destruct (finite_value_bounds x false mx ex Hx) as [Hxhi Hxlo].
  destruct (finite_value_bounds y false my ey Hy) as [Hyhi Hylo].
  destruct (finite_canonical x false mx ex Hx) as (_ & Hex & _).
  destruct (Z.compare_spec ex ey) as [Heq|Hlt|Hgt]; [| |discriminate Hle].
  - subst ey. change (Pos.compare_cont Eq mx my) with (Pos.compare mx my) in Hle.
    apply scale_le; [|apply Qlt_le_weak, pow2_pos].
    destruct (Pos.compare_spec mx my) as [?|?|?]; try discriminate Hle; lia.
  - specialize (Hylo ltac:(lia)).
    assert (pow2 (53 + ex) <= pow2 (52 + ey)) by (apply pow2_le; lia).
    lra.
Qed.

(** A number between zero and a finite positive one. *)
Lemma nonneg_cases (x y : float) (my : positive) (ey : Z) :
  Prim2SF y = S754_finite false my ey ->
  (0 <=? x)%float = true -> (x <=? y)%float = true ->
  (exists s, Prim2SF x = S754_zero s) \/
  (exists m e, Prim2SF x = S754_finite false m e).
Proof.
  intros Hy H0 Hle. rewrite leb_spec in H0, Hle. rewrite Hy in Hle.
  change (Prim2SF 0) with (S754_zero false) in H0.
  destruct (Prim2SF x) as [s|s| |s m e]; cbn in H0, Hle.
  - left. eauto.
  - destruct s; discriminate.
  - discriminate.
  - destruct s; [discriminate|]. right. eauto.
Qed.

(** *** Subtraction *)

Lemma iter_xO_spec (m d : positive) :
  Zpos (Pos.iter xO m d) = (Zpos m * 2 ^ Zpos d)%Z /\
  Zpos (digits2_pos (Pos.iter xO m d)) = (Zpos (digits2_pos m) + Zpos d)%Z.
Proof.
  induction d as [|d [IH1 IH2]] using Pos.peano_ind.
  - cbn [Pos.iter]. split; [rewrite Pos2Z.inj_xO; change (2 ^ 1)%Z with 2%Z; lia|].
    cbn [digits2_pos]. lia.
  - rewrite Pos.iter_succ. split.
    + rewrite Pos2Z.inj_xO, IH1, Pos2Z.inj_succ, Z.pow_succ_r by lia. ring.
    + cbn [digits2_pos]. rewrite Pos2Z.inj_succ, IH2. lia.
Qed.

Lemma shl_align_spec (mx : positive) (ex ex' : Z) :
  exists mz ez,
    shl_align mx ex ex' = (mz, ez) /\ (ez <= ex)%Z /\ (ez <= Z.max ex ex')%Z /\
    (ex' <= ex -> ez = ex')%Z /\ (ex <= ex' -> ez = ex)%Z /\
    Zpos mz = (Zpos mx * 2 ^ (ex - ez))%Z /\
    Zpos (digits2_pos mz) = (Zpos (digits2_pos mx) + (ex - ez))%Z.
Proof.
  unfold shl_align. destruct (ex' - ex)%Z as [|d|d] eqn:E.
  - exists mx, ex. split; [reflexivity|]. replace (ex - ex)%Z with 0%Z by lia.
    change (2 ^ 0)%Z with 1%Z. repeat split; lia.
  - exists mx, ex. split; [reflexivity|]. replace (ex - ex)%Z with 0%Z by lia.
    change (2 ^ 0)%Z with 1%Z. repeat split; lia.
  - exists (Pos.iter xO mx d), ex'. split; [reflexivity|].
    destruct (iter_xO_spec mx d) as [H1 H2].
    replace (ex - ex')%Z with (Zpos d) by lia. repeat split; try lia; assumption.
Qed.

Lemma shl_align_value (mx : positive) (ex ex' : Z) :
  inject_Z (Zpos (fst (shl_align mx ex ex'))) * pow2 (snd (shl_align mx ex ex'))
  == inject_Z (Zpos mx) * pow2 ex.
Proof.
  destruct (shl_align_spec mx ex ex') as (mz & ez & -> & Hle & _ & _ & _ & Hv & _).
  cbn [fst snd]. rewrite Hv, inject_Z_mult.
  replace ex with (ez + (ex - ez))%Z at 2 by lia.
  rewrite pow2_split by lia. ring.
Qed.

Lemma binary_round_normal (m : positive) (e : Z) :
  pow2 (-1022) <= inject_Z (Zpos m) * pow2 e ->
  inject_Z (Zpos m) * pow2 e < pow2 1023 ->
  exists M E,
    binary_round prec emax false m e = S754_finite false M E /\
    inject_Z (Zpos m) * pow2 e * (1 - pow2 (-52)) <= inject_Z (Zpos M) * pow2 E /\
    inject_Z (Zpos M) * pow2 E <= inject_Z (Zpos m) * pow2 e * (1 + pow2 (-52)).
Proof.
  intros Hlo Hhi. unfold binary_round.
  pose proof (shl_align_value m e (fexp prec emax (Zpos (digits2_pos m) + e))) as Hv.
  destruct (shl_align_spec m e (fexp prec emax (Zpos (digits2_pos m) + e)))
    as (mz & ez & Hsh & Hle & _ & Hdown & Hup & _ & Hd).
  rewrite Hsh in *. cbn [fst snd] in Hv.
  assert (HE : (ez <= fexp prec emax (Zdigits2 (Zpos mz) + ez))%Z).
  { cbn [Zdigits2]. rewrite Hd.
    replace (Zpos (digits2_pos m) + (e - ez) + ez)%Z
      with (Zpos (digits2_pos m) + e)%Z by lia.
    destruct (Z.le_gt_cases (fexp prec emax (Zpos (digits2_pos m) + e)) e) as [H|H].
    - rewrite (Hdown H). lia.
    - rewrite (Hup ltac:(lia)). lia. }
  pose proof (pow2_pos ez) as Hpz.
  apply (binary_round_aux_normal (Zpos mz) ez loc_Exact
           (inject_Z (Zpos m) * pow2 e)); try assumption.
  - lia.
  - lra.
  - rewrite inject_Z_plus. change (inject_Z 1) with 1. lra.
Qed.

(** The difference of two positive finite numbers, in the normal range. *)
Lemma sub_normal (x y : float) (mx my : positive) (ex ey : Z) :
  Prim2SF x = S754_finite false mx ex ->
  Prim2SF y = S754_finite false my ey ->
  pow2 (-1022) <= F2Q x - F2Q y -> F2Q x - F2Q y < pow2 1023 ->
  exists M E,
    Prim2SF (x - y) = S754_finite false M E /\
    (F2Q x - F2Q y) * (1 - pow2 (-52)) <= F2Q (x - y) /\
    F2Q (x - y) <= (F2Q x - F2Q y) * (1 + pow2 (-52)).
Proof.
  intros Hx Hy Hlo Hhi.
  rewrite (F2Q_finite x mx ex Hx), (F2Q_finite y my ey Hy) in *.
  unfold F2Q. rewrite sub_spec, Hx, Hy. unfold SF64sub, SFsub.
  set (ez := Z.min ex ey).
  pose proof (shl_align_value mx ex ez) as Hvx.
  pose proof (shl_align_value my ey ez) as Hvy.
  destruct (shl_align_spec mx ex ez) as (ax & zx & Hsx & _ & _ & Hdx & _).
  destruct (shl_align_spec my ey ez) as (ay & zy & Hsy & _ & _ & Hdy & _).
  rewrite Hsx in *. rewrite Hsy in *. cbn [fst snd] in *.
  rewrite (Hdx ltac:(unfold ez; lia)) in Hvx.
  rewrite (Hdy ltac:(unfold ez; lia)) in Hvy.
  cbn [cond_Zopp].
  pose proof (pow2_pos ez) as Hp. pose proof (pow2_pos (-1022)) as Hn.
  assert (Hdiff : inject_Z (Zpos ax - Zpos ay) * pow2 ez
                  == inject_Z (Zpos mx) * pow2 ex - inject_Z (Zpos my) * pow2 ey).
  { unfold Zminus. rewrite inject_Z_plus, inject_Z_opp, <- Hvx, <- Hvy. ring. }
  assert (Hpos : (0 < Zpos ax - Zpos ay)%Z).
  { destruct (Z.lt_ge_cases 0 (Zpos ax - Zpos ay)) as [|Hneg]; [assumption|].
    exfalso.
    assert (inject_Z (Zpos ax - Zpos ay) * pow2 ez <= 0).
    { assert (H0 : inject_Z (Zpos ax - Zpos ay) <= 0)
        by (change 0 with (inject_Z 0); rewrite <- Zle_Qle; lia).
      set (a := inject_Z (Zpos ax - Zpos ay)) in *. nra. }
    lra. }
  destruct (Zpos ax - Zpos ay)%Z as [|D|D] eqn:ED; try lia.
  cbn [binary_normalize].
  destruct (binary_round_normal D ez ltac:(lra) ltac:(lra)) as (M & E & -> & Hl & Hh).
  exists M, E. split; [reflexivity|]. cbn [SF2Q].
  pose proof (pow2_pos (-52)) as Hu.
  set (V := inject_Z (Zpos M) * pow2 E) in *.
  set (d := inject_Z (Zpos D) * pow2 ez) in *.
  set (X := inject_Z (Zpos mx) * pow2 ex - inject_Z (Zpos my) * pow2 ey) in *.
  set (u := pow2 (-52)) in *.
  assert (d * (1 - u) == X * (1 - u)) by (rewrite Hdiff; reflexivity).
  assert (d * (1 + u) == X * (1 + u)) by (rewrite Hdiff; reflexivity).
  split; lra.
Qed.

Lemma sub_zero (x y : float) (mx : positive) (ex : Z) (s : bool) :
  Prim2SF x = S754_finite false mx ex -> Prim2SF y = S754_zero s ->
  (x - y)%float = x.
Proof.
  intros Hx Hy. apply Prim2SF_inj. rewrite sub_spec, Hx, Hy. reflexivity.
Qed.

(** *** The two constants and the unit round-off *)

Lemma unit_roundoff : 0 < pow2 (-52) /\ pow2 (-52) <= 1 # 1000000 /\
                      0 < pow2 (-1074) /\ pow2 (-1074) <= 1 # 1000000.
Proof.
  assert (H52 : pow2 (-52) <= 1 # 1000000) by (vm_compute; discriminate).
  split; [apply pow2_pos|]. split; [exact H52|]. split; [apply pow2_pos|].
  eapply Qle_trans; [|exact H52]. apply pow2_le. lia.
Qed.

Lemma F2Q_one : Prim2SF 1 = S754_finite false 4503599627370496 (-52) /\ F2Q 1 == 1.
Proof. split; [reflexivity|]. vm_compute. reflexivity. Qed.

Lemma F2Q_lit_0_99 :
  (exists m e, Prim2SF lit_0_99 = S754_finite false m e) /\
  F2Q lit_0_99 <= 99 # 100 /\ 2 # 10 <= F2Q lit_0_99.
Proof.
  split; [do 2 eexists; reflexivity|]. split; vm_compute; discriminate.
Qed.

Lemma F2Q_zero (x : float) (s : bool) : Prim2SF x = S754_zero s -> F2Q x = 0.
Proof. intros H. unfold F2Q. rewrite H. reflexivity. Qed.

Lemma F2Q_eqb (x y : float) : (x =? y)%float = true -> F2Q x == F2Q y.
Proof.
  rewrite FloatAxioms.eqb_spec. unfold F2Q, SFeqb, SFcompare.
  destruct (Prim2SF x) as [sx|sx| |sx mx ex], (Prim2SF y) as [sy|sy| |sy my ey];
    try destruct sx; try destruct sy; try discriminate; try reflexivity;
    cbn [SF2Q]; intros H;
    (destruct (Z.compare_spec ex ey) as [->|?|?]; try discriminate H;
     change (Pos.compare_cont Eq mx my) with (Pos.compare mx my) in H;
     destruct (Pos.compare_spec mx my) as [->|?|?]; try discriminate H;
     reflexivity).
Qed.

Lemma positiveFinite_spec (x : float) :
  positiveFinite x = true <-> exists m e, Prim2SF x = S754_finite false m e.
Proof.
  unfold positiveFinite. destruct (Prim2SF x) as [s|s| |[] m e]; split;
    try discriminate; try (intros (? & ? & H); discriminate H); eauto.
Qed.

Lemma positiveFinite_not_nan (x : float) : positiveFinite x = true -> is_nan x = false.
Proof.
  intros H. apply positiveFinite_spec in H as (m & e & H).
  destruct (is_nan x) eqn:E; [|reflexivity].
  apply is_nan_spec in E. congruence.
Qed.

Lemma positiveFinite_below_infinity (x : float) :
  positiveFinite x = true -> (x <=? infinity)%float = true.
Proof.
  intros H. apply positiveFinite_spec in H as (m & e & H).
  rewrite leb_spec, H. reflexivity.
Qed.

Lemma positiveFinite_is_finite (x : float) :
  positiveFinite x = true -> is_finite x = true.
Proof.
  intros H. pose proof (positiveFinite_not_nan x H) as Hn.
  apply positiveFinite_spec in H as (m & e & H).
  unfold is_finite, is_infinity. rewrite Hn, FloatAxioms.eqb_spec, abs_spec, H.
  reflexivity.
Qed.

(** *** The house edge and what is left of the stake *)

(** Dividing by 100 never produces NaN from a number. *)
Lemma percent_not_nan (e : float) : is_nan e = false -> is_nan (e / 100) = false.
Proof.
  intros He. destruct (is_nan (e / 100)) eqn:E; [|reflexivity]. exfalso.
  apply is_nan_spec in E. rewrite div_spec in E.
  assert (Hne : Prim2SF e <> S754_nan).
  { intros Hn. apply is_nan_spec in Hn. congruence. }
  change (Prim2SF 100) with (S754_finite false 7036874417766400 (-46)) in E.
  unfold SF64div, SFdiv in E.
  destruct (Prim2SF e) as [s|s| |s m ex]; try discriminate E; [congruence|].
  destruct (SFdiv_core_spec m 7036874417766400 ex (-46))
    as (q & e' & l & Hcore & Hq & HE & _).
  rewrite Hcore in E.
  destruct (binary_round_aux_spec (xorb s false) q e' l Hq HE)
    as (M0 & _ & [[_ Hr]|(M & E' & _ & _ & [[_ Hr]|[_ Hr]])]);
    rewrite Hr in E; discriminate E.
Qed.

(** What is left after the edge, [1 - edge], for an edge between 0 and
    0.99: a positive finite number within one part in [2 ^ 52] of the exact
    difference. *)
Lemma one_minus_edge (y : float) :
  (0 <=? y)%float = true -> (y <=? lit_0_99)%float = true ->
  positiveFinite (1 - y) = true /\
  0 <= F2Q y /\ F2Q y <= 99 # 100 /\
  (1 - F2Q y) * (1 - pow2 (-52)) <= F2Q (1 - y) /\
  F2Q (1 - y) <= (1 - F2Q y) * (1 + pow2 (-52)).
Proof.
  intros H0 H99.
  destruct F2Q_lit_0_99 as ((m99 & e99 & H99sf) & H99hi & _).
  destruct F2Q_one as [H1sf H1q].
  destruct unit_roundoff as (Hu0 & Hu1 & _).
  destruct (nonneg_cases y lit_0_99 m99 e99 H99sf H0 H99) as [[s Hz]|(m & e & Hy)].
  - rewrite (sub_zero 1 y _ _ s H1sf Hz), (F2Q_zero y s Hz).
    split; [apply positiveFinite_spec; eauto|].
    set (u := pow2 (-52)) in *. repeat split; try lra; discriminate.
  - pose proof (Qle_of_leb y lit_0_99 m m99 e e99 Hy H99sf H99) as Hle.
    pose proof (F2Q_pos y m e Hy) as Hpos.
    assert (Hsmall : pow2 (-1022) <= 1 # 1000).
    { apply Qle_trans with (pow2 (-10)); [apply pow2_le; lia|].
      vm_compute. discriminate. }
    assert (Hbig : 1 < pow2 1023).
    { change 1 with (pow2 0). apply pow2_lt. lia. }
    destruct (sub_normal 1 y _ m _ e H1sf Hy) as (M & E & Hsf & Hl & Hh).
    { rewrite H1q. lra. }
    { rewrite H1q. lra. }
    split; [apply positiveFinite_spec; eauto|].
    rewrite H1q in Hl, Hh. repeat split; try lra.
Qed.

Lemma houseEdge_range (e : float) :
  is_nan e = false ->
  (0 <=? houseEdge e)%float = true /\ (houseEdge e <=? lit_0_99)%float = true.
Proof.
  intros He. apply houseEdge_clamp. now apply percent_not_nan.
Qed.

(** *** The probabilities of the board *)

Lemma probability_shape (mines r : Z) :
  (1 <= mines <= 24)%Z -> (1 <= r <= 25 - mines)%Z ->
  positiveFinite (probabilitySafePicks r mines 25) = true /\
  (probabilitySafePicks r mines 25 <=? 0)%float = false /\
  pow2 (-30) <= F2Q (probabilitySafePicks r mines 25) /\
  F2Q (probabilitySafePicks r mines 25) * 25000 <= inject_Z (25001 - 1000 * mines) /\
  F2Q (probabilitySafePicks r mines 25) <= 97 # 100.
Proof.
  intros Hm Hr.
  assert (T : ltac:(let t := eval unfold probabilityShapeTable in
                              probabilityShapeTable in exact (t = true)))
    by (vm_compute; reflexivity).
  rewrite forallb_forall in T. specialize (T mines ltac:(apply In_zrange; lia)).
  rewrite forallb_forall in T. specialize (T r ltac:(apply In_zrange; lia)).
  cbv zeta in T.
  apply andb_prop in T as [T H4].
  apply andb_prop in T as [T H3]. apply andb_prop in T as [H1 H2].
  apply Bool.negb_true_iff in H2. apply Qle_bool_iff in H3, H4.
  split; [exact H1|]. split; [exact H2|]. split; [exact H3|]. split; [exact H4|].
  assert (Hz : inject_Z (25001 - 1000 * mines) <= inject_Z 24001)
    by (rewrite <- Zle_Qle; lia).
  change (inject_Z 24001) with (24001 # 1) in Hz. lra.
Qed.

Lemma probability_gap (mines r1 r2 : Z) :
  (1 <= mines <= 24)%Z -> (1 <= r1)%Z -> (r1 < r2)%Z -> (r2 <= 25 - mines)%Z ->
  F2Q (probabilitySafePicks r2 mines 25) * 50
  <= F2Q (probabilitySafePicks r1 mines 25) * 49.
Proof.
  intros Hm H1 H12 H2.
  assert (T : ltac:(let t := eval unfold probabilityGapTable in
                              probabilityGapTable in exact (t = true)))
    by (vm_compute; reflexivity).
  rewrite forallb_forall in T. specialize (T mines ltac:(apply In_zrange; lia)).
  rewrite forallb_forall in T. specialize (T r1 ltac:(apply In_zrange; lia)).
  rewrite forallb_forall in T. specialize (T r2 ltac:(apply In_zrange; lia)).
  now apply Qle_bool_iff in T.
Qed.

(** *** The multiplier as a rounded quotient *)

Lemma Qdiv_bounds (c p lo hi : Q) :
  0 < p -> lo * p <= c -> c <= hi * p -> lo <= c / p /\ c / p <= hi.
Proof.
  intros Hp Hlo Hhi. split.
  - apply Qle_shift_div_l; assumption.
  - apply Qle_shift_div_r; assumption.
Qed.

Lemma Qdiv_mult (c p : Q) : 0 < p -> c / p * p == c.
Proof. intros Hp. field. lra. Qed.

(** On the board the multiplier is the float quotient of [1 - edge] by the
    probability: a positive finite number within one part in [2 ^ 52] of the
    exact quotient of the two. *)
Lemma multiplier_quotient (r mines : Z) (e : float) :
  (1 <= mines <= 24)%Z -> (1 <= r <= 25 - mines)%Z -> is_nan e = false ->
  payoutMultiplier r mines e
  = ((1 - houseEdge e) / probabilitySafePicks r mines 25)%float /\
  positiveFinite (payoutMultiplier r mines e) = true /\
  F2Q (1 - houseEdge e) / F2Q (probabilitySafePicks r mines 25) * (1 - pow2 (-52))
  <= F2Q (payoutMultiplier r mines e) /\
  F2Q (payoutMultiplier r mines e)
  <= F2Q (1 - houseEdge e) / F2Q (probabilitySafePicks r mines 25) * (1 + pow2 (-52)).
Proof.
  intros Hm Hr He.
  destruct (probability_shape mines r Hm Hr) as (Hpf & Hp0 & Hplo & _ & Hphi).
  destruct (houseEdge_range e He) as [H0 H99].
  destruct (one_minus_edge (houseEdge e) H0 H99) as (Hcf & Hy0 & Hy1 & Hcl & Hch).
  destruct unit_roundoff as (Hu0 & Hu1 & _).
  assert (Heq : payoutMultiplier r mines e
                = ((1 - houseEdge e) / probabilitySafePicks r mines 25)%float).
  { unfold payoutMultiplier. destruct (Z.leb_spec r 0); [lia|].
    rewrite Hp0. reflexivity. }
  rewrite Heq. split; [reflexivity|].
  apply positiveFinite_spec in Hpf as (mp & ep & Hp).
  apply positiveFinite_spec in Hcf as (mc & ec & Hc).
  pose proof (F2Q_pos _ _ _ Hp) as Hppos.
  set (c := F2Q (1 - houseEdge e)) in *.
  set (p := F2Q (probabilitySafePicks r mines 25)) in *.
  set (y := F2Q (houseEdge e)) in *. set (u := pow2 (-52)) in *.
  assert (Hc_lo : 1 # 128 <= c) by nra.
  assert (Hc_hi : c <= 2) by nra.
  assert (Hp30 : pow2 (-30) == 1 # 1073741824) by reflexivity.
  assert (HX : (1 # 128) <= c / p /\ c / p <= 2147483648).
  { apply Qdiv_bounds; [exact Hppos| |]; nra. }
  destruct (div_normal _ _ mc mp ec ep Hc Hp) as (M & E & Hsf & Hl & Hh).
  { fold c p. apply Qle_trans with (pow2 (-7)); [apply pow2_le; lia|].
    change (pow2 (-7)) with (1 # 128). tauto. }
  { fold c p. apply Qle_lt_trans with (pow2 31); [|apply pow2_lt; lia].
    change (pow2 31) with (inject_Z 2147483648). tauto. }
  split; [apply positiveFinite_spec; eauto|]. fold c p in Hl, Hh. split; assumption.
Qed.

Lemma multiplier_exhausted (r mines : Z) (e : float) :
  (0 < r)%Z -> (25 - mines < r)%Z -> payoutMultiplier r mines e = infinity.
Proof.
  intros Hr Hlt. unfold payoutMultiplier. destruct (Z.leb_spec r 0); [lia|].
  rewrite probability_exhausted by assumption. reflexivity.
Qed.

(** Two board positions whose probabilities are apart by the factor 49/50
    have their multipliers in the opposite order. *)
Lemma multiplier_gap (r1 m1 r2 m2 : Z) (e : float) :
  (1 <= m1 <= 24)%Z -> (1 <= r1 <= 25 - m1)%Z ->
  (1 <= m2 <= 24)%Z -> (1 <= r2 <= 25 - m2)%Z -> is_nan e = false ->
  F2Q (probabilitySafePicks r2 m2 25) * 50
  <= F2Q (probabilitySafePicks r1 m1 25) * 49 ->
  (payoutMultiplier r1 m1 e <=? payoutMultiplier r2 m2 e)%float = true.
Proof.
  intros Hm1 Hr1 Hm2 Hr2 He Hgap.
  destruct (multiplier_quotient r1 m1 e Hm1 Hr1 He) as (_ & Hf1 & _ & Hh1).
  destruct (multiplier_quotient r2 m2 e Hm2 Hr2 He) as (_ & Hf2 & Hl2 & _).
  destruct (probability_shape m1 r1 Hm1 Hr1) as (Hpf1 & _).
  destruct (probability_shape m2 r2 Hm2 Hr2) as (Hpf2 & _).
  destruct (houseEdge_range e He) as [H0 H99].
  destruct (one_minus_edge (houseEdge e) H0 H99) as (Hcf & _).
  destruct unit_roundoff as (Hu0 & Hu1 & _).
  apply positiveFinite_spec in Hpf1 as (mp1 & ep1 & Hp1).
  apply positiveFinite_spec in Hpf2 as (mp2 & ep2 & Hp2).
  apply positiveFinite_spec in Hcf as (mc & ec & Hc).
  pose proof (F2Q_pos _ _ _ Hp1) as Hpos1. pose proof (F2Q_pos _ _ _ Hp2) as Hpos2.
  pose proof (F2Q_pos _ _ _ Hc) as Hposc.
  apply positiveFinite_spec in Hf1 as (mv1 & e1 & Hv1).
  apply positiveFinite_spec in Hf2 as (mv2 & e2 & Hv2).
  apply (leb_of_Qle _ _ mv1 mv2 e1 e2 Hv1 Hv2).
  set (c := F2Q (1 - houseEdge e)) in *.
  set (p1 := F2Q (probabilitySafePicks r1 m1 25)) in *.
  set (p2 := F2Q (probabilitySafePicks r2 m2 25)) in *.
  set (u := pow2 (-52)) in *.
  pose proof (Qdiv_mult c p1 Hpos1) as Hx1. pose proof (Qdiv_mult c p2 Hpos2) as Hx2.
  set (x1 := c / p1) in *. set (x2 := c / p2) in *.
  assert (Hx1pos : 0 < x1) by (apply Qlt_shift_div_l; lra).
  assert (Hx2pos : 0 < x2) by (apply Qlt_shift_div_l; lra).
  assert (Hx : x1 * 50 <= x2 * 49).
  { (* x1 * p1 = x2 * p2 and p2 * 50 <= p1 * 49 *)
    assert (Hcross : x1 * p1 == x2 * p2) by lra.
    destruct (Qlt_le_dec (x2 * 49) (x1 * 50)) as [Hcontra|]; [|assumption].
    exfalso.
    assert (x2 * 49 * p1 < x1 * 50 * p1) by (apply Qmult_lt_compat_r; assumption).
    assert (x2 * (p2 * 50) <= x2 * (p1 * 49)).
    { rewrite !(Qmult_comm x2). apply Qmult_le_compat_r; lra. }
    nra. }
  apply Qle_trans with (x1 * (1 + u)); [assumption|].
  apply Qle_trans with (x2 * (1 - u)); [|assumption]. nra.
Qed.

(** One more safe pick never lowers the multiplier. *)
Lemma multiplier_grows (mines r1 r2 : Z) (e : float) :
  (1 <= mines <= 24)%Z -> is_nan e = false -> (1 <= r1 <= r2)%Z ->
  (payoutMultiplier r1 mines e <=? payoutMultiplier r2 mines e)%float = true.
Proof.
  intros Hm He Hr.
  destruct (Z.lt_ge_cases (25 - mines) r1) as [Hout1|Hin1].
  { rewrite !multiplier_exhausted by lia. reflexivity. }
  destruct (multiplier_quotient r1 mines e Hm ltac:(lia) He) as (_ & Hf1 & _).
  destruct (Z.lt_ge_cases (25 - mines) r2) as [Hout2|Hin2].
  { rewrite (multiplier_exhausted r2) by lia.
    now apply positiveFinite_below_infinity. }
  destruct (Z.eq_dec r1 r2) as [->|Hne].
  { apply float_leb_refl. now apply positiveFinite_not_nan. }
  apply multiplier_gap; try assumption; try lia.
  apply probability_gap; lia.
Qed.

Lemma leb_trans_positive (x y z : float) :
  positiveFinite x = true -> positiveFinite y = true -> positiveFinite z = true ->
  (x <=? y)%float = true -> (y <=? z)%float = true -> (x <=? z)%float = true.
Proof.
  intros Hx Hy Hz Hxy Hyz.
  apply positiveFinite_spec in Hx as (mx & ex & Hx).
  apply positiveFinite_spec in Hy as (my & ey & Hy).
  apply positiveFinite_spec in Hz as (mz & ez & Hz).
  apply (leb_of_Qle x z mx mz ex ez Hx Hz).
  apply Qle_trans with (F2Q y).
  - apply (Qle_of_leb x y mx my ex ey Hx Hy Hxy).
  - apply (Qle_of_leb y z my mz ey ez Hy Hz Hyz).
Qed.

(** Non-decreasing over all [r] as soon as the first pick does not pay less
    than the stake. *)
Lemma multiplier_grows_from_one (mines : Z) (e : float) :
  (1 <= mines <= 24)%Z -> is_nan e = false ->
  (1 <=? payoutMultiplier 1 mines e)%float = true ->
  forall r1 r2, multiplier_monotone mines e r1 r2.
Proof.
  intros Hm He H1 r1 r2 Hr.
  destruct (Z.le_gt_cases 1 r1) as [Hpos|Hnp].
  { apply multiplier_grows; [assumption|assumption|lia]. }
  assert (E1 : payoutMultiplier r1 mines e = 1%float).
  { unfold payoutMultiplier. destruct (Z.leb_spec r1 0); [reflexivity|lia]. }
  rewrite E1.
  destruct (Z.le_gt_cases r2 0) as [Hz|Hp2].
  { unfold payoutMultiplier. destruct (Z.leb_spec r2 0); [reflexivity|lia]. }
  destruct (Z.lt_ge_cases (25 - mines) r2) as [Hout|Hin].
  { rewrite multiplier_exhausted by lia. reflexivity. }
  destruct (multiplier_quotient 1 mines e Hm ltac:(lia) He) as (_ & Hf1 & _).
  destruct (multiplier_quotient r2 mines e Hm ltac:(lia) He) as (_ & Hf2 & _).
  apply (leb_trans_positive 1 (payoutMultiplier 1 mines e)); try assumption.
  - reflexivity.
  - apply multiplier_grows; [assumption|assumption|lia].
Qed.

(** *** The lower bound *)

Lemma F2Q_hundred : Prim2SF 100 = S754_finite false 7036874417766400 (-46) /\
                    F2Q 100 == 100.
Proof. split; [reflexivity|]. vm_compute. reflexivity. Qed.

Lemma F2Q_ten : Prim2SF 10 = S754_finite false 5629499534213120 (-49) /\
                F2Q 10 == 10.
Proof. split; [reflexivity|]. vm_compute. reflexivity. Qed.

(** The edge of a [houseEdgePct] between 0 and 10 that is at most [b]. *)
Lemma edge_upper (e : float) (b : Q) :
  (0 <=? e)%float = true -> (e <=? 10)%float = true -> F2Q e <= b -> b <= 10 ->
  is_nan e = false /\ 0 <= F2Q e /\
  F2Q (houseEdge e) <= b / 100 * (1 + pow2 (-52)) + pow2 (-1074).
Proof.
  intros H0 H10 Hb Hb10.
  destruct F2Q_ten as [H10sf H10q]. destruct F2Q_hundred as [H100sf H100q].
  destruct F2Q_lit_0_99 as ((m99 & e99 & H99sf) & _ & H99lo).
  destruct unit_roundoff as (Hu0 & Hu1 & Ht0 & Ht1).
  assert (He : is_nan e = false).
  { destruct (is_nan e) eqn:E; [|reflexivity]. apply is_nan_spec in E.
    rewrite leb_spec, E in H0. discriminate H0. }
  split; [exact He|].
  pose proof (houseEdge_clamp e (percent_not_nan e He)) as (_ & Hin & _).
  assert (Hdiv100 : b / 100 == b * (1 # 100)) by (unfold Qdiv; reflexivity).
  destruct (nonneg_cases e 10 _ _ H10sf H0 H10) as [[s Hz]|(m & ex & Hsf)].
  - (* zero *)
    rewrite (F2Q_zero e s Hz) in *. split; [apply Qle_refl|].
    assert (Hy : Prim2SF (e / 100) = S754_zero s).
    { rewrite div_spec, Hz, H100sf. destruct s; reflexivity. }
    assert (Hedge : F2Q (houseEdge e) == 0).
    { rewrite (F2Q_eqb (houseEdge e) (e / 100)); [now rewrite (F2Q_zero _ s Hy)|].
      apply Hin; rewrite leb_spec, Hy; [reflexivity|].
      rewrite H99sf. reflexivity. }
    rewrite Hedge. set (u := pow2 (-52)) in *. set (t := pow2 (-1074)) in *. nra.
  - pose proof (F2Q_pos e m ex Hsf) as Hpos. split; [now apply Qlt_le_weak|].
    pose proof (Qle_of_leb e 10 _ _ _ _ Hsf H10sf H10) as Hle10.
    rewrite H10q in Hle10.
    assert (HX : F2Q e / F2Q 100 == F2Q e * (1 # 100)).
    { rewrite H100q. unfold Qdiv. reflexivity. }
    destruct (div_upper e 100 _ _ _ _ Hsf H100sf) as (Hcls & Hup).
    { rewrite HX. apply Qle_lt_trans with (pow2 0); [|apply pow2_lt; lia].
      change (pow2 0) with 1. lra. }
    rewrite HX in Hup.
    set (u := pow2 (-52)) in *. set (t := pow2 (-1074)) in *.
    assert (Hy02 : F2Q (e / 100) <= 2 # 10) by nra.
    assert (Hedge : F2Q (houseEdge e) == F2Q (e / 100)).
    { apply F2Q_eqb, Hin.
      - rewrite leb_spec. destruct Hcls as [->|(M & E & ->)]; reflexivity.
      - destruct Hcls as [Hz|(M & E & Hy)].
        + rewrite leb_spec, Hz, H99sf. reflexivity.
        + apply (leb_of_Qle _ _ M m99 E e99 Hy H99sf). lra. }
    rewrite Hedge. nra.
Qed.

(** A number [t] of value at most [L] is below the multiplier whenever
    [L * p <= 1 - b / 100] holds with a little room, [b] bounding the house
    edge in percent and [p] the probability. *)
Lemma multiplier_above (r mines : Z) (e t : float) (b L : Q) :
  (1 <= mines <= 24)%Z -> (1 <= r <= 25 - mines)%Z ->
  (0 <=? e)%float = true -> (e <=? 10)%float = true ->
  F2Q e <= b -> b <= 10 ->
  positiveFinite t = true -> F2Q t <= L -> 0 <= L ->
  L * inject_Z (25001 - 1000 * mines) <= (1 - b / 100 - (1 # 200000)) * 25000 ->
  (t <=? payoutMultiplier r mines e)%float = true.
Proof.
  intros Hm Hr H0 H10 Hb Hb10 Ht HtL HL0 Hroom.
  destruct (edge_upper e b H0 H10 Hb Hb10) as (He & He0 & Hedge).
  destruct (multiplier_quotient r mines e Hm Hr He) as (_ & Hvf & Hvl & _).
  destruct (probability_shape mines r Hm Hr) as (Hpf & _ & _ & Hp & _).
  destruct (houseEdge_range e He) as [Hy0 Hy99].
  destruct (one_minus_edge (houseEdge e) Hy0 Hy99) as (Hcf & Hyn & _ & Hcl & _).
  destruct unit_roundoff as (Hu0 & Hu1 & Ht0 & Ht1).
  apply positiveFinite_spec in Ht as (mt & et & Htsf).
  apply positiveFinite_spec in Hvf as (mv & ev & Hvsf).
  apply positiveFinite_spec in Hpf as (mp & ep & Hpsf).
  pose proof (F2Q_pos _ _ _ Hpsf) as Hppos.
  apply (leb_of_Qle t _ mt mv et ev Htsf Hvsf).
  assert (Hdiv100 : b / 100 == b * (1 # 100)) by (unfold Qdiv; reflexivity).
  set (c := F2Q (1 - houseEdge e)) in *.
  set (p := F2Q (probabilitySafePicks r mines 25)) in *.
  set (y := F2Q (houseEdge e)) in *.
  set (u := pow2 (-52)) in *. set (t0 := pow2 (-1074)) in *.
  set (P := inject_Z (25001 - 1000 * mines)) in *.
  set (bb := b / 100) in *.
  assert (Hb0 : 0 <= b) by lra.
  assert (Hc : 1 - bb - (3 # 1000000) <= c) by nra.
  pose proof (Qdiv_mult c p Hppos) as Hx. set (x := c / p) in *.
  assert (Hxpos : 0 <= x) by (apply Qle_shift_div_l; [exact Hppos|nra]).
  assert (HLp : L * p * 25000 <= (1 - bb - (1 # 200000)) * 25000) by nra.
  assert (HxL : L * (1 + (2 # 1000000)) <= x).
  { destruct (Qlt_le_dec x (L * (1 + (2 # 1000000)))) as [Hcontra|]; [|assumption].
    exfalso.
    assert (x * p < L * (1 + (2 # 1000000)) * p)
      by (apply Qmult_lt_compat_r; assumption).
    nra. }
  apply Qle_trans with L; [exact HtL|].
  apply Qle_trans with (x * (1 - u)); [|exact Hvl]. nra.
Qed.

Lemma stake_left_below (r mines : Z) (e : float) :
  (1 <= mines <= 24)%Z -> (1 <= r <= 25 - mines)%Z -> is_nan e = false ->
  (1 - houseEdge e <=? payoutMultiplier r mines e)%float = true.
Proof.
  intros Hm Hr He.
  destruct (multiplier_quotient r mines e Hm Hr He) as (_ & Hvf & Hvl & _).
  destruct (probability_shape mines r Hm Hr) as (Hpf & _ & _ & _ & Hp).
  destruct (houseEdge_range e He) as [Hy0 Hy99].
  destruct (one_minus_edge (houseEdge e) Hy0 Hy99) as (Hcf & _).
  destruct unit_roundoff as (Hu0 & Hu1 & _).
  apply positiveFinite_spec in Hcf as (mc & ec & Hcsf).
  apply positiveFinite_spec in Hvf as (mv & ev & Hvsf).
  apply positiveFinite_spec in Hpf as (mp & ep & Hpsf).
  pose proof (F2Q_pos _ _ _ Hpsf) as Hppos. pose proof (F2Q_pos _ _ _ Hcsf) as Hcpos.
  apply (leb_of_Qle _ _ mc mv ec ev Hcsf Hvsf).
  set (c := F2Q (1 - houseEdge e)) in *.
  set (p := F2Q (probabilitySafePicks r mines 25)) in *.
  set (u := pow2 (-52)) in *.
  pose proof (Qdiv_mult c p Hppos) as Hx. set (x := c / p) in *.
  assert (HxL : c * (100 # 97) <= x).
  { destruct (Qlt_le_dec x (c * (100 # 97))) as [Hcontra|]; [|assumption].
    exfalso.
    assert (x * p < c * (100 # 97) * p) by (apply Qmult_lt_compat_r; assumption).
    nra. }
  apply Qle_trans with (x * (1 - u)); [|exact Hvl]. nra.
Qed.

Lemma literal_values :
  positiveFinite 1 = true /\ F2Q 1 <= 1 /\
  positiveFinite 0.9 = true /\ F2Q 0.9 <= 9000001 # 10000000 /\
  positiveFinite 3.9 = true /\ F2Q 3.9 <= 39000001 # 10000000 /\
  positiveFinite 7.9 = true /\ F2Q 7.9 <= 79000001 # 10000000.
Proof. repeat split; vm_compute; discriminate. Qed.

(** With three mines or more and an edge of at most ten percent the first
    pick already pays the stake back. *)
Lemma first_pick_pays (mines : Z) (e : float) :
  (3 <= mines <= 24)%Z -> (0 <=? e)%float = true -> (e <=? 10)%float = true ->
  (1 <=? payoutMultiplier 1 mines e)%float = true.
Proof.
  intros Hm H0 H10.
  destruct F2Q_ten as [H10sf H10q].
  assert (He10 : F2Q e <= 10).
  { destruct (nonneg_cases e 10 _ _ H10sf H0 H10) as [[s Hz]|(m & ex & Hsf)].
    - rewrite (F2Q_zero e s Hz). discriminate.
    - rewrite <- H10q. apply (Qle_of_leb e 10 _ _ _ _ Hsf H10sf H10). }
  apply (multiplier_above 1 mines e 1 10 1);
    try assumption; try lia; try reflexivity; try discriminate.
  assert (H : inject_Z (25001 - 1000 * mines) <= inject_Z 22001)
    by (rewrite <- Zle_Qle; lia).
  change (inject_Z 22001) with 22001 in H.
  set (P := inject_Z (25001 - 1000 * mines)) in *.
  assert (Hd : 10 / 100 == 1 # 10) by reflexivity.
  set (d := 10 / 100) in *. lra.
Qed.

Lemma probability_mines_gap (m1 m2 r : Z) :
  (1 <= m1)%Z -> (m1 < m2)%Z -> (m2 <= 24)%Z -> (1 <= r <= 25 - m2)%Z ->
  F2Q (probabilitySafePicks r m2 25) * 50
  <= F2Q (probabilitySafePicks r m1 25) * 49.
Proof.
  intros H1 H12 H2 Hr.
  assert (T : ltac:(let t := eval unfold probabilityMinesTable in
                              probabilityMinesTable in exact (t = true)))
    by (vm_compute; reflexivity).
  rewrite forallb_forall in T. specialize (T m1 ltac:(apply In_zrange; lia)).
  rewrite forallb_forall in T. specialize (T m2 ltac:(apply In_zrange; lia)).
  rewrite forallb_forall in T. specialize (T r ltac:(apply In_zrange; lia)).
  now apply Qle_bool_iff in T.
Qed.

Lemma zero_leb_positive (x : float) :
  positiveFinite x = true -> (0 <=? x)%float = true.
Proof.
  intros H. apply positiveFinite_spec in H as (m & e & H).
  rewrite leb_spec, H. reflexivity.
Qed.

(** C5 (amended).  For a board with 1 to 24 mines and a house edge that is
    a number, the binary64 multiplier never decreases from the first pick on,
    the exhausted board's [infinity] included.  It is non-decreasing over
    every [r], the 1 of [r <= 0] included, exactly when the first pick pays
    at least 1; with three mines or more and an edge between 0 and 10 percent
    it does. *)
Theorem multiplier_monotone_after_first_pick (mines : Z) (e : float) :
  (1 <= mines <= 24)%Z -> is_nan e = false ->
  (forall r1 r2, (1 <= r1)%Z -> multiplier_monotone mines e r1 r2) /\
  ((1 <=? payoutMultiplier 1 mines e)%float = true <->
   forall r1 r2, multiplier_monotone mines e r1 r2) /\
  ((3 <= mines)%Z -> (0 <=? e)%float = true -> (e <=? 10)%float = true ->
   forall r1 r2, multiplier_monotone mines e r1 r2).
Proof.
  intros Hm He. split; [|split].
  - intros r1 r2 H1 Hr. apply multiplier_grows; [assumption|assumption|lia].
  - split.
    + now apply multiplier_grows_from_one.
    + intros Hall. apply (Hall 0%Z 1%Z). lia.
  - intros H3 H0 H10. apply multiplier_grows_from_one; [assumption|assumption|].
    apply first_pick_pays; [lia|assumption|assumption].
Qed.

Lemma multiplier_monotone_after_first_pick_witness :
  (forall r1 r2, (1 <= r1)%Z -> multiplier_monotone 3 10 r1 r2) /\
  ((1 <=? payoutMultiplier 1 3 10)%float = true <->
   forall r1 r2, multiplier_monotone 3 10 r1 r2) /\
  ((3 <= 3)%Z -> (0 <=? 10)%float = true -> (10 <=? 10)%float = true ->
   forall r1 r2, multiplier_monotone 3 10 r1 r2).
Proof. apply (multiplier_monotone_after_first_pick 3 10); [lia|reflexivity]. Defined.

(** C8 (amended).  For [r >= 1], 1 to 24 mines and a house edge between 0
    and 10 percent, the binary64 multiplier is [infinity] when the safe tiles
    run out; otherwise it is finite, at least [1 - edge] and at least 0.9.
    It is at least 1 with three mines or more, with two mines and an edge of
    at most 7.9 percent, and with one mine and an edge of at most 3.9
    percent. *)
Theorem multiplier_lower_bound (r mines : Z) (e : float) :
  (1 <= r)%Z -> (1 <= mines <= 24)%Z ->
  (0 <=? e)%float = true -> (e <=? 10)%float = true ->
  ((25 - mines < r)%Z /\ payoutMultiplier r mines e = infinity) \/
  ((r <= 25 - mines)%Z /\
   is_finite (payoutMultiplier r mines e) = true /\
   (1 - houseEdge e <=? payoutMultiplier r mines e)%float = true /\
   (0.9 <=? payoutMultiplier r mines e)%float = true /\
   ((3 <= mines)%Z -> (1 <=? payoutMultiplier r mines e)%float = true) /\
   (mines = 2%Z -> (e <=? 7.9)%float = true ->
      (1 <=? payoutMultiplier r mines e)%float = true) /\
   (mines = 1%Z -> (e <=? 3.9)%float = true ->
      (1 <=? payoutMultiplier r mines e)%float = true)).
Proof.
  intros Hr Hm H0 H10.
  destruct (Z.lt_ge_cases (25 - mines) r) as [Hout|Hin].
  { left. split; [exact Hout|]. apply multiplier_exhausted; lia. }
  right. split; [lia|].
  destruct F2Q_ten as [H10sf H10q].
  destruct literal_values as (H1f & H1q & H09f & H09q & H39f & H39q & H79f & H79q).
  assert (He10 : F2Q e <= 10).
  { destruct (nonneg_cases e 10 _ _ H10sf H0 H10) as [[s Hz]|(m & ex & Hsf)].
    - rewrite (F2Q_zero e s Hz). discriminate.
    - rewrite <- H10q. apply (Qle_of_leb e 10 _ _ _ _ Hsf H10sf H10). }
  destruct (edge_upper e 10 H0 H10 He10 ltac:(apply Qle_refl)) as (He & _).
  destruct (multiplier_quotient r mines e Hm ltac:(lia) He) as (_ & Hvf & _).
  assert (HP : forall k : Z, (k <= mines)%Z ->
            inject_Z (25001 - 1000 * mines) <= inject_Z (25001 - 1000 * k)).
  { intros k Hk. rewrite <- Zle_Qle. lia. }
  assert (Hbelow : forall (lit : float) (b : Q),
            positiveFinite lit = true -> (e <=? lit)%float = true ->
            F2Q lit <= b -> F2Q e <= b).
  { intros lit b Hlf Hle Hlb.
    destruct (nonneg_cases e 10 _ _ H10sf H0 H10) as [[s Hz]|(m & ex & Hsf)].
    - rewrite (F2Q_zero e s Hz). apply positiveFinite_spec in Hlf as (ml & el & Hl).
      pose proof (F2Q_pos _ _ _ Hl). lra.
    - apply positiveFinite_spec in Hlf as (ml & el & Hl).
      pose proof (Qle_of_leb e lit _ _ _ _ Hsf Hl Hle). lra. }
  split; [now apply positiveFinite_is_finite|].
  split; [apply stake_left_below; [assumption|lia|assumption]|].
  split; [|split; [|split]].
  - apply (multiplier_above r mines e 0.9 10 (9000001 # 10000000));
      try assumption; try lia; try discriminate.
    pose proof (HP 1%Z ltac:(lia)) as H. change (inject_Z (25001 - 1000 * 1)) with 24001 in H.
    set (P := inject_Z (25001 - 1000 * mines)) in *.
    assert (Hd : 10 / 100 == 1 # 10) by reflexivity.
    set (d := 10 / 100) in *. lra.
  - intros H3.
    apply (multiplier_above r mines e 1 10 1);
      try assumption; try lia; try discriminate.
    pose proof (HP 3%Z H3) as H. change (inject_Z (25001 - 1000 * 3)) with 22001 in H.
    set (P := inject_Z (25001 - 1000 * mines)) in *.
    assert (Hd : 10 / 100 == 1 # 10) by reflexivity.
    set (d := 10 / 100) in *. lra.
  - intros -> H79.
    apply (multiplier_above r 2 e 1 (79000001 # 10000000) 1);
      try assumption; try lia; try discriminate.
    now apply (Hbelow 7.9%float).
  - intros -> H39.
    apply (multiplier_above r 1 e 1 (39000001 # 10000000) 1);
      try assumption; try lia; try discriminate.
    now apply (Hbelow 3.9%float).
Qed.

Lemma multiplier_lower_bound_witness :
  ((25 - 3 < 1)%Z /\ payoutMultiplier 1 3 10 = infinity) \/
  ((1 <= 25 - 3)%Z /\
   is_finite (payoutMultiplier 1 3 10) = true /\
   (1 - houseEdge 10 <=? payoutMultiplier 1 3 10)%float = true /\
   (0.9 <=? payoutMultiplier 1 3 10)%float = true /\
   ((3 <= 3)%Z -> (1 <=? payoutMultiplier 1 3 10)%float = true) /\
   (3%Z = 2%Z -> (10 <=? 7.9)%float = true ->
      (1 <=? payoutMultiplier 1 3 10)%float = true) /\
   (3%Z = 1%Z -> (10 <=? 3.9)%float = true ->
      (1 <=? payoutMultiplier 1 3 10)%float = true)).
Proof.
  apply (multiplier_lower_bound 1 3 10); [lia|lia|reflexivity|reflexivity].
Defined.

(** X10.  On the board the multiplier times the probability is [1 - edge]
    up to the two roundings of the code, the subtraction and the division:
    the product of the values of the two binary64 numbers is within the
    factor [1 +- 2 ^ -52] of the value of the computed [1 - edge], itself
    within that factor of one minus the value of the edge. *)
Theorem expected_return_rounded (r mines : Z) (e : float) :
  (1 <= mines <= 24)%Z -> (1 <= r <= 25 - mines)%Z -> is_nan e = false ->
  let v := F2Q (payoutMultiplier r mines e) in
  let p := F2Q (probabilitySafePicks r mines 25) in
  let c := F2Q (1 - houseEdge e) in
  let y := F2Q (houseEdge e) in
  c * (1 - pow2 (-52)) <= v * p /\ v * p <= c * (1 + pow2 (-52)) /\
  (1 - y) * (1 - pow2 (-52)) <= c /\ c <= (1 - y) * (1 + pow2 (-52)) /\
  0 <= y /\ y <= 99 # 100.
Proof.
  intros Hm Hr He.
  destruct (multiplier_quotient r mines e Hm Hr He) as (_ & _ & Hl & Hh).
  destruct (probability_shape mines r Hm Hr) as (Hpf & _).
  destruct (houseEdge_range e He) as [H0 H99].
  destruct (one_minus_edge (houseEdge e) H0 H99) as (_ & Hy0 & Hy1 & Hcl & Hch).
  apply positiveFinite_spec in Hpf as (mp & ep & Hp).
  pose proof (F2Q_pos _ _ _ Hp) as Hppos.
  cbv zeta.
  set (c := F2Q (1 - houseEdge e)) in *.
  set (p := F2Q (probabilitySafePicks r mines 25)) in *.
  set (v := F2Q (payoutMultiplier r mines e)) in *.
  set (u := pow2 (-52)) in *.
  pose proof (Qdiv_mult c p Hppos) as Hx. set (x := c / p) in *.
  assert (Hlo : x * (1 - u) * p <= v * p) by (apply Qmult_le_compat_r; lra).
  assert (Hhi : v * p <= x * (1 + u) * p) by (apply Qmult_le_compat_r; lra).
  repeat split; try assumption; nra.
Qed.

Lemma expected_return_rounded_witness :
  let v := F2Q (payoutMultiplier 2 3 3) in
  let p := F2Q (probabilitySafePicks 2 3 25) in
  let c := F2Q (1 - houseEdge 3) in
  let y := F2Q (houseEdge 3) in
  c * (1 - pow2 (-52)) <= v * p /\ v * p <= c * (1 + pow2 (-52)) /\
  (1 - y) * (1 - pow2 (-52)) <= c /\ c <= (1 - y) * (1 + pow2 (-52)) /\
  0 <= y /\ y <= 99 # 100.
Proof. apply (expected_return_rounded 2 3 3); [lia|lia|reflexivity]. Defined.

(** X25.  More mines never pay less.  For every [r], every house edge that
    is a number and all mine counts [1 <= m1 <= m2 <= 24], the binary64
    probability of [r] safe picks with [m2] mines is at most the one with
    [m1] mines, and the multiplier with [m2] mines is at least the one with
    [m1] mines ([infinity] once [r] safe picks are no longer possible). *)
Theorem more_mines_more_pay (r m1 m2 : Z) (e : float) :
  (1 <= m1 <= m2)%Z -> (m2 <= 24)%Z -> is_nan e = false ->
  (probabilitySafePicks r m2 25 <=? probabilitySafePicks r m1 25)%float = true /\
  (payoutMultiplier r m1 e <=? payoutMultiplier r m2 e)%float = true.
Proof.
  intros Hm H24 He.
  destruct (Z.le_gt_cases r 0) as [Hr0|Hr].
  { unfold payoutMultiplier, probabilitySafePicks.
    destruct (Z.leb_spec r 0); [|lia]. split; reflexivity. }
  destruct (Z.lt_ge_cases (25 - m2) r) as [Hout2|Hin2].
  { rewrite (multiplier_exhausted r m2) by lia.
    rewrite (probability_exhausted r m2) by lia.
    destruct (Z.lt_ge_cases (25 - m1) r) as [Hout1|Hin1].
    - rewrite (multiplier_exhausted r m1) by lia.
      rewrite (probability_exhausted r m1) by lia. split; reflexivity.
    - destruct (multiplier_quotient r m1 e ltac:(lia) ltac:(lia) He) as (_ & Hf1 & _).
      destruct (probability_shape m1 r ltac:(lia) ltac:(lia)) as (Hpf1 & _).
      split; [now apply zero_leb_positive|now apply positiveFinite_below_infinity]. }
  destruct (Z.eq_dec m1 m2) as [->|Hne].
  { destruct (multiplier_quotient r m2 e ltac:(lia) ltac:(lia) He) as (_ & Hf & _).
    destruct (probability_shape m2 r ltac:(lia) ltac:(lia)) as (Hpf & _).
    split; apply float_leb_refl; now apply positiveFinite_not_nan. }
  pose proof (probability_mines_gap m1 m2 r ltac:(lia) ltac:(lia) ltac:(lia) ltac:(lia))
    as Hgap.
  split.
  - destruct (probability_shape m1 r ltac:(lia) ltac:(lia)) as (Hpf1 & _).
    destruct (probability_shape m2 r ltac:(lia) ltac:(lia)) as (Hpf2 & _).
    apply positiveFinite_spec in Hpf1 as (mp1 & ep1 & Hp1).
    apply positiveFinite_spec in Hpf2 as (mp2 & ep2 & Hp2).
    pose proof (F2Q_pos _ _ _ Hp1). pose proof (F2Q_pos _ _ _ Hp2).
    apply (leb_of_Qle _ _ mp2 mp1 ep2 ep1 Hp2 Hp1). lra.
  - apply multiplier_gap; try assumption; lia.
Qed.

Lemma more_mines_more_pay_witness :
  (probabilitySafePicks 1 24 25 <=? probabilitySafePicks 1 1 25)%float = true /\
  (payoutMultiplier 1 1 3 <=? payoutMultiplier 1 24 3)%float = true.
Proof. apply (more_mines_more_pay 1 1 24 3); [lia|lia|reflexivity]. Defined.

End Binary64.
